(** * SentinelDB: temporal store, guard negotiation and write-ahead log

    A shallow embedding of the C++ engine (kvstore.cpp, guard.cpp, wal.cpp and
    the recovery code of main.cpp) together with the properties its
    specification states about it.

    Conventions of the embedding:
    - [std::chrono::system_clock::time_point] is the signed 64-bit tick count
      of the clock since the epoch.  With libstdc++ (the Dockerfile builds on
      Ubuntu with GCC) one tick is one nanosecond, so a time point is a [Z]
      counting nanoseconds.
    - [std::string] is [string]; [std::vector] is [list];
      [std::unordered_map<std::string, std::vector<Version>>] is a
      [gmap string (list Version)].
    - Member functions that the C++ declares [const] are functions of the
      state; the other member functions run in the state monad [M] over
      [World], which also carries the files on disk and the counters that
      index the readings of the clock and the outcomes of stream writes. *)

From Stdlib Require Import ZArith String Ascii List Lia Bool.
From Stdlib Require Import DecimalString DecimalPos DecimalZ.
From stdpp Require Import base option gmap strings list fin_maps.

#[local] Open Scope string_scope.
#[local] Open Scope list_scope.
#[local] Open Scope Z_scope.

(** ** Data model (kvstore.h, guard.h, status.h) *)

Definition time_point := Z.

Inductive Status := OK | NOT_FOUND | ERROR.

Record Version := mkVersion { timestamp : time_point; value : string }.

Inductive RetentionMode := FULL | LAST_N | LAST_T.

Record RetentionPolicy := mkRetention {
  mode : RetentionMode;
  count : Z;     (* int *)
  seconds : Z    (* int *)
}.

(** [RetentionPolicy()] and [RetentionPolicy(m, val)]. *)
Definition RetentionPolicy_default : RetentionPolicy := mkRetention FULL 0 0.

Definition RetentionPolicy_make (m : RetentionMode) (val : Z) : RetentionPolicy :=
  mkRetention m
    (match m with LAST_N => val | _ => 0 end)
    (match m with LAST_T => val | _ => 0 end).

Inductive DecisionPolicy := DEV_FRIENDLY | SAFE_DEFAULT | STRICT.

Inductive GuardResult := ACCEPT | REJECT | COUNTER_OFFER.

Record Alternative := mkAlternative { alt_value : string; explanation : string }.

Record WriteEvaluation := mkWriteEvaluation {
  result : GuardResult;
  ev_key : string;
  proposedValue : string;
  reason : string;
  alternatives : list Alternative;
  triggeredGuards : list string;
  appliedPolicy : DecisionPolicy;
  policyReasoning : string
}.

Record ExplainResult := mkExplainResult {
  found : bool;
  ex_key : string;
  queryTimestamp : time_point;
  selectedVersion : option Version;
  reasoning : string;
  skippedVersions : list Version;
  totalVersions : nat
}.

#[global] Instance Version_eq_dec : EqDecision Version.
Proof. solve_decision. Defined.
#[global] Instance GuardResult_eq_dec : EqDecision GuardResult.
Proof. solve_decision. Defined.
#[global] Instance DecisionPolicy_eq_dec : EqDecision DecisionPolicy.
Proof. solve_decision. Defined.
#[global] Instance Alternative_eq_dec : EqDecision Alternative.
Proof. solve_decision. Defined.

(** ** Text helpers: [std::to_string], [operator<<] on integers *)

(** Decimal rendering of an integer, as [std::to_string] and the stream
    inserter produce it: a minus sign for negatives, no leading zeros. *)
Definition to_string (z : Z) : string := NilZero.string_of_int (Z.to_int z).

Definition size_to_string (n : nat) : string := to_string (Z.of_nat n).

(** ** The version list of one key *)

(** The loop of [getAtTime]: remember the value of every version at or
    before [t]; stop at the first later one. *)
Fixpoint getAt_loop (versions : list Version) (t : time_point)
    (res : option string) : option string :=
  match versions with
  | [] => res
  | v :: rest =>
      if timestamp v <=? t then getAt_loop rest t (Some (value v))
      else res
  end.

(** The loop of [explainGetAtTime] over indices [i, size): [sel] is
    [selectedIndex], [skipped] is [result.skippedVersions]. *)
Fixpoint explain_loop (all rest : list Version) (i : nat) (t : time_point)
    (sel : option nat) (skipped : list Version) : option nat * list Version :=
  match rest with
  | [] => (sel, skipped)
  | v :: rest' =>
      if timestamp v <=? t then
        let skipped' :=
          match sel with
          | Some j =>
              match all !! j with
              | Some old => skipped ++ [old]
              | None => skipped
              end
          | None => skipped
          end in
        explain_loop all rest' (S i) t (Some i) skipped'
      else (sel, skipped)
  end.

(** ** Characters and strings of the C++ standard library *)

Definition code (c : ascii) : Z := Z.of_N (N_of_ascii c).

(** [isspace] in the "C" locale: space, \t, \n, \v, \f, \r. *)
Definition isspace (c : ascii) : bool :=
  (code c =? 32) || ((9 <=? code c) && (code c <=? 13)).

Definition isdigit (c : ascii) : bool := (48 <=? code c) && (code c <=? 57).

Definition digit_val (c : ascii) : Z := code c - 48.

(** [::tolower] in the "C" locale. *)
Definition tolower (c : ascii) : ascii :=
  if (65 <=? code c) && (code c <=? 90)
  then ascii_of_N (N_of_ascii c + 32) else c.

Fixpoint string_map (f : ascii -> ascii) (s : string) : string :=
  match s with
  | EmptyString => EmptyString
  | String c r => String (f c) (string_map f r)
  end.

(** [std::string(n, c)]. *)
Fixpoint string_fill (n : nat) (c : ascii) : string :=
  match n with
  | O => EmptyString
  | S m => String c (string_fill m c)
  end.

(** [s.back()]; on the empty string the C++ call is undefined, here [None]. *)
Fixpoint string_back (s : string) : option ascii :=
  match s with
  | EmptyString => None
  | String c EmptyString => Some c
  | String _ r => string_back r
  end.

(** [hay.find(needle) != std::string::npos]. *)
Fixpoint string_contains (needle hay : string) : bool :=
  String.prefix needle hay ||
  match hay with
  | EmptyString => false
  | String _ r => string_contains needle r
  end.

(** Leading white space is skipped by [strtol] and by formatted stream
    extraction. *)
Fixpoint skip_ws (s : string) : string :=
  match s with
  | String c r => if isspace c then skip_ws r else s
  | EmptyString => EmptyString
  end.

(** Longest run of decimal digits at the head of [s], accumulated into
    [acc]; returns the number read and the unread rest. *)
Fixpoint read_digits (s : string) (acc : Z) : Z * string :=
  match s with
  | String c r =>
      if isdigit c then read_digits r (10 * acc + digit_val c) else (acc, s)
  | EmptyString => (acc, EmptyString)
  end.

(** An optionally signed decimal integer at the head of [s]: [None] when
    no digit follows the optional sign. *)
Definition read_int (s : string) : option (Z * string) :=
  let '(neg, body) :=
    match s with
    | String "-"%char r => (true, r)
    | String "+"%char r => (false, r)
    | _ => (false, s)
    end in
  match body with
  | String c _ =>
      if isdigit c then
        let '(v, rest) := read_digits body 0 in
        Some (if neg then - v else v, rest)
      else None
  | EmptyString => None
  end.

Definition INT_MIN : Z := - 2 ^ 31.
Definition INT_MAX : Z := 2 ^ 31 - 1.
Definition LLONG_MIN : Z := - 2 ^ 63.
Definition LLONG_MAX : Z := 2 ^ 63 - 1.

(** [std::stoi]: [None] stands for the exception it throws
    ([std::invalid_argument] without digits, [std::out_of_range] outside
    [int]). Trailing characters after the number are ignored. *)
Definition stoi (s : string) : option Z :=
  match read_int (skip_ws s) with
  | Some (v, _) => if (INT_MIN <=? v) && (v <=? INT_MAX) then Some v else None
  | None => None
  end.

(** Two's complement wrap-around of [int] arithmetic. *)
Definition wrap_int (z : Z) : Z := (z + 2 ^ 31) mod 2 ^ 32 - 2 ^ 31.

(** ** Guards (guard.h, guard.cpp) *)

Module Guard.

Inductive Kind :=
| RangeIntGuard (minValue maxValue : Z)
| EnumGuard (allowedValues : list string)
| LengthGuard (minLength maxLength : nat).

Record t := mk {
  name : string;
  key : string;        (* key pattern *)
  enabled : bool;
  kind : Kind
}.

(** [Guard::appliesTo]. *)
Definition appliesTo (g : t) (targetKey : string) : bool :=
  if String.eqb (key g) "*" then true
  else if String.eqb (key g) targetKey then true
  else
    match string_back (key g) with
    | Some "*"%char =>
        let prefix := String.substring 0 (String.length (key g) - 1) (key g) in
        String.eqb (String.substring 0 (String.length prefix) targetKey) prefix
    | _ => false
    end.

Definition range_text (lo hi : string) : string :=
  "[" +:+ lo +:+ ", " +:+ hi +:+ "]".

(** The quoted, comma-separated listing written by [EnumGuard::evaluate]. *)
Fixpoint quoted_list (first : bool) (l : list string) : string :=
  match l with
  | [] => EmptyString
  | x :: r =>
      (if first then EmptyString else ", ") +:+ "'" +:+ x +:+ "'" +:+ quoted_list false r
  end.

(** [evaluate]: the verdict and the text stored in [reason]. *)
Definition evaluate (g : t) (proposedValue : string) : GuardResult * string :=
  match kind g with
  | RangeIntGuard minValue maxValue =>
      match stoi proposedValue with
      | Some v =>
          if (minValue <=? v) && (v <=? maxValue) then
            (ACCEPT, "Value within acceptable range "
                     +:+ range_text (to_string minValue) (to_string maxValue))
          else
            (COUNTER_OFFER, "Value " +:+ to_string v +:+ " outside acceptable range "
                     +:+ range_text (to_string minValue) (to_string maxValue))
      | None => (REJECT, "Value is not a valid integer")
      end
  | EnumGuard allowedValues =>
      if bool_decide (proposedValue ∈ allowedValues) then
        (ACCEPT, "Value is in allowed set")
      else
        (COUNTER_OFFER, "Value '" +:+ proposedValue +:+ "' not in allowed set: {"
                        +:+ quoted_list true allowedValues +:+ "}")
  | LengthGuard minLength maxLength =>
      let len := String.length proposedValue in
      if ((minLength <=? len) && (len <=? maxLength))%nat then
        (ACCEPT, "Length " +:+ size_to_string len +:+ " within acceptable range "
                 +:+ range_text (size_to_string minLength) (size_to_string maxLength))
      else
        (COUNTER_OFFER, "Length " +:+ size_to_string len +:+ " outside acceptable range "
                 +:+ range_text (size_to_string minLength) (size_to_string maxLength))
  end.

(** The second loop of [EnumGuard::generateAlternatives]: partial matches
    not yet listed. *)
Fixpoint enum_partial (lowerProposed : string) (allowed : list string)
    (alts : list Alternative) : list Alternative :=
  match allowed with
  | [] => alts
  | a :: rest =>
      let lowerAllowed := string_map tolower a in
      if string_contains lowerProposed lowerAllowed
         || string_contains lowerAllowed lowerProposed then
        if existsb (fun alt => String.eqb (alt_value alt) a) alts
        then enum_partial lowerProposed rest alts
        else enum_partial lowerProposed rest
               (alts ++ [mkAlternative a "Similar to proposed value"])
      else enum_partial lowerProposed rest alts
  end.

Definition enum_alternatives (allowedValues : list string) (proposedValue : string)
    : list Alternative :=
  let lowerProposed := string_map tolower proposedValue in
  let exact :=
    omap (fun a =>
            if String.eqb (string_map tolower a) lowerProposed
            then Some (mkAlternative a "Case-corrected version of proposed value")
            else None) allowedValues in
  let alts := enum_partial lowerProposed allowedValues exact in
  match alts with
  | [] => map (fun a => mkAlternative a "Allowed value") (take 3 allowedValues)
  | _ => alts
  end.

Definition range_alternatives (minValue maxValue : Z) (proposedValue : string)
    : list Alternative :=
  match stoi proposedValue with
  | Some v =>
      if v <? minValue then
        mkAlternative (to_string minValue)
          ("Minimum allowed value (proposed " +:+ to_string v +:+ " is too low)")
        :: (if minValue <? maxValue then
              [mkAlternative
                 (to_string (wrap_int (minValue + wrap_int (maxValue - minValue) ÷ 4)))
                 "Conservative value within range"]
            else [])
      else if maxValue <? v then
        mkAlternative (to_string maxValue)
          ("Maximum allowed value (proposed " +:+ to_string v +:+ " is too high)")
        :: (if minValue <? maxValue then
              [mkAlternative
                 (to_string (wrap_int (maxValue - wrap_int (maxValue - minValue) ÷ 4)))
                 "Conservative value within range"]
            else [])
      else []
  | None =>
      [ mkAlternative (to_string minValue) "Minimum allowed value";
        mkAlternative (to_string (wrap_int (minValue + maxValue) ÷ 2)) "Midpoint value";
        mkAlternative (to_string maxValue) "Maximum allowed value" ]
  end.

Definition length_alternatives (minLength maxLength : nat) (proposedValue : string)
    : list Alternative :=
  let len := String.length proposedValue in
  if (len <? minLength)%nat then
    [mkAlternative (proposedValue +:+ string_fill (minLength - len) "*")
       ("Padded to minimum length " +:+ size_to_string minLength)]
  else if (maxLength <? len)%nat then
    mkAlternative (String.substring 0 maxLength proposedValue)
      ("Truncated to maximum length " +:+ size_to_string maxLength)
    :: (if (5 <? maxLength)%nat then
          let shorterLen := (maxLength * 4 / 5)%nat in
          [mkAlternative (String.substring 0 shorterLen proposedValue)
             ("Truncated to " +:+ size_to_string shorterLen
              +:+ " characters (safer margin)")]
        else [])
  else [].

Definition generateAlternatives (g : t) (proposedValue : string) : list Alternative :=
  match kind g with
  | RangeIntGuard minValue maxValue => range_alternatives minValue maxValue proposedValue
  | EnumGuard allowedValues => enum_alternatives allowedValues proposedValue
  | LengthGuard minLength maxLength => length_alternatives minLength maxLength proposedValue
  end.

End Guard.

(** ** The engine state and its environment *)

(** How one operation on a file stream ends: it succeeds, it fails and sets
    the stream's error bits (streams do not throw by default), or an
    exception derived from [std::exception] escapes. *)
Inductive IoOutcome := IoDone | IoFailed | IoThrown.

(** One process together with the files it owns and its environment.
    The first group is [class KVStore], the second [class WAL], the third the
    contents of the WAL file and of the snapshot file (a file that does not
    exist reads like an empty one), the last the environment: [clock n] is
    the [n]-th reading of [system_clock::now()], [io n] the outcome of the
    [n]-th stream operation. *)
Record World := mkWorld {
  store : gmap string (list Version);
  wal : bool (* the shared_ptr<WAL> is not null *);
  walEnabled : bool;
  retentionPolicy : RetentionPolicy;
  guards : list Guard.t;
  decisionPolicy : DecisionPolicy;
  logFile_open : bool (* logFile.is_open() *);
  logFile_good : bool (* no error bit is set on logFile *);
  enabled : bool;
  wal_file : string;
  snapshot_file : string;
  clock : nat -> time_point;
  io : nat -> IoOutcome;
  ticks : nat (* readings of the clock so far *);
  io_ops : nat (* stream operations so far *)
}.

(** Field updates. *)
Definition with_store (x : gmap string (list Version)) (w : World) : World :=
  {| store := x; wal := wal w; walEnabled := walEnabled w;
     retentionPolicy := retentionPolicy w; guards := guards w;
     decisionPolicy := decisionPolicy w;
     logFile_open := logFile_open w; logFile_good := logFile_good w; enabled := enabled w;
     wal_file := wal_file w; snapshot_file := snapshot_file w;
     clock := clock w; io := io w; ticks := ticks w; io_ops := io_ops w |}.

Definition with_wal (x : bool) (w : World) : World :=
  {| store := store w; wal := x; walEnabled := walEnabled w;
     retentionPolicy := retentionPolicy w; guards := guards w;
     decisionPolicy := decisionPolicy w;
     logFile_open := logFile_open w; logFile_good := logFile_good w; enabled := enabled w;
     wal_file := wal_file w; snapshot_file := snapshot_file w;
     clock := clock w; io := io w; ticks := ticks w; io_ops := io_ops w |}.

Definition with_walEnabled (x : bool) (w : World) : World :=
  {| store := store w; wal := wal w; walEnabled := x;
     retentionPolicy := retentionPolicy w; guards := guards w;
     decisionPolicy := decisionPolicy w;
     logFile_open := logFile_open w; logFile_good := logFile_good w; enabled := enabled w;
     wal_file := wal_file w; snapshot_file := snapshot_file w;
     clock := clock w; io := io w; ticks := ticks w; io_ops := io_ops w |}.

Definition with_retentionPolicy (x : RetentionPolicy) (w : World) : World :=
  {| store := store w; wal := wal w; walEnabled := walEnabled w;
     retentionPolicy := x; guards := guards w;
     decisionPolicy := decisionPolicy w;
     logFile_open := logFile_open w; logFile_good := logFile_good w; enabled := enabled w;
     wal_file := wal_file w; snapshot_file := snapshot_file w;
     clock := clock w; io := io w; ticks := ticks w; io_ops := io_ops w |}.

Definition with_guards (x : list Guard.t) (w : World) : World :=
  {| store := store w; wal := wal w; walEnabled := walEnabled w;
     retentionPolicy := retentionPolicy w; guards := x;
     decisionPolicy := decisionPolicy w;
     logFile_open := logFile_open w; logFile_good := logFile_good w; enabled := enabled w;
     wal_file := wal_file w; snapshot_file := snapshot_file w;
     clock := clock w; io := io w; ticks := ticks w; io_ops := io_ops w |}.

Definition with_decisionPolicy (x : DecisionPolicy) (w : World) : World :=
  {| store := store w; wal := wal w; walEnabled := walEnabled w;
     retentionPolicy := retentionPolicy w; guards := guards w;
     decisionPolicy := x;
     logFile_open := logFile_open w; logFile_good := logFile_good w; enabled := enabled w;
     wal_file := wal_file w; snapshot_file := snapshot_file w;
     clock := clock w; io := io w; ticks := ticks w; io_ops := io_ops w |}.

Definition with_logFile_open (x : bool) (w : World) : World :=
  {| store := store w; wal := wal w; walEnabled := walEnabled w;
     retentionPolicy := retentionPolicy w; guards := guards w;
     decisionPolicy := decisionPolicy w;
     logFile_open := x; logFile_good := logFile_good w; enabled := enabled w;
     wal_file := wal_file w; snapshot_file := snapshot_file w;
     clock := clock w; io := io w; ticks := ticks w; io_ops := io_ops w |}.

Definition with_logFile_good (x : bool) (w : World) : World :=
  {| store := store w; wal := wal w; walEnabled := walEnabled w;
     retentionPolicy := retentionPolicy w; guards := guards w;
     decisionPolicy := decisionPolicy w;
     logFile_open := logFile_open w; logFile_good := x; enabled := enabled w;
     wal_file := wal_file w; snapshot_file := snapshot_file w;
     clock := clock w; io := io w; ticks := ticks w; io_ops := io_ops w |}.

Definition with_enabled (x : bool) (w : World) : World :=
  {| store := store w; wal := wal w; walEnabled := walEnabled w;
     retentionPolicy := retentionPolicy w; guards := guards w;
     decisionPolicy := decisionPolicy w;
     logFile_open := logFile_open w; logFile_good := logFile_good w; enabled := x;
     wal_file := wal_file w; snapshot_file := snapshot_file w;
     clock := clock w; io := io w; ticks := ticks w; io_ops := io_ops w |}.

Definition with_wal_file (x : string) (w : World) : World :=
  {| store := store w; wal := wal w; walEnabled := walEnabled w;
     retentionPolicy := retentionPolicy w; guards := guards w;
     decisionPolicy := decisionPolicy w;
     logFile_open := logFile_open w; logFile_good := logFile_good w; enabled := enabled w;
     wal_file := x; snapshot_file := snapshot_file w;
     clock := clock w; io := io w; ticks := ticks w; io_ops := io_ops w |}.

Definition with_snapshot_file (x : string) (w : World) : World :=
  {| store := store w; wal := wal w; walEnabled := walEnabled w;
     retentionPolicy := retentionPolicy w; guards := guards w;
     decisionPolicy := decisionPolicy w;
     logFile_open := logFile_open w; logFile_good := logFile_good w; enabled := enabled w;
     wal_file := wal_file w; snapshot_file := x;
     clock := clock w; io := io w; ticks := ticks w; io_ops := io_ops w |}.

Definition with_io (x : nat -> IoOutcome) (w : World) : World :=
  {| store := store w; wal := wal w; walEnabled := walEnabled w;
     retentionPolicy := retentionPolicy w; guards := guards w;
     decisionPolicy := decisionPolicy w;
     logFile_open := logFile_open w; logFile_good := logFile_good w; enabled := enabled w;
     wal_file := wal_file w; snapshot_file := snapshot_file w;
     clock := clock w; io := x; ticks := ticks w; io_ops := io_ops w |}.

Definition with_ticks (x : nat) (w : World) : World :=
  {| store := store w; wal := wal w; walEnabled := walEnabled w;
     retentionPolicy := retentionPolicy w; guards := guards w;
     decisionPolicy := decisionPolicy w;
     logFile_open := logFile_open w; logFile_good := logFile_good w; enabled := enabled w;
     wal_file := wal_file w; snapshot_file := snapshot_file w;
     clock := clock w; io := io w; ticks := x; io_ops := io_ops w |}.

Definition with_io_ops (x : nat) (w : World) : World :=
  {| store := store w; wal := wal w; walEnabled := walEnabled w;
     retentionPolicy := retentionPolicy w; guards := guards w;
     decisionPolicy := decisionPolicy w;
     logFile_open := logFile_open w; logFile_good := logFile_good w; enabled := enabled w;
     wal_file := wal_file w; snapshot_file := snapshot_file w;
     clock := clock w; io := io w; ticks := ticks w; io_ops := x |}.

(** The state monad of the non-const member functions. *)
Definition M (A : Type) : Type := World -> A * World.

#[global] Instance M_ret : MRet M := fun A x w => (x, w).
#[global] Instance M_bind : MBind M :=
  fun A B f m w => f (fst (m w)) (snd (m w)).

Definition gets {A} (f : World -> A) : M A := fun w => (f w, w).
Definition modify (f : World -> World) : M unit := fun w => (tt, f w).

Definition when (b : bool) (m : M unit) : M unit := if b then m else mret tt.

Fixpoint for_each {A} (l : list A) (body : A -> M unit) : M unit :=
  match l with
  | [] => mret tt
  | x :: r => body x ;; for_each r body
  end.

(** [std::chrono::system_clock::now()]. *)
Definition now : M time_point :=
  fun w => (clock w (ticks w), with_ticks (S (ticks w)) w).

(** The outcome of the next stream operation. *)
Definition next_io : M IoOutcome :=
  fun w => (io w (io_ops w), with_io_ops (S (io_ops w)) w).

Definition nl : string := String (ascii_of_nat 10) EmptyString.

(** Ticks of [system_clock] per millisecond and per second. *)
Definition ticks_per_ms : Z := 1000000.
Definition ticks_per_s : Z := 1000000000.

(** Two's complement wrap-around of the 64-bit tick count. *)
Definition wrap_ll (z : Z) : Z := (z + 2 ^ 63) mod 2 ^ 64 - 2 ^ 63.

(** [duration_cast<milliseconds>(tp.time_since_epoch()).count()]: integer
    division truncating toward zero. *)
Definition to_epoch_ms (tp : time_point) : Z := tp ÷ ticks_per_ms.

(** [system_clock::time_point(std::chrono::milliseconds(ms))]. *)
Definition from_epoch_ms (ms : Z) : time_point := wrap_ll (ms * ticks_per_ms).

(** ** The write-ahead log (wal.h, wal.cpp) *)

(** [std::getline] over a whole file: the text between line feeds. *)
Fixpoint split_lines (s : string) : list string :=
  match s with
  | EmptyString => [EmptyString]
  | String c r =>
      if Ascii.eqb c (ascii_of_nat 10) then EmptyString :: split_lines r
      else
        match split_lines r with
        | h :: t => String c h :: t
        | [] => [String c EmptyString]
        end
  end.

Definition nonempty (s : string) : bool :=
  match s with EmptyString => false | _ => true end.

(** The loop shared by [readLog] and [readSnapshot]: every non-empty line. *)
Definition read_commands (text : string) : list string :=
  filter (fun l => nonempty l = true) (split_lines text).

Module WAL.

(** [WAL::isEnabled]. *)
Definition isEnabled (w : World) : bool := enabled w.

(** [logFile << text; logFile.flush();] as one stream operation.  The
    result is [false] when an exception escapes to the enclosing handler.
    A stream whose error bits are set ignores the insertion. *)
Definition put (text : string) : M bool :=
  good ← gets logFile_good;
  if good : bool then
    o ← next_io;
    match o with
    | IoDone => modify (fun w => with_wal_file (wal_file w +:+ text) w);; mret true
    | IoFailed => modify (with_logFile_good false);; mret true
    | IoThrown => mret false
    end
  else mret true.

(** [WAL::initialize] for a path with a directory part, as [main] passes. *)
Definition initialize : M Status :=
  dir ← next_io;                       (* createDirectory(dirPath) *)
  match dir with
  | IoDone =>
      o ← next_io;                     (* logFile.open(walPath, std::ios::app) *)
      match o with
      | IoDone =>
          modify (fun w => with_enabled true
                             (with_logFile_good true (with_logFile_open true w)));;
          mret OK
      | _ => modify (with_enabled false);; mret ERROR
      end
  | _ => modify (with_enabled false);; mret ERROR
  end.

Definition log_record (text : string) : M Status :=
  en ← gets enabled;
  op ← gets logFile_open;
  if negb en || negb op then mret ERROR
  else
    ok ← put text;
    mret (if ok : bool then OK else ERROR).

(** [WAL::logSet]: [SET key value epochMs]. *)
Definition logSet (key value : string) (timestamp : time_point) : M Status :=
  log_record ("SET " +:+ key +:+ " " +:+ value +:+ " "
              +:+ to_string (to_epoch_ms timestamp) +:+ nl).

(** [WAL::logDel]. *)
Definition logDel (key : string) : M Status :=
  log_record ("DEL " +:+ key +:+ nl).

(** [WAL::logPolicy]. *)
Definition logPolicy (policyName : string) : M Status :=
  log_record ("POLICY SET " +:+ policyName +:+ nl).

(** [WAL::readLog]: the non-empty lines of the WAL file, none when the file
    cannot be opened or reading throws. *)
Definition readLog : M (list string) :=
  o ← next_io;
  match o with
  | IoDone => gets (fun w => read_commands (wal_file w))
  | _ => mret []
  end.

(** [WAL::readSnapshot]. *)
Definition readSnapshot : M (list string) :=
  o ← next_io;
  match o with
  | IoDone => gets (fun w => read_commands (snapshot_file w))
  | _ => mret []
  end.

(** [WAL::clearLog]: close, truncate, reopen for appending. *)
Definition clearLog : M Status :=
  modify (with_logFile_open false);;
  o ← next_io;                         (* std::ofstream clearFile(walPath, trunc) *)
  match o with
  | IoDone =>
      modify (with_wal_file EmptyString);;
      o' ← next_io;                    (* logFile.open(walPath, std::ios::app) *)
      match o' with
      | IoDone =>
          modify (fun w => with_logFile_good true (with_logFile_open true w));;
          mret OK
      | _ => modify (with_enabled false);; mret ERROR
      end
  | _ => modify (with_enabled false);; mret ERROR
  end.

Definition snapshot_text (data : list (string * string)) (currentPolicy : string)
    : string :=
  (if nonempty currentPolicy then "POLICY SET " +:+ currentPolicy +:+ nl else EmptyString)
  +:+ String.concat EmptyString
        (map (fun kv => "SET " +:+ fst kv +:+ " " +:+ snd kv +:+ nl) data).

(** [WAL::createSnapshot]; the write of the records is one stream
    operation whose error bits the code does not inspect.  The records
    follow the iteration order of the map, which C++ leaves unspecified;
    here it is the order of [map_to_list]. *)
Definition createSnapshot (data : gmap string string) (currentPolicy : string)
    : M Status :=
  o ← next_io;                         (* std::ofstream snapFile(snapshotPath, trunc) *)
  match o with
  | IoDone =>
      modify (with_snapshot_file EmptyString);;
      o' ← next_io;
      match o' with
      | IoThrown => mret ERROR
      | _ =>
          when (match o' with IoDone => true | _ => false end)
            (modify (with_snapshot_file
                       (snapshot_text (map_to_list data) currentPolicy)));;
          clearStatus ← clearLog;
          mret (match clearStatus with OK => OK | _ => ERROR end)
      end
  | _ => mret ERROR
  end.

End WAL.

(** ** The temporal store and the evaluation facade (kvstore.h, kvstore.cpp) *)

Fixpoint drop_while {A} (p : A -> bool) (l : list A) : list A :=
  match l with
  | x :: r => if p x then drop_while p r else l
  | [] => []
  end.

Definition policy_name (p : DecisionPolicy) : string :=
  match p with
  | DEV_FRIENDLY => "DEV_FRIENDLY"
  | SAFE_DEFAULT => "SAFE_DEFAULT"
  | STRICT => "STRICT"
  end.

Module KVStore.

(** The test [walEnabled && wal && wal->isEnabled()]. *)
Definition wal_active (w : World) : bool :=
  walEnabled w && wal w && WAL.isEnabled w.

Definition put_versions (key : string) (versions : list Version) : M unit :=
  modify (fun w => with_store (<[key := versions]> (store w)) w).

(** [KVStore::applyRetention]. *)
Definition applyRetention (key : string) : M unit :=
  st ← gets store;
  pol ← gets retentionPolicy;
  match st !! key with
  | None | Some [] => mret tt
  | Some versions =>
      match mode pol with
      | FULL => mret tt
      | LAST_N =>
          when ((0 <? count pol) && (count pol <? Z.of_nat (length versions)))
            (put_versions key
               (drop (length versions - Z.to_nat (count pol)) versions))
      | LAST_T =>
          when (0 <? seconds pol)
            (t ← now;
             let cutoff := wrap_ll (t - seconds pol * ticks_per_s) in
             put_versions key
               (drop_while (fun v => timestamp v <? cutoff) versions))
      end
  end.

(** [store[key].emplace_back(timestamp, value)]. *)
Definition emplace_back (key : string) (v : Version) : M unit :=
  modify (fun w =>
            with_store (<[key := default [] (store w !! key) ++ [v]]> (store w)) w).

(** [KVStore::set]. *)
Definition set (key value : string) : M Status :=
  timestamp ← now;
  active ← gets wal_active;
  (if active : bool then WAL.logSet key value timestamp else mret OK);;
  emplace_back key (mkVersion timestamp value);;
  applyRetention key;;
  mret OK.

(** [KVStore::setAtTime]. *)
Definition setAtTime (key value : string) (timestamp : time_point) : M Status :=
  emplace_back key (mkVersion timestamp value);;
  applyRetention key;;
  mret OK.

(** [KVStore::get]. *)
Definition get (key : string) : M (option string) :=
  st ← gets store;
  mret (match st !! key with
        | Some versions => value <$> last versions
        | None => None
        end).

(** [KVStore::del]. *)
Definition del (key : string) : M Status :=
  st ← gets store;
  match st !! key with
  | Some _ =>
      active ← gets wal_active;
      (if active : bool then WAL.logDel key else mret OK);;
      modify (fun w => with_store (delete key (store w)) w);;
      mret OK
  | None => mret NOT_FOUND
  end.

(** [KVStore::getAtTime]. *)
Definition getAtTime (key : string) (timestamp : time_point) : M (option string) :=
  st ← gets store;
  mret (match st !! key with
        | None | Some [] => None
        | Some versions => getAt_loop versions timestamp None
        end).

(** [KVStore::getHistory]. *)
Definition getHistory (key : string) : M (list Version) :=
  st ← gets store;
  mret (default [] (st !! key)).

(** [KVStore::explainGetAtTime]. *)
Definition explainGetAtTime (key : string) (timestamp : time_point) : M ExplainResult :=
  st ← gets store;
  mret
    (match st !! key with
     | None | Some [] =>
         mkExplainResult false key timestamp None "Key not found in database" [] 0
     | Some versions =>
         let total := length versions in
         let '(selectedIndex, skipped) :=
           explain_loop versions versions 0 timestamp None [] in
         match selectedIndex with
         | Some i =>
             let versionsAfter := (total - i - 1)%nat in
             mkExplainResult true key timestamp (versions !! i)
               ("Selected version at index " +:+ size_to_string i
                +:+ " (0-based) out of " +:+ size_to_string total
                +:+ " total versions. "
                +:+ "This is the most recent version at or before the query timestamp."
                +:+ (match skipped with
                     | [] => EmptyString
                     | _ => " Skipped " +:+ size_to_string (length skipped)
                            +:+ " older version(s) that were also valid but superseded."
                     end)
                +:+ (if (0 <? versionsAfter)%nat then
                       " Excluded " +:+ size_to_string versionsAfter
                       +:+ " version(s) that occurred after the query timestamp."
                     else EmptyString))
               skipped total
         | None =>
             mkExplainResult false key timestamp None
               ("No version found at or before the query timestamp. All "
                +:+ size_to_string total
                +:+ " version(s) occurred after the query time.")
               skipped total
         end
     end).

(** [KVStore::exists], [KVStore::size], [KVStore::getAllData]. *)
Definition exists_ (key : string) (w : World) : bool :=
  bool_decide (is_Some (store w !! key)).

Definition size (w : World) : nat := base.size (store w).

Definition getAllData (w : World) : gmap string string :=
  omap (fun versions => value <$> last versions) (store w).

(** [KVStore::setWalEnabled]. *)
Definition setWalEnabled (b : bool) : M unit := modify (with_walEnabled b).

(** [KVStore::setRetentionPolicy]: the new policy is applied to every key
    that has versions. *)
Definition setRetentionPolicy (policy : RetentionPolicy) : M unit :=
  modify (with_retentionPolicy policy);;
  st ← gets store;
  for_each (map_to_list st)
    (fun kv => when (negb (bool_decide (snd kv = []))) (applyRetention (fst kv))).

Definition getRetentionPolicy (w : World) : RetentionPolicy := retentionPolicy w.

(** [KVStore::getGuardsForKey]. *)
Definition getGuardsForKey (key : string) (w : World) : list Guard.t :=
  filter (fun g => Guard.enabled g && Guard.appliesTo g key = true) (guards w).

(** Alternatives of one guard merged into the collected ones: a value
    already collected is not added again. *)
Fixpoint merge_alternatives (collected guardAlts : list Alternative)
    : list Alternative :=
  match guardAlts with
  | [] => collected
  | alt :: rest =>
      if existsb (fun existing => String.eqb (alt_value existing) (alt_value alt))
           collected
      then merge_alternatives collected rest
      else merge_alternatives (collected ++ [alt]) rest
  end.

Definition with_result r (e : WriteEvaluation) : WriteEvaluation :=
  mkWriteEvaluation r (ev_key e) (proposedValue e) (reason e) (alternatives e)
    (triggeredGuards e) (appliedPolicy e) (policyReasoning e).
Definition with_reason r (e : WriteEvaluation) : WriteEvaluation :=
  mkWriteEvaluation (result e) (ev_key e) (proposedValue e) r (alternatives e)
    (triggeredGuards e) (appliedPolicy e) (policyReasoning e).
Definition with_alternatives a (e : WriteEvaluation) : WriteEvaluation :=
  mkWriteEvaluation (result e) (ev_key e) (proposedValue e) (reason e) a
    (triggeredGuards e) (appliedPolicy e) (policyReasoning e).
Definition with_triggeredGuards t (e : WriteEvaluation) : WriteEvaluation :=
  mkWriteEvaluation (result e) (ev_key e) (proposedValue e) (reason e)
    (alternatives e) t (appliedPolicy e) (policyReasoning e).
Definition with_appliedPolicy p (e : WriteEvaluation) : WriteEvaluation :=
  mkWriteEvaluation (result e) (ev_key e) (proposedValue e) (reason e)
    (alternatives e) (triggeredGuards e) p (policyReasoning e).
Definition with_policyReasoning r (e : WriteEvaluation) : WriteEvaluation :=
  mkWriteEvaluation (result e) (ev_key e) (proposedValue e) (reason e)
    (alternatives e) (triggeredGuards e) (appliedPolicy e) r.

(** The loop of [simulateWrite] over the applicable guards, with its exit. *)
Fixpoint simulate_loop (applicable : list Guard.t) (value : string)
    (evaluation : WriteEvaluation) (allAccepted : bool)
    (collectedAlternatives : list Alternative) : WriteEvaluation :=
  match applicable with
  | [] =>
      if allAccepted then with_reason "All guards passed" evaluation
      else with_alternatives collectedAlternatives
             (with_result COUNTER_OFFER evaluation)
  | guard :: rest =>
      let '(guardResult, guardReason) := Guard.evaluate guard value in
      match guardResult with
      | REJECT =>
          with_reason guardReason
            (with_triggeredGuards
               (triggeredGuards evaluation ++ [Guard.name guard])
               (with_result REJECT evaluation))
      | COUNTER_OFFER =>
          simulate_loop rest value
            (with_reason
               (if nonempty (reason evaluation)
                then reason evaluation +:+ "; " +:+ guardReason
                else guardReason)
               (with_triggeredGuards
                  (triggeredGuards evaluation ++ [Guard.name guard]) evaluation))
            false
            (merge_alternatives collectedAlternatives
               (Guard.generateAlternatives guard value))
      | ACCEPT => simulate_loop rest value evaluation allAccepted collectedAlternatives
      end
  end.

(** [KVStore::simulateWrite]. *)
Definition simulateWrite (key value : string) : M WriteEvaluation :=
  let evaluation := mkWriteEvaluation ACCEPT key value EmptyString [] [] SAFE_DEFAULT EmptyString in
  applicableGuards ← gets (getGuardsForKey key);
  match applicableGuards with
  | [] => mret (with_reason "No guards defined for this key" evaluation)
  | _ => mret (simulate_loop applicableGuards value evaluation true [])
  end.

(** [KVStore::applyDecisionPolicy]; the evaluation passed by reference is
    returned. *)
Definition applyDecisionPolicy (evaluation : WriteEvaluation) : M WriteEvaluation :=
  policy ← gets decisionPolicy;
  let evaluation := with_appliedPolicy policy evaluation in
  mret
    (match result evaluation with
     | ACCEPT =>
         with_policyReasoning "No policy applied - all guards passed" evaluation
     | r =>
         match policy with
         | STRICT =>
             match r with
             | COUNTER_OFFER =>
                 with_alternatives []
                   (with_policyReasoning
                      "Rejected under STRICT policy due to guard violation"
                      (with_result REJECT evaluation))
             | _ =>
                 with_policyReasoning
                   "Rejected under STRICT policy due to guard violation" evaluation
             end
         | DEV_FRIENDLY =>
             match r with
             | REJECT =>
                 with_policyReasoning
                   "Rejected under DEV_FRIENDLY policy - value cannot be salvaged"
                   evaluation
             | _ =>
                 with_policyReasoning
                   "Counter-offer under DEV_FRIENDLY policy - showing alternatives"
                   evaluation
             end
         | SAFE_DEFAULT =>
             match r with
             | COUNTER_OFFER =>
                 match alternatives evaluation with
                 | [] =>
                     with_policyReasoning
                       "Rejected under SAFE_DEFAULT policy - no safe alternatives available"
                       (with_result REJECT evaluation)
                 | _ =>
                     with_policyReasoning
                       "Counter-offer under SAFE_DEFAULT policy - safe alternatives available"
                       evaluation
                 end
             | _ =>
                 with_policyReasoning
                   "Rejected under SAFE_DEFAULT policy - critical violation" evaluation
             end
         end
     end).

(** [KVStore::proposeSet]. *)
Definition proposeSet (key value : string) : M WriteEvaluation :=
  evaluation ← simulateWrite key value;
  applyDecisionPolicy evaluation.

(** [KVStore::commitSet]. *)
Definition commitSet (key value : string) : M Status := set key value.

(** [KVStore::addGuard], [KVStore::removeGuard], [KVStore::getGuards]. *)
Definition addGuard (guard : Guard.t) : M unit :=
  modify (fun w => with_guards (guards w ++ [guard]) w).

Fixpoint remove_first (name : string) (gs : list Guard.t) : option (list Guard.t) :=
  match gs with
  | [] => None
  | g :: rest =>
      if String.eqb (Guard.name g) name then Some rest
      else cons g <$> remove_first name rest
  end.

Definition removeGuard (name : string) : M bool :=
  gs ← gets guards;
  match remove_first name gs with
  | Some gs' => modify (with_guards gs');; mret true
  | None => mret false
  end.

Definition getGuards (w : World) : list Guard.t := guards w.

(** [KVStore::setDecisionPolicy]. *)
Definition setDecisionPolicy (policy : DecisionPolicy) : M unit :=
  modify (with_decisionPolicy policy);;
  active ← gets wal_active;
  when active (WAL.logPolicy (policy_name policy);; mret tt).

Definition getDecisionPolicy (w : World) : DecisionPolicy := decisionPolicy w.

End KVStore.

(** ** Command lines (command.h, command_parser.cpp) *)

(** [std::toupper] in the "C" locale. *)
Definition toupper (c : ascii) : ascii :=
  if (97 <=? code c) && (code c <=? 122)
  then ascii_of_N (N_of_ascii c - 32) else c.

(** The characters of the next token: everything before the next white
    space.  Returns the token and the unread rest. *)
Fixpoint read_token (s : string) : string * string :=
  match s with
  | String c r =>
      if isspace c then (EmptyString, s)
      else let '(t, rest) := read_token r in (String c t, rest)
  | EmptyString => (EmptyString, EmptyString)
  end.

Module CommandParser.

Inductive CommandType :=
| SET | GET | GETAT | DEL | HISTORY | SNAPSHOT | CONFIG | EXPLAIN
| PROPOSE | GUARD | POLICY | EXIT | INVALID.

Record Command := mkCommand { type : CommandType; args : list string }.

(** [CommandParser::tokenize]: the loop [while (iss >> token)]. *)
Fixpoint tokenize (input : string) : list string :=
  match input with
  | EmptyString => []
  | String c r =>
      if isspace c then tokenize r
      else
        match r with
        | EmptyString => [String c EmptyString]
        | String c' _ =>
            if isspace c' then String c EmptyString :: tokenize r
            else
              match tokenize r with
              | h :: t => String c h :: t
              | [] => [String c EmptyString]
              end
        end
  end.

(** [CommandParser::getCommandType]. *)
Definition getCommandType (cmd : string) : CommandType :=
  let upper := string_map toupper cmd in
  if String.eqb upper "SET" then SET
  else if String.eqb upper "GET" then GET
  else if String.eqb upper "DEL" then DEL
  else if String.eqb upper "HISTORY" then HISTORY
  else if String.eqb upper "SNAPSHOT" then SNAPSHOT
  else if String.eqb upper "CONFIG" then CONFIG
  else if String.eqb upper "EXPLAIN" then EXPLAIN
  else if String.eqb upper "PROPOSE" then PROPOSE
  else if String.eqb upper "GUARD" then GUARD
  else if String.eqb upper "POLICY" then POLICY
  else if String.eqb upper "EXIT" || String.eqb upper "QUIT" then EXIT
  else INVALID.

Definition is_GET (t : CommandType) : bool :=
  match t with GET => true | _ => false end.
Definition is_EXPLAIN (t : CommandType) : bool :=
  match t with EXPLAIN => true | _ => false end.

(** The timestamp argument of [GET key AT ...]: the remaining tokens joined
    by single spaces. *)
Definition join_tokens (l : list string) : list string :=
  match l with
  | [] => []
  | _ => [String.concat " " l]
  end.

(** [CommandParser::parse]. *)
Definition parse (input : string) : Command :=
  let tokens := tokenize input in
  match tokens with
  | [] => mkCommand INVALID []
  | t0 :: rest =>
      match tokens with
      | _ :: t1 :: t2 :: t3 :: more =>
          if is_GET (getCommandType t0) && String.eqb (string_map toupper t2) "AT"
          then mkCommand GETAT (t1 :: join_tokens (t3 :: more))
          else
            match more with
            | t4 :: more' =>
                if is_EXPLAIN (getCommandType t0)
                   && String.eqb (string_map toupper t1) "GET"
                   && String.eqb (string_map toupper t3) "AT"
                then mkCommand EXPLAIN (t2 :: join_tokens (t4 :: more'))
                else mkCommand (getCommandType t0) rest
            | [] => mkCommand (getCommandType t0) rest
            end
      | _ => mkCommand (getCommandType t0) rest
      end
  end.

End CommandParser.

(** ** Formatted extraction from a [std::istringstream] *)

Record istringstream := mkStream { buf : string; failed : bool }.

(** [iss >> str] into a fresh string: skips white space, reads one token;
    sets the fail bit when nothing is left, after which every extraction
    leaves its target empty. *)
Definition extract (s : istringstream) : string * istringstream :=
  if failed s then (EmptyString, s)
  else
    match skip_ws (buf s) with
    | EmptyString => (EmptyString, mkStream EmptyString true)
    | b => let '(t, rest) := read_token b in (t, mkStream rest false)
    end.

(** [if (iss >> timestampMs)] for a [long long]: the number read when the
    extraction succeeds. *)
Definition extract_ll (s : istringstream) : option Z :=
  if failed s then None
  else
    match read_int (skip_ws (buf s)) with
    | Some (v, _) => if (LLONG_MIN <=? v) && (v <=? LLONG_MAX) then Some v else None
    | None => None
    end.

(** ** Startup and recovery (main.cpp) *)

Definition parse_policy (policyName : string) : option DecisionPolicy :=
  if String.eqb policyName "DEV_FRIENDLY" then Some DEV_FRIENDLY
  else if String.eqb policyName "SAFE_DEFAULT" then Some SAFE_DEFAULT
  else if String.eqb policyName "STRICT" then Some STRICT
  else None.

Module Main.

Import CommandParser.

(** First pass over the snapshot: the policy. *)
Definition snapshot_policy (cmdLine : string) : M unit :=
  let cmd := parse cmdLine in
  match type cmd, args cmd with
  | POLICY, subCmd :: policyName :: _ =>
      if String.eqb subCmd "SET" then
        match parse_policy policyName with
        | Some policy => KVStore.setDecisionPolicy policy
        | None => mret tt
        end
      else mret tt
  | _, _ => mret tt
  end.

(** Second pass over the snapshot: the data, stamped with [snapshotTime]. *)
Definition snapshot_data (snapshotTime : time_point) (cmdLine : string) : M unit :=
  let cmd := parse cmdLine in
  match type cmd, args cmd with
  | SET, key :: value :: _ => KVStore.setAtTime key value snapshotTime;; mret tt
  | _, _ => mret tt
  end.

(** Phase 1 of the WAL replay: the [POLICY SET] records. *)
Definition wal_policy (cmdLine : string) : M unit :=
  let '(cmdType, iss) := extract (mkStream cmdLine false) in
  if String.eqb cmdType "POLICY" then
    let '(subCmd, iss) := extract iss in
    let '(policyName, iss) := extract iss in
    if String.eqb subCmd "SET" then
      match parse_policy policyName with
      | Some policy =>
          KVStore.setWalEnabled false;;
          KVStore.setDecisionPolicy policy
      | None => mret tt
      end
    else mret tt
  else mret tt.

(** Phase 2 of the WAL replay: the data records. *)
Definition wal_data (cmdLine : string) : M unit :=
  let '(cmdType, iss) := extract (mkStream cmdLine false) in
  if String.eqb cmdType "SET" then
    let '(key, iss) := extract iss in
    let '(value, iss) := extract iss in
    match extract_ll iss with
    | Some timestampMs =>
        KVStore.setAtTime key value (from_epoch_ms timestampMs);; mret tt
    | None =>
        t ← now;
        KVStore.setAtTime key value t;; mret tt
    end
  else if String.eqb cmdType "DEL" then
    let '(key, iss) := extract iss in
    when (nonempty key) (KVStore.del key;; mret tt)
  else mret tt.

Definition is_nil {A} (l : list A) : bool :=
  match l with [] => true | _ => false end.

(** The body of [main] up to the start of the command loop. *)
Definition startup : M unit :=
  walStatus ← WAL.initialize;
  match walStatus with
  | OK =>
      snapshotCommands ← WAL.readSnapshot;
      when (negb (is_nil snapshotCommands))
        (KVStore.setWalEnabled false;;
         snapshotTime ← now;
         for_each snapshotCommands snapshot_policy;;
         for_each snapshotCommands (snapshot_data snapshotTime);;
         KVStore.setWalEnabled true);;
      commands ← WAL.readLog;
      when (negb (is_nil commands))
        (KVStore.setWalEnabled false;;
         for_each commands wal_policy;;
         for_each commands wal_data;;
         KVStore.setWalEnabled true)
  | _ => mret tt
  end.

(** The objects [main] constructs: [WAL("data/wal.log")] and
    [KVStore(wal)].  The files and the environment are those of [w]. *)
Definition fresh_process (w : World) : World :=
  {| store := ∅; wal := true; walEnabled := true;
     retentionPolicy := RetentionPolicy_default; guards := [];
     decisionPolicy := SAFE_DEFAULT;
     logFile_open := false; logFile_good := true; enabled := false;
     wal_file := wal_file w; snapshot_file := snapshot_file w;
     clock := clock w; io := io w; ticks := ticks w; io_ops := io_ops w |}.

(** A process started on the files of [w], up to the command loop. *)
Definition boot (w : World) : World := snd (startup (fresh_process w)).

(** [handleSnapshot] of the command loop. *)
Definition handleSnapshot : M unit :=
  has ← gets wal;
  en ← gets WAL.isEnabled;
  if negb has || negb en then mret tt
  else
    policy ← gets KVStore.getDecisionPolicy;
    data ← gets KVStore.getAllData;
    WAL.createSnapshot data (policy_name policy);; mret tt.

End Main.

(** ** The command loop (main.cpp): handlers of [RedisLikeCLI]

    A handler returns the text it writes to [std::cout].  The handlers that
    read or print timestamps in local time ([handleGetAt], [handleHistory],
    [handleExplain]) depend on the time zone of the machine and are not
    embedded; [handleSnapshot] is [Main.handleSnapshot] above. *)

(** The quotation mark. *)
Definition dquote : string := String (ascii_of_nat 34) EmptyString.

(** [std::stoi(str, &pos)]: the number and the count of characters
    processed, leading white space included. *)
Definition stoi_pos (s : string) : option (Z * nat) :=
  match read_int (skip_ws s) with
  | Some (v, rest) =>
      if (INT_MIN <=? v) && (v <=? INT_MAX)
      then Some (v, (String.length s - String.length rest)%nat)
      else None
  | None => None
  end.

Definition ULONG_MAX : Z := 2 ^ 64 - 1.

(** [std::stoul] into a [size_t]: a minus sign negates in the unsigned
    type; [None] stands for the exception thrown without digits or for a
    magnitude above [ULONG_MAX]. *)
Definition stoul (s : string) : option nat :=
  match read_int (skip_ws s) with
  | Some (v, _) =>
      if Z.abs v <=? ULONG_MAX then Some (Z.to_nat (v mod 2 ^ 64)) else None
  | None => None
  end.

(** The loop [while (std::getline(ss, value, ','))]: the pieces between
    commas; nothing is read after the last comma or from an empty string. *)
Fixpoint split_commas (s : string) : list string :=
  match s with
  | EmptyString => []
  | String c r =>
      if Ascii.eqb c ","%char then EmptyString :: split_commas r
      else
        match split_commas r with
        | h :: t => String c h :: t
        | [] => [String c EmptyString]
        end
  end.

(** [describe] of the three guards (guard.cpp). *)
Definition describe (g : Guard.t) : string :=
  match Guard.kind g with
  | Guard.RangeIntGuard minValue maxValue =>
      "Integer range: [" +:+ to_string minValue +:+ ", " +:+ to_string maxValue +:+ "]"
  | Guard.EnumGuard allowedValues =>
      "Allowed values: {" +:+ Guard.quoted_list true allowedValues +:+ "}"
  | Guard.LengthGuard minLength maxLength =>
      "String length: [" +:+ size_to_string minLength +:+ ", "
      +:+ size_to_string maxLength +:+ "] characters"
  end.

Module CLI.

Import CommandParser.

(** [handleSet]. *)
Definition handleSet (cmd : Command) : M string :=
  match args cmd with
  | key :: value :: _ =>
      status ← KVStore.set key value;
      mret (match status with
            | OK => "OK" +:+ nl
            | _ => "(error) ERR failed to set key" +:+ nl
            end)
  | _ => mret ("(error) ERR wrong number of arguments for 'SET' command" +:+ nl)
  end.

(** [handleGet]. *)
Definition handleGet (cmd : Command) : M string :=
  match args cmd with
  | key :: _ =>
      result ← KVStore.get key;
      mret (match result with
            | Some value => dquote +:+ value +:+ dquote +:+ nl
            | None => "(nil)" +:+ nl
            end)
  | [] => mret ("(error) ERR wrong number of arguments for 'GET' command" +:+ nl)
  end.

(** [handleDel]. *)
Definition handleDel (cmd : Command) : M string :=
  match args cmd with
  | key :: _ =>
      status ← KVStore.del key;
      mret (match status with
            | OK => "(integer) 1" +:+ nl
            | _ => "(integer) 0" +:+ nl
            end)
  | [] => mret ("(error) ERR wrong number of arguments for 'DEL' command" +:+ nl)
  end.

(** The value of [CONFIG RETENTION LAST <value>] read as a number of
    seconds or as a count: the policy, or the error message. *)
Definition last_policy (valueStr : string) : RetentionPolicy + string :=
  if nonempty valueStr
     && match string_back valueStr with Some "s"%char => true | _ => false end
  then
    let secondsStr := String.substring 0 (String.length valueStr - 1) valueStr in
    if negb (nonempty secondsStr) then
      inr ("(error) ERR invalid format, expected number before 's'" +:+ nl)
    else
      match stoi_pos secondsStr with
      | Some (seconds, pos) =>
          if negb (Nat.eqb pos (String.length secondsStr)) then
            inr ("(error) ERR invalid seconds value" +:+ nl)
          else if seconds <=? 0 then
            inr ("(error) ERR seconds must be positive" +:+ nl)
          else inl (RetentionPolicy_make LAST_T seconds)
      | None => inr ("(error) ERR invalid seconds value" +:+ nl)
      end
  else
    match stoi_pos valueStr with
    | Some (count, pos) =>
        if negb (Nat.eqb pos (String.length valueStr)) then
          inr ("(error) ERR invalid count value" +:+ nl)
        else if count <=? 0 then
          inr ("(error) ERR count must be positive" +:+ nl)
        else inl (RetentionPolicy_make LAST_N count)
    | None => inr ("(error) ERR invalid count value" +:+ nl)
    end.

(** [handleConfig]. *)
Definition handleConfig (cmd : Command) : M string :=
  match args cmd with
  | arg0 :: arg1 :: rest =>
      let subcommand := string_map toupper arg0 in
      if negb (String.eqb subcommand "RETENTION") then
        mret ("(error) ERR unknown CONFIG subcommand '" +:+ arg0 +:+ "'" +:+ nl)
      else
        let modeStr := string_map toupper arg1 in
        if String.eqb modeStr "FULL" then
          KVStore.setRetentionPolicy RetentionPolicy_default;;
          mret ("OK - Retention policy set to FULL (keep all versions)" +:+ nl)
        else if String.eqb modeStr "LAST" then
          match rest with
          | [] =>
              mret ("(error) ERR LAST requires a value parameter" +:+ nl
                    +:+ "Usage: CONFIG RETENTION LAST <N> for count, or CONFIG RETENTION LAST <T>s for time"
                    +:+ nl)
          | valueStr :: _ =>
              match last_policy valueStr with
              | inl policy =>
                  KVStore.setRetentionPolicy policy;;
                  mret (match mode policy with
                        | LAST_T =>
                            "OK - Retention policy set to LAST "
                            +:+ to_string (seconds policy)
                            +:+ "s (keep versions from last "
                            +:+ to_string (seconds policy) +:+ " seconds)" +:+ nl
                        | _ =>
                            "OK - Retention policy set to LAST "
                            +:+ to_string (count policy) +:+ " (keep last "
                            +:+ to_string (count policy) +:+ " versions)" +:+ nl
                        end)
              | inr message => mret message
              end
          end
        else
          mret ("(error) ERR unknown retention mode '" +:+ arg1 +:+ "'" +:+ nl
                +:+ "Valid modes: FULL, LAST <N>, LAST <T>s" +:+ nl)
  | _ =>
      mret ("(error) ERR wrong number of arguments for 'CONFIG' command" +:+ nl
            +:+ "Usage: CONFIG RETENTION FULL | CONFIG RETENTION LAST <N> | CONFIG RETENTION LAST <T>s"
            +:+ nl)
  end.

(** The listing of [GUARD LIST], from index [i]. *)
Fixpoint list_guards (i : nat) (gs : list Guard.t) : string :=
  match gs with
  | [] => EmptyString
  | guard :: rest =>
      size_to_string (i + 1) +:+ ") " +:+ Guard.name guard
      +:+ " (key: " +:+ Guard.key guard +:+ ")" +:+ nl
      +:+ "   " +:+ describe guard +:+ nl
      +:+ "   Status: " +:+ (if Guard.enabled guard then "enabled" else "disabled")
      +:+ nl +:+ list_guards (S i) rest
  end.

(** The guard [GUARD ADD <type> <name> <key> <params...>] builds, with the
    message printed after it is registered; or the message printed instead.
    [type] is the type in upper case. *)
Definition make_guard (type name keyPattern : string) (params : list string)
    : (Guard.t * string) + string :=
  if String.eqb type "RANGE_INT" || String.eqb type "RANGE" then
    match params with
    | minStr :: maxStr :: _ =>
        match stoi minStr with
        | Some min =>
            match stoi maxStr with
            | Some max =>
                inl (Guard.mk name keyPattern true (Guard.RangeIntGuard min max),
                     "OK - Added range guard '" +:+ name +:+ "' for key pattern '"
                     +:+ keyPattern +:+ "': [" +:+ to_string min +:+ ", "
                     +:+ to_string max +:+ "]" +:+ nl)
            | None => inr ("(error) ERR failed to create guard: stoi" +:+ nl)
            end
        | None => inr ("(error) ERR failed to create guard: stoi" +:+ nl)
        end
    | _ => inr ("(error) ERR RANGE_INT requires: name key min max" +:+ nl)
    end
  else if String.eqb type "ENUM" then
    match params with
    | valuesStr :: _ =>
        let values := split_commas valuesStr in
        inl (Guard.mk name keyPattern true (Guard.EnumGuard values),
             "OK - Added enum guard '" +:+ name +:+ "' for key pattern '"
             +:+ keyPattern +:+ "' with " +:+ size_to_string (length values)
             +:+ " allowed values" +:+ nl)
    | [] => inr ("(error) ERR ENUM requires: name key values" +:+ nl)
    end
  else if String.eqb type "LENGTH" then
    match params with
    | minStr :: maxStr :: _ =>
        match stoul minStr with
        | Some min =>
            match stoul maxStr with
            | Some max =>
                inl (Guard.mk name keyPattern true (Guard.LengthGuard min max),
                     "OK - Added length guard '" +:+ name +:+ "' for key pattern '"
                     +:+ keyPattern +:+ "': [" +:+ size_to_string min +:+ ", "
                     +:+ size_to_string max +:+ "] characters" +:+ nl)
            | None => inr ("(error) ERR failed to create guard: stoul" +:+ nl)
            end
        | None => inr ("(error) ERR failed to create guard: stoul" +:+ nl)
        end
    | _ => inr ("(error) ERR LENGTH requires: name key min max" +:+ nl)
    end
  else
    inr ("(error) ERR unknown guard type '" +:+ type +:+ "'" +:+ nl
         +:+ "Available types: RANGE_INT, ENUM, LENGTH" +:+ nl).

(** [handleGuard]. *)
Definition handleGuard (cmd : Command) : M string :=
  match args cmd with
  | [] =>
      mret ("(error) ERR wrong number of arguments for 'GUARD' command" +:+ nl
            +:+ "Usage:" +:+ nl
            +:+ "  GUARD ADD <type> <name> <key_pattern> <params...>" +:+ nl
            +:+ "  GUARD LIST" +:+ nl
            +:+ "  GUARD REMOVE <name>" +:+ nl)
  | arg0 :: rest =>
      let subcommand := string_map toupper arg0 in
      if String.eqb subcommand "LIST" then
        gs ← gets KVStore.getGuards;
        match gs with
        | [] => mret ("No guards defined" +:+ nl)
        | _ =>
            mret (size_to_string (length gs) +:+ " guard(s) defined:" +:+ nl
                  +:+ list_guards 0 gs)
        end
      else if String.eqb subcommand "ADD" then
        match rest with
        | type :: name :: keyPattern :: params =>
            match make_guard (string_map toupper type) name keyPattern params with
            | inl (guard, message) => KVStore.addGuard guard;; mret message
            | inr message => mret message
            end
        | _ => mret ("(error) ERR insufficient arguments for GUARD ADD" +:+ nl)
        end
      else if String.eqb subcommand "REMOVE" then
        match rest with
        | name :: _ =>
            removed ← KVStore.removeGuard name;
            mret (if removed : bool
                  then "OK - Removed guard '" +:+ name +:+ "'" +:+ nl
                  else "(error) ERR guard '" +:+ name +:+ "' not found" +:+ nl)
        | [] => mret ("(error) ERR GUARD REMOVE requires guard name" +:+ nl)
        end
      else
        mret ("(error) ERR unknown GUARD subcommand '" +:+ subcommand +:+ "'" +:+ nl
              +:+ "Available: ADD, LIST, REMOVE" +:+ nl)
  end.

Definition policy_description (p : DecisionPolicy) : string :=
  match p with
  | DEV_FRIENDLY => "Always negotiate guard violations when alternatives exist"
  | SAFE_DEFAULT =>
      "Negotiate low-risk violations (with alternatives), reject high-risk (no alternatives)"
  | STRICT => "Reject all guard violations without negotiation"
  end.

(** [handlePolicy]. *)
Definition handlePolicy (cmd : Command) : M string :=
  match args cmd with
  | [] =>
      mret ("(error) ERR wrong number of arguments for 'POLICY' command" +:+ nl
            +:+ "Usage:" +:+ nl
            +:+ "  POLICY GET - Display current decision policy" +:+ nl
            +:+ "  POLICY SET <policy> - Set decision policy (DEV_FRIENDLY, SAFE_DEFAULT, STRICT)"
            +:+ nl)
  | arg0 :: rest =>
      let subcommand := string_map toupper arg0 in
      if String.eqb subcommand "GET" then
        policy ← gets KVStore.getDecisionPolicy;
        mret ("Current decision policy: " +:+ policy_name policy +:+ nl
              +:+ "Description: " +:+ policy_description policy +:+ nl)
      else if String.eqb subcommand "SET" then
        match rest with
        | arg1 :: _ =>
            let policyStr := string_map toupper arg1 in
            match parse_policy policyStr with
            | Some newPolicy =>
                KVStore.setDecisionPolicy newPolicy;;
                mret ("OK - Decision policy set to " +:+ policyStr +:+ nl)
            | None =>
                mret ("(error) ERR unknown policy '" +:+ policyStr +:+ "'" +:+ nl
                      +:+ "Available policies: DEV_FRIENDLY, SAFE_DEFAULT, STRICT"
                      +:+ nl)
            end
        | [] =>
            mret ("(error) ERR POLICY SET requires policy name" +:+ nl
                  +:+ "Available policies: DEV_FRIENDLY, SAFE_DEFAULT, STRICT" +:+ nl)
        end
      else
        mret ("(error) ERR unknown POLICY subcommand '" +:+ subcommand +:+ "'" +:+ nl
              +:+ "Available: GET, SET" +:+ nl)
  end.

End CLI.

(** ** JSON helpers of the HTTP server (http_server.cpp) *)

(** The scanner state of [parseSimpleJSON]. *)
Record JsonScan := mkJsonScan {
  inQuotes : bool;
  inKey : bool;
  inValue : bool;
  scan_key : string;
  scan_value : string;
  scan_result : gmap string string
}.

(** One turn of the loop of [parseSimpleJSON], on the character [c]. *)
Definition json_step (st : JsonScan) (c : ascii) : JsonScan :=
  if Ascii.eqb c (ascii_of_nat 34) then
    let q := negb (inQuotes st) in
    if negb q && inKey st then
      mkJsonScan q false (inValue st) (scan_key st) (scan_value st) (scan_result st)
    else if negb q && inValue st then
      mkJsonScan q (inKey st) false EmptyString EmptyString
        (<[scan_key st := scan_value st]> (scan_result st))
    else if q && negb (inKey st) && negb (inValue st) then
      if negb (nonempty (scan_key st)) then
        mkJsonScan q true (inValue st) (scan_key st) (scan_value st) (scan_result st)
      else
        mkJsonScan q (inKey st) true (scan_key st) (scan_value st) (scan_result st)
    else
      mkJsonScan q (inKey st) (inValue st) (scan_key st) (scan_value st)
        (scan_result st)
  else if inQuotes st then
    if inKey st then
      mkJsonScan (inQuotes st) (inKey st) (inValue st)
        (scan_key st +:+ String c EmptyString) (scan_value st) (scan_result st)
    else if inValue st then
      mkJsonScan (inQuotes st) (inKey st) (inValue st)
        (scan_key st) (scan_value st +:+ String c EmptyString) (scan_result st)
    else st
  else st.

Fixpoint json_scan (json : string) (st : JsonScan) : JsonScan :=
  match json with
  | EmptyString => st
  | String c r => json_scan r (json_step st c)
  end.

(** [parseSimpleJSON]. *)
Definition parseSimpleJSON (json : string) : gmap string string :=
  scan_result
    (json_scan json (mkJsonScan false false false EmptyString EmptyString ∅)).

(** [escapeJSON]: the text appended for one character, and the loop. *)
Definition escape_char (c : ascii) : string :=
  if Ascii.eqb c (ascii_of_nat 34) then String "\"%char dquote
  else if Ascii.eqb c "\"%char then "\\"
  else if Ascii.eqb c (ascii_of_nat 8) then "\b"
  else if Ascii.eqb c (ascii_of_nat 12) then "\f"
  else if Ascii.eqb c (ascii_of_nat 10) then "\n"
  else if Ascii.eqb c (ascii_of_nat 13) then "\r"
  else if Ascii.eqb c (ascii_of_nat 9) then "\t"
  else String c EmptyString.

Fixpoint escapeJSON (str : string) : string :=
  match str with
  | EmptyString => EmptyString
  | String c r => escape_char c +:+ escapeJSON r
  end.

(** ** Vocabulary of the properties *)

Definition run {A} (m : M A) (w : World) : World := snd (m w).
Definition answer {A} (m : M A) (w : World) : A := fst (m w).

(** Timestamps never decrease along the list. *)
Fixpoint nondecreasing (l : list Version) : bool :=
  match l with
  | v1 :: rest =>
      match rest with
      | v2 :: _ => (timestamp v1 <=? timestamp v2) && nondecreasing rest
      | [] => true
      end
  | [] => true
  end.

(** The versions at or before [t], in list order. *)
Definition at_or_before (t : time_point) (l : list Version) : list Version :=
  filter (fun v => timestamp v <= t) l.

(** The latest version at or before [t]: the last such version of the list. *)
Definition latest_at (t : time_point) (l : list Version) : option Version :=
  last (at_or_before t l).

(** The version list a key has in a state ([history(k)]). *)
Definition history (key : string) (w : World) : list Version :=
  answer (KVStore.getHistory key) w.

(** What the loop of [explainGetAtTime] knows about its selected index,
    stated against the result variable of the loop of [getAtTime]. *)
Definition selection_agrees (t : time_point) (all : list Version)
    (sel : option nat) (res : option string) : Prop :=
  match sel with
  | Some j => exists v, all !! j = Some v /\ timestamp v <= t /\ res = Some (value v)
  | None => res = None
  end.

(** The guards that evaluate to [COUNTER_OFFER] on a value. *)
Definition counter_offering (value : string) (gs : list Guard.t) : list Guard.t :=
  filter (fun h => fst (Guard.evaluate h value) = COUNTER_OFFER) gs.

(** ** Example states *)

(** A process right after construction, on empty files, with streams that
    never fail and a clock that starts one second after the epoch and
    advances by [step] ticks per reading. *)
Definition clocked_world (step : Z) : World :=
  {| store := ∅; wal := true; walEnabled := true;
     retentionPolicy := RetentionPolicy_default; guards := [];
     decisionPolicy := SAFE_DEFAULT;
     logFile_open := false; logFile_good := true; enabled := false;
     wal_file := EmptyString; snapshot_file := EmptyString;
     clock := fun n => 1000000000 + Z.of_nat n * step;
     io := fun _ => IoDone; ticks := 0; io_ops := 0 |}.

(** The example process: one and a half milliseconds between readings. *)
Definition example_world : World := clocked_world 1500000.

Definition length_guard : Guard.t := Guard.mk "len" "*" true (Guard.LengthGuard 5 10).
Definition range_guard : Guard.t := Guard.mk "rng" "sc*" true (Guard.RangeIntGuard 0 100).
Definition enum_guard : Guard.t :=
  Guard.mk "en" "status" true (Guard.EnumGuard ["active"; "inactive"; "pending"]).

(** The example process with the three guards registered in this order. *)
Definition guarded_world : World :=
  run (KVStore.addGuard length_guard;; KVStore.addGuard range_guard;;
       KVStore.addGuard enum_guard) example_world.

(** An Enum guard whose allowed list is not empty. *)
Definition enum_nonempty (g : Guard.t) : bool :=
  match Guard.kind g with
  | Guard.EnumGuard (_ :: _) => true
  | _ => false
  end.

(** The guard accepts the value, or it is an Enum guard with allowed values:
    all a key's applicable guards are such when a violation is enum-only. *)
Definition accepts_or_enum (value : string) (g : Guard.t) : Prop :=
  fst (Guard.evaluate g value) = ACCEPT \/ enum_nonempty g = true.

(** The example process after startup on its empty files. *)
Definition booted_world : World := Main.boot example_world.

(** Two writes of one key, one and a half milliseconds apart. *)
Definition written_world : World :=
  run (KVStore.set "k" "a";; KVStore.set "k" "b") booted_world.

(** Three versions of one key under [LastN(2)], before retention runs. *)
Definition crowded_world : World :=
  with_retentionPolicy (RetentionPolicy_make LAST_N 2)
    (run (KVStore.set "k" "a";; KVStore.set "k" "b";; KVStore.set "k" "c")
         booted_world).

(** The booted example process on a disk whose writes fail from now on,
    silently or with an exception. *)
Definition failing_world : World := with_io (fun _ => IoFailed) booted_world.
Definition throwing_world : World := with_io (fun _ => IoThrown) booted_world.

(** A write, a snapshot, a second write of the same key; then the process
    ends. *)
Definition snapshot_then_write : World :=
  run (KVStore.set "k" "v1";; Main.handleSnapshot;; KVStore.set "k" "v2")
      booted_world.

(** The same world with streams that never fail. *)
Definition healthy (w : World) : World := with_io (fun _ => IoDone) w.

(** The write of the next WAL record is attempted and fails. *)
Definition next_write_fails (w : World) : Prop :=
  KVStore.wal_active w = true /\ logFile_open w = true /\ logFile_good w = true
  /\ io w (io_ops w) <> IoDone.

(** Two worlds agree on everything that lives in memory and on the clock;
    they may differ in the WAL file, the stream state and the outcomes of
    stream operations. *)
Definition same_memory (w1 w2 : World) : Prop :=
  store w1 = store w2 /\ retentionPolicy w1 = retentionPolicy w2
  /\ decisionPolicy w1 = decisionPolicy w2 /\ guards w1 = guards w2
  /\ wal w1 = wal w2 /\ walEnabled w1 = walEnabled w2
  /\ enabled w1 = enabled w2 /\ logFile_open w1 = logFile_open w2
  /\ clock w1 = clock w2 /\ ticks w1 = ticks w2.

(** ** Sessions and their logs *)

(** The mutations of a session. *)
Inductive Op :=
| OpSet (key value : string)
| OpDel (key : string)
| OpPolicy (policy : DecisionPolicy).

Definition run_op (op : Op) : M unit :=
  match op with
  | OpSet key value => KVStore.set key value;; mret tt
  | OpDel key => KVStore.del key;; mret tt
  | OpPolicy policy => KVStore.setDecisionPolicy policy
  end.

Definition run_ops (ops : list Op) : M unit := for_each ops run_op.

(** A string without white space, and a non-empty such string: what one
    formatted extraction reads back whole. *)
Fixpoint no_space (s : string) : bool :=
  match s with
  | EmptyString => true
  | String c r => negb (isspace c) && no_space r
  end.

Definition is_token (s : string) : bool := nonempty s && no_space s.

Definition token_op (op : Op) : bool :=
  match op with
  | OpSet key value => is_token key && is_token value
  | OpDel key => is_token key
  | OpPolicy _ => true
  end.

(** A tick count that fits the signed 64-bit representation of a time
    point, and one that is a whole number of milliseconds. *)
Definition in_range (t : time_point) : Prop := LLONG_MIN <= t <= LLONG_MAX.

Definition whole_ms (t : time_point) : Prop := (ticks_per_ms | t).

(** A time point cut to whole milliseconds, toward the epoch, and a version
    stamped so. *)
Definition truncate_ms (t : time_point) : time_point :=
  (t ÷ ticks_per_ms) * ticks_per_ms.

Definition truncate_version (v : Version) : Version :=
  mkVersion (truncate_ms (timestamp v)) (value v).

(** The records of the WAL, and the line each one is written as. *)
Inductive Rec :=
| RSet (key value : string) (timestamp : time_point)
| RDel (key : string)
| RPolicy (policy : DecisionPolicy).

Definition render (r : Rec) : string :=
  match r with
  | RSet key value timestamp =>
      "SET " +:+ key +:+ " " +:+ value +:+ " " +:+ to_string (to_epoch_ms timestamp)
  | RDel key => "DEL " +:+ key
  | RPolicy policy => "POLICY SET " +:+ policy_name policy
  end.

(** The text of a log: one line per record. *)
Fixpoint log_text (recs : list Rec) : string :=
  match recs with
  | [] => EmptyString
  | r :: rest => render r +:+ nl +:+ log_text rest
  end.

(** Strings of decimal digits, strings without a line feed, and strings at
    which the reading of a token stops. *)
Fixpoint all_digits (s : string) : bool :=
  match s with
  | EmptyString => true
  | String c r => isdigit c && all_digits r
  end.

Fixpoint no_nl (s : string) : bool :=
  match s with
  | EmptyString => true
  | String c r => negb (Ascii.eqb c (ascii_of_nat 10)) && no_nl r
  end.

Definition stops (rest : string) : bool :=
  match rest with
  | EmptyString => true
  | String c _ => isspace c
  end.

Definition valid_rec (r : Rec) : Prop :=
  match r with
  | RSet key value timestamp =>
      is_token key = true /\ is_token value = true /\ in_range timestamp
  | RDel key => is_token key = true
  | RPolicy _ => True
  end.

(** The timestamp of a SET record is one of the clock readings [lo], ...,
    [hi - 1]. *)
Definition stamped_by (ck : nat -> time_point) (lo hi : nat) (r : Rec) : Prop :=
  match r with
  | RSet _ _ timestamp => exists n, (lo <= n < hi)%nat /\ timestamp = ck n
  | _ => True
  end.

(** Two ways of storing timestamps agree on the SET records of a log. *)
Definition same_stamp (f g : time_point -> time_point) (r : Rec) : Prop :=
  match r with
  | RSet _ _ timestamp => f timestamp = g timestamp
  | _ => True
  end.

(** What a record does to the version store when its timestamp is stored as
    [f timestamp], and to the decision policy. *)
Definition data_effect (f : time_point -> time_point) (r : Rec)
    (s : gmap string (list Version)) : gmap string (list Version) :=
  match r with
  | RSet key value timestamp =>
      <[key := default [] (s !! key) ++ [mkVersion (f timestamp) value]]> s
  | RDel key => delete key s
  | RPolicy _ => s
  end.

Definition policy_effect (r : Rec) (p : DecisionPolicy) : DecisionPolicy :=
  match r with
  | RPolicy policy => policy
  | _ => p
  end.

(** The timestamp a logged instant comes back as. *)
Definition replayed_time (t : time_point) : time_point :=
  from_epoch_ms (to_epoch_ms t).

(** A process in its command loop with a working WAL, full retention and
    streams that never fail. *)
Definition live (w : World) : Prop :=
  wal w = true /\ walEnabled w = true /\ enabled w = true
  /\ logFile_open w = true /\ logFile_good w = true
  /\ mode (retentionPolicy w) = FULL
  /\ (forall n, io w n = IoDone).

(** The example process with a clock that advances by 0.4 ms per reading,
    and two writes of one key that fall into the same millisecond. *)
Definition fast_world : World := clocked_world 400000.

Definition same_ms_session : World :=
  run (run_ops [OpSet "k" "a"; OpSet "k" "b"]) (Main.boot fast_world).

(** The example process with a clock that ticks in whole milliseconds, and
    the operations of a session on it. *)
Definition whole_ms_world : World := clocked_world 2000000.

Definition example_ops : list Op :=
  [OpPolicy STRICT; OpSet "k" "v1"; OpSet "k" "v2"; OpSet "j" "x"; OpDel "j"].

(** The version store and the decision policy after a sequence of records. *)
Fixpoint store_after (f : time_point -> time_point) (recs : list Rec)
    (s : gmap string (list Version)) : gmap string (list Version) :=
  match recs with
  | [] => s
  | r :: rest => store_after f rest (data_effect f r s)
  end.

Fixpoint policy_after (recs : list Rec) (p : DecisionPolicy) : DecisionPolicy :=
  match recs with
  | [] => p
  | r :: rest => policy_after rest (policy_effect r p)
  end.

(** What a session has done between two states, told by the records it
    appended to the WAL. *)
Definition logged (recs : list Rec) (w w' : World) : Prop :=
  Forall valid_rec recs
  /\ wal_file w' = wal_file w +:+ log_text recs
  /\ store w' = store_after id recs (store w)
  /\ decisionPolicy w' = policy_after recs (decisionPolicy w)
  /\ snapshot_file w' = snapshot_file w
  /\ clock w' = clock w
  /\ live w'.


(** A session on whole milliseconds that writes an empty value. *)
Definition empty_value_session : World :=
  run (run_ops [OpSet "k" EmptyString]) (Main.boot whole_ms_world).
(** ** Vocabulary of the further properties *)

(** The longest prefix of a list whose elements satisfy [p]. *)
Fixpoint take_while {A} (p : A -> bool) (l : list A) : list A :=
  match l with
  | x :: r => if p x then x :: take_while p r else []
  | [] => []
  end.

(** The leading versions of a list that are at or before [t]: the part of
    the list the loops of [getAtTime] and [explainGetAtTime] walk over. *)
Definition leading (t : time_point) (l : list Version) : list Version :=
  take_while (fun v => timestamp v <=? t) l.

(** The state of the loop of [explainGetAtTime] before it looks at index
    [i]: it has selected the version before [i] and skipped the ones before
    that. *)
Definition explain_state (all : list Version) (i : nat) (sel : option nat)
    (skipped : list Version) : Prop :=
  skipped = take (pred i) all
  /\ sel = match i with O => None | S j => Some j end
  /\ (i <= length all)%nat.

(** The example process on a clock that advances by 0.6 s per reading, and
    three versions of one key under [LastT(1)], before retention runs. *)
Definition slow_world : World := clocked_world 600000000.

Definition aged_world : World :=
  with_retentionPolicy (RetentionPolicy_make LAST_T 1)
    (run (KVStore.set "k" "a";; KVStore.set "k" "b";; KVStore.set "k" "c")
         (Main.boot slow_world)).

(** The newest [n] versions of a list. *)
Definition newest (n : Z) (versions : list Version) : list Version :=
  drop (length versions - Z.to_nat n) versions.

(** A Length guard whose bounds leave no room for the shorter of the two
    truncations. *)
Definition tight_length_guard : Guard.t :=
  Guard.mk "tight" "*" true (Guard.LengthGuard 9 10).

(** The verdict of one guard on a value, and the values a list of
    alternatives offers. *)
Definition verdict (value : string) (g : Guard.t) : GuardResult :=
  fst (Guard.evaluate g value).

Definition offered (alts : list Alternative) : list string :=
  alt_value <$> alts.

(** The guard counter-offers on the value and generates the alternative. *)
Definition offers (value : string) (g : Guard.t) (alt : Alternative) : Prop :=
  verdict value g = COUNTER_OFFER /\ alt ∈ Guard.generateAlternatives g value.

(** The guarded example process under the [STRICT] and the [DEV_FRIENDLY]
    policy. *)
Definition strict_world : World := with_decisionPolicy STRICT guarded_world.
Definition dev_friendly_world : World := with_decisionPolicy DEV_FRIENDLY guarded_world.

(** What a replay must leave alone: the two files, the registered guards,
    the retention policy and the environment. *)
Definition untouched (w w' : World) : Prop :=
  wal_file w' = wal_file w /\ snapshot_file w' = snapshot_file w
  /\ guards w' = guards w /\ retentionPolicy w' = retentionPolicy w
  /\ clock w' = clock w /\ io w' = io w.

(** A step of a replay: it runs with logging switched off, leaves it off and
    leaves the files alone. *)
Definition replay_step (m : M unit) : Prop :=
  forall w, walEnabled w = false ->
            untouched w (run m w) /\ walEnabled (run m w) = false.

(** A computation of startup: it is entered with logging switched on, ends
    with logging switched on and leaves the files alone. *)
Definition keeps_files {A} (m : M A) : Prop :=
  forall w, walEnabled w = true ->
            untouched w (snd (m w)) /\ walEnabled (snd (m w)) = true.

(** The line a snapshot holds for one key, and the store a process builds
    from the pairs of a snapshot, all stamped with the time [t] of the
    restart. *)
Definition snapshot_line (kv : string * string) : string :=
  "SET " +:+ fst kv +:+ " " +:+ snd kv.

Fixpoint load_pairs (t : time_point) (pairs : list (string * string))
    (s : gmap string (list Version)) : gmap string (list Version) :=
  match pairs with
  | [] => s
  | kv :: rest =>
      load_pairs t rest
        (<[fst kv := default [] (s !! fst kv) ++ [mkVersion t (snd kv)]]> s)
  end.

(** A retention policy as the command loop installs it: [LastN] and [LastT]
    carry a positive [int]. *)
Definition valid_retention (p : RetentionPolicy) : Prop :=
  match mode p with
  | FULL => True
  | LAST_N => 1 <= count p <= INT_MAX
  | LAST_T => 1 <= seconds p <= INT_MAX
  end.

(** Strings without a comma. *)
Fixpoint no_comma (s : string) : bool :=
  match s with
  | EmptyString => true
  | String c r => negb (Ascii.eqb c ","%char) && no_comma r
  end.

(** The mutation a log record stands for, and the handler of the command
    loop its line is dispatched to. *)
Definition rec_op (r : Rec) : Op :=
  match r with
  | RSet key value _ => OpSet key value
  | RDel key => OpDel key
  | RPolicy policy => OpPolicy policy
  end.

Definition rec_handler (r : Rec) : CommandParser.Command -> M string :=
  match r with
  | RSet _ _ _ => CLI.handleSet
  | RDel _ => CLI.handleDel
  | RPolicy _ => CLI.handlePolicy
  end.

Definition rec_type (r : Rec) : CommandParser.CommandType :=
  match r with
  | RSet _ _ _ => CommandParser.SET
  | RDel _ => CommandParser.DEL
  | RPolicy _ => CommandParser.POLICY
  end.

(** Strings without a quotation mark. *)
Fixpoint no_quote (s : string) : bool :=
  match s with
  | EmptyString => true
  | String c r => negb (Ascii.eqb c (ascii_of_nat 34)) && no_quote r
  end.

(** A JSON object whose members are strings, written without blanks. *)
Definition json_member (kv : string * string) : string :=
  dquote +:+ fst kv +:+ dquote +:+ ":" +:+ dquote +:+ snd kv +:+ dquote.

Definition json_object (members : list (string * string)) : string :=
  "{" +:+ String.concat "," (map json_member members) +:+ "}".

(** The scanner of [parseSimpleJSON] between two members. *)
Definition between_members (m : gmap string string) : JsonScan :=
  mkJsonScan false false false EmptyString EmptyString m.

(** Reading back an escaped text: a backslash and the character after it
    stand for one character. *)
Definition unescape_char (x : ascii) : ascii :=
  if Ascii.eqb x "b"%char then ascii_of_nat 8
  else if Ascii.eqb x "f"%char then ascii_of_nat 12
  else if Ascii.eqb x "n"%char then ascii_of_nat 10
  else if Ascii.eqb x "r"%char then ascii_of_nat 13
  else if Ascii.eqb x "t"%char then ascii_of_nat 9
  else x.

Fixpoint unescape (s : string) : string :=
  match s with
  | EmptyString => EmptyString
  | String c r =>
      match r with
      | String x r' =>
          if Ascii.eqb c "\"%char then String (unescape_char x) (unescape r')
          else String c (unescape r)
      | EmptyString => String c EmptyString
      end
  end.

(** The characters [escapeJSON] replaces by a letter: backspace, tab, line
    feed, form feed and carriage return. *)
Definition is_control (c : ascii) : bool :=
  (8 <=? code c) && (code c <=? 13) && negb (code c =? 11).

Fixpoint no_control (s : string) : bool :=
  match s with
  | EmptyString => true
  | String c r => negb (is_control c) && no_control r
  end.
(** Unfolding of the monadic plumbing. *)
Ltac monad_step :=
  unfold answer, run, mbind, M_bind, mret, M_ret, gets, modify, when in *;
  cbn [fst snd] in *.

(** ** Point-in-time lookup *)

Lemma nondecreasing_cons v l :
  nondecreasing (v :: l) = true ->
  nondecreasing l = true /\ Forall (fun u => timestamp v <= timestamp u) l.
Proof.
  revert v. induction l as [|u l IH]; intros v H.
  - split; [reflexivity | constructor].
  - cbn [nondecreasing] in H. apply andb_true_iff in H as [Hvu Hl].
    apply Z.leb_le in Hvu. split; [exact Hl|].
    constructor; [exact Hvu|].
    destruct (IH u Hl) as [_ Hall].
    eapply Forall_impl; [exact Hall|]. cbn. intros x Hx. lia.
Qed.

Lemma at_or_before_none t l :
  Forall (fun u => t < timestamp u) l -> at_or_before t l = [].
Proof.
  induction 1 as [|u l Hu _ IH]; [reflexivity|].
  unfold at_or_before in *. rewrite filter_cons.
  destruct (decide (timestamp u <= t)); [lia | exact IH].
Qed.

(** On a non-decreasing list the loop of [getAtTime] ends with the value of
    the last version at or before [t], or with what it started from. *)
Lemma getAt_loop_latest t l res :
  nondecreasing l = true ->
  getAt_loop l t res = from_option (fun v => Some (value v)) res (latest_at t l).
Proof.
  revert res. induction l as [|v l IH]; intros res Hs; [reflexivity|].
  destruct (nondecreasing_cons _ _ Hs) as [Hl Hall].
  cbn [getAt_loop]. unfold latest_at, at_or_before in *. rewrite filter_cons.
  destruct (Z.leb_spec (timestamp v) t) as [Hle|Hgt].
  - rewrite decide_True by exact Hle. rewrite (IH _ Hl).
    rewrite last_cons. destruct (last (filter _ l)); reflexivity.
  - rewrite decide_False by lia.
    fold (at_or_before t l). rewrite at_or_before_none; [reflexivity|].
    eapply Forall_impl; [exact Hall|]. cbn. intros; lia.
Qed.

Lemma getAtTime_unfold key t w :
  answer (KVStore.getAtTime key t) w = getAt_loop (history key w) t None.
Proof.
  unfold history, KVStore.getAtTime, KVStore.getHistory. monad_step.
  destruct (store w !! key) as [[|v l]|]; reflexivity.
Qed.

(** C2: when the timestamps of a key's version list never decrease,
    [getAtTime key t] returns the value of the latest version whose
    timestamp is at most [t]; it returns nothing when no version has a
    timestamp at most [t], in particular for a key that is absent. *)
Theorem getAtTime_latest (w : World) (key : string) (t : time_point) :
  nondecreasing (history key w) = true ->
  answer (KVStore.getAtTime key t) w = value <$> latest_at t (history key w)
  /\ (Forall (fun v => t < timestamp v) (history key w) ->
      answer (KVStore.getAtTime key t) w = None)
  /\ (store w !! key = None -> answer (KVStore.getAtTime key t) w = None).
Proof.
  intros Hs. rewrite getAtTime_unfold, (getAt_loop_latest _ _ _ Hs).
  split; [|split].
  - destruct (latest_at t (history key w)); reflexivity.
  - intros Hall. unfold latest_at. rewrite at_or_before_none by exact Hall.
    reflexivity.
  - intros Hk. unfold history, KVStore.getHistory. monad_step.
    rewrite Hk. reflexivity.
Qed.

(** C2, witness: a history of two versions, queried between them. *)
Lemma getAtTime_latest_witness :
  answer (KVStore.getAtTime "k" 1001000000) written_world
  = value <$> latest_at 1001000000 (history "k" written_world)
  /\ (Forall (fun v => 1001000000 < timestamp v) (history "k" written_world) ->
      answer (KVStore.getAtTime "k" 1001000000) written_world = None)
  /\ (store written_world !! "k" = None ->
      answer (KVStore.getAtTime "k" 1001000000) written_world = None).
Proof.
  apply (getAtTime_latest written_world "k" 1001000000).
  vm_compute. reflexivity.
Defined.

(** ** Explanation of a point-in-time lookup *)

Section ExplainLoop.

Variable t : time_point.
Variable all : list Version.

Lemma explain_loop_agrees rest :
  forall i sel skipped res,
    drop i all = rest ->
    selection_agrees t all sel res ->
    Forall (fun v => timestamp v <= t) skipped ->
    selection_agrees t all (fst (explain_loop all rest i t sel skipped))
                     (getAt_loop rest t res)
    /\ Forall (fun v => timestamp v <= t)
              (snd (explain_loop all rest i t sel skipped)).
Proof.
  induction rest as [|v rest IH]; intros i sel skipped res Hdrop Hsel Hsk.
  - cbn. split; assumption.
  - cbn [explain_loop getAt_loop].
    assert (Hi : all !! i = Some v).
    { pose proof (lookup_drop all i 0) as Hl.
      rewrite Hdrop, Nat.add_0_r in Hl. symmetry. exact Hl. }
    assert (Hnext : drop (S i) all = rest).
    { replace (S i) with (i + 1)%nat by lia.
      rewrite <- drop_drop, Hdrop. reflexivity. }
    destruct (Z.leb_spec (timestamp v) t) as [Hle|Hgt].
    + apply IH; [exact Hnext | | ].
      * exists v. auto.
      * destruct sel as [j|]; [|exact Hsk].
        destruct Hsel as (old & Hold & Hle' & _). rewrite Hold.
        apply Forall_app. split; [exact Hsk|]. constructor; [exact Hle'|constructor].
    + cbn. split; assumption.
Qed.

End ExplainLoop.

(** C9: [explainGetAtTime key t] agrees with [getAtTime key t]: [found]
    holds exactly when [getAtTime] returns a value, the selected version then
    carries that value, [totalVersions] is the size of the key's history and
    no skipped version is later than [t]. *)
Theorem explainGetAtTime_consistent (w : World) (key : string) (t : time_point) :
  let r := answer (KVStore.explainGetAtTime key t) w in
  let g := answer (KVStore.getAtTime key t) w in
  (found r = true <-> is_Some g)
  /\ (found r = true -> value <$> selectedVersion r = g)
  /\ totalVersions r = length (history key w)
  /\ Forall (fun v => timestamp v <= t) (skippedVersions r).
Proof.
  unfold history, KVStore.explainGetAtTime, KVStore.getAtTime, KVStore.getHistory.
  monad_step.
  destruct (store w !! key) as [[|v0 l]|] eqn:Hk; cbn [default].
  1, 3: cbn; repeat split; try discriminate; try constructor;
        intros [x Hx]; discriminate.
  set (versions := v0 :: l).
  destruct (explain_loop_agrees t versions versions 0%nat None [] None
              eq_refl eq_refl (Forall_nil_2 _)) as [Hsel Hsk].
  destruct (explain_loop versions versions 0 t None []) as [[i|] skipped];
    cbn [fst snd] in *.
  - destruct Hsel as (v & Hv & Hle & Hg).
    cbn [found selectedVersion totalVersions skippedVersions].
    fold versions. rewrite Hg, Hv. repeat split; eauto.
  - cbn [selection_agrees] in Hsel.
    cbn [found selectedVersion totalVersions skippedVersions].
    fold versions. rewrite Hsel.
    repeat split; try discriminate; auto. intros [x Hx]; discriminate.
Qed.

(** ** Retention *)

Lemma history_put key versions w :
  history key (run (KVStore.put_versions key versions) w) = versions.
Proof.
  unfold history, KVStore.put_versions, KVStore.getHistory. monad_step.
  cbn. rewrite lookup_insert_eq. reflexivity.
Qed.

(** C8: under [LastN(n)] with [n >= 1], retention leaves a version list of
    size [s <= n] unchanged and otherwise removes exactly the [s - n] oldest
    elements: the result is the suffix of length [min s n], in the original
    order. *)
Theorem applyRetention_last_n (w : World) (key : string) (n : Z) (l : list Version) :
  mode (retentionPolicy w) = LAST_N ->
  count (retentionPolicy w) = n ->
  1 <= n ->
  store w !! key = Some l ->
  let l' := history key (run (KVStore.applyRetention key) w) in
  l' = drop (length l - Z.to_nat n) l
  /\ (Z.of_nat (length l) <= n -> l' = l)
  /\ (n < Z.of_nat (length l) ->
      exists oldest, l = oldest ++ l' /\ length oldest = (length l - Z.to_nat n)%nat)
  /\ length l' = Nat.min (length l) (Z.to_nat n).
Proof.
  intros Hmode Hcount Hn Hk.
  assert (Hl' : history key (run (KVStore.applyRetention key) w)
                = drop (length l - Z.to_nat n) l).
  { unfold KVStore.applyRetention. monad_step. rewrite Hk.
    destruct l as [|v l0]; [unfold history, KVStore.getHistory; monad_step;
                            rewrite Hk; reflexivity|].
    rewrite Hmode, Hcount.
    destruct (Z.ltb_spec 0 n) as [_|]; [|lia]. cbn [andb].
    destruct (Z.ltb_spec n (Z.of_nat (length (v :: l0)))) as [Hlt|Hge].
    - apply (history_put key _ w).
    - replace (length (v :: l0) - Z.to_nat n)%nat with 0%nat by lia.
      unfold history, KVStore.getHistory; monad_step. rewrite Hk. reflexivity. }
  cbv zeta. rewrite Hl'. split; [reflexivity|]. split; [|split].
  - intros Hle. replace (length l - Z.to_nat n)%nat with 0%nat by lia. reflexivity.
  - intros Hlt. exists (take (length l - Z.to_nat n) l). split.
    + symmetry. apply take_drop.
    + rewrite length_take. lia.
  - rewrite length_drop. lia.
Qed.

(** C8, witness: three versions under [LastN(2)]. *)
Lemma applyRetention_last_n_witness :
  history "k" (run (KVStore.applyRetention "k") crowded_world)
  = [mkVersion 1001500000 "b"; mkVersion 1003000000 "c"].
Proof.
  destruct (applyRetention_last_n crowded_world "k" 2
              [mkVersion 1000000000 "a"; mkVersion 1001500000 "b";
               mkVersion 1003000000 "c"]) as [H _].
  - reflexivity.
  - reflexivity.
  - lia.
  - vm_compute. reflexivity.
  - exact H.
Defined.

(** ** The SafeDefault decision policy *)

(** A counter-offer that comes with alternatives passes [SAFE_DEFAULT]
    untouched. *)
Lemma safe_default_keeps_offer w evaluation :
  decisionPolicy w = SAFE_DEFAULT ->
  result evaluation = COUNTER_OFFER ->
  alternatives evaluation <> [] ->
  result (answer (KVStore.applyDecisionPolicy evaluation) w) = COUNTER_OFFER
  /\ alternatives (answer (KVStore.applyDecisionPolicy evaluation) w)
     = alternatives evaluation.
Proof.
  intros Hp Hr Ha. unfold KVStore.applyDecisionPolicy. monad_step. rewrite Hp.
  destruct evaluation as [r k v rs alts tg ap pr]. cbn in *. subst r.
  destruct alts; [contradiction|]. cbn. split; reflexivity.
Qed.

(** C4: under [SAFE_DEFAULT] the verdict after the policy transform is
    [REJECT] exactly when the simulation produced [REJECT], or
    [COUNTER_OFFER] without alternatives; a [COUNTER_OFFER] with alternatives
    stays a [COUNTER_OFFER] with the same alternatives. *)
Theorem applyDecisionPolicy_safe_default (w : World) (simulated : WriteEvaluation) :
  decisionPolicy w = SAFE_DEFAULT ->
  let final := answer (KVStore.applyDecisionPolicy simulated) w in
  (result final = REJECT <->
     result simulated = REJECT
     \/ (result simulated = COUNTER_OFFER /\ alternatives simulated = []))
  /\ (result simulated = COUNTER_OFFER -> alternatives simulated <> [] ->
      result final = COUNTER_OFFER /\ alternatives final = alternatives simulated).
Proof.
  intros Hp. unfold KVStore.applyDecisionPolicy. monad_step. rewrite Hp.
  destruct simulated as [r k v rs alts tg ap pr].
  destruct r, alts; cbn; (split; [split|]); intros; intuition congruence.
Qed.

(** C4, witness: a range violation of the example, which comes with
    alternatives. *)
Lemma applyDecisionPolicy_safe_default_witness :
  let simulated := answer (KVStore.simulateWrite "score" "150") guarded_world in
  let final := answer (KVStore.applyDecisionPolicy simulated) guarded_world in
  (result final = REJECT <->
     result simulated = REJECT
     \/ (result simulated = COUNTER_OFFER /\ alternatives simulated = []))
  /\ (result simulated = COUNTER_OFFER -> alternatives simulated <> [] ->
      result final = COUNTER_OFFER /\ alternatives final = alternatives simulated).
Proof.
  apply (applyDecisionPolicy_safe_default guarded_world). reflexivity.
Defined.

(** ** Simulation of a proposed write *)

Lemma simulate_loop_reject value pre g post :
  Forall (fun h => fst (Guard.evaluate h value) <> REJECT) pre ->
  fst (Guard.evaluate g value) = REJECT ->
  forall evaluation allAccepted collected,
    let final :=
      KVStore.simulate_loop (pre ++ g :: post) value evaluation allAccepted collected in
    result final = REJECT
    /\ reason final = snd (Guard.evaluate g value)
    /\ alternatives final = alternatives evaluation
    /\ triggeredGuards final =
         triggeredGuards evaluation
         ++ map Guard.name (counter_offering value pre) ++ [Guard.name g].
Proof.
  intros Hpre Hg. induction Hpre as [|h pre Hh _ IH];
    intros evaluation allAccepted collected.
  - cbn [app KVStore.simulate_loop].
    destruct (Guard.evaluate g value) as [r rs]. cbn in Hg. subst r.
    cbn. auto.
  - cbn [app KVStore.simulate_loop]. unfold counter_offering.
    rewrite filter_cons.
    destruct (Guard.evaluate h value) as [r rs] eqn:Hev. cbn [fst] in *.
    destruct r; [| congruence |].
    + rewrite decide_False by discriminate. apply IH.
    + rewrite decide_True by reflexivity.
      destruct (IH (KVStore.with_reason
                      (if nonempty (reason evaluation)
                       then reason evaluation +:+ "; " +:+ rs else rs)
                      (KVStore.with_triggeredGuards
                         (triggeredGuards evaluation ++ [Guard.name h]) evaluation))
                   false
                   (KVStore.merge_alternatives collected
                      (Guard.generateAlternatives h value)))
        as (Hr & Hrs & Ha & Ht).
      cbv zeta. rewrite Hr, Hrs, Ha, Ht. cbn. rewrite <- app_assoc.
      repeat split; reflexivity.
Qed.

(** The guards after the first rejecting one play no part. *)
Lemma simulate_loop_stops value pre g post post' :
  Forall (fun h => fst (Guard.evaluate h value) <> REJECT) pre ->
  fst (Guard.evaluate g value) = REJECT ->
  forall evaluation allAccepted collected,
    KVStore.simulate_loop (pre ++ g :: post) value evaluation allAccepted collected
    = KVStore.simulate_loop (pre ++ g :: post') value evaluation allAccepted collected.
Proof.
  intros Hpre Hg. induction Hpre as [|h pre Hh _ IH];
    intros evaluation allAccepted collected; cbn [app KVStore.simulate_loop].
  - destruct (Guard.evaluate g value) as [r rs]. cbn in Hg. subst r. reflexivity.
  - destruct (Guard.evaluate h value) as [[| |] rs]; [apply IH | reflexivity | apply IH].
Qed.

Lemma first_reject value (gs : list Guard.t) :
  Exists (fun h => fst (Guard.evaluate h value) = REJECT) gs ->
  exists pre g post,
    gs = pre ++ g :: post
    /\ Forall (fun h => fst (Guard.evaluate h value) <> REJECT) pre
    /\ fst (Guard.evaluate g value) = REJECT.
Proof.
  induction gs as [|h gs IH]; intros Hex; [inversion Hex|].
  destruct (decide (fst (Guard.evaluate h value) = REJECT)) as [Hh|Hh].
  - exists [], h, gs. repeat split; [constructor | exact Hh].
  - inversion Hex as [? ? Hbad|? ? Hrest]; subst; [contradiction|].
    destruct (IH Hrest) as (pre & g & post & -> & Hpre & Hg).
    exists (h :: pre), g, post. repeat split; [constructor; assumption | exact Hg].
Qed.

Lemma simulateWrite_unfold key value w g gs :
  KVStore.getGuardsForKey key w = g :: gs ->
  answer (KVStore.simulateWrite key value) w
  = KVStore.simulate_loop (g :: gs) value
      (mkWriteEvaluation ACCEPT key value EmptyString [] [] SAFE_DEFAULT EmptyString) true [].
Proof.
  intros H. unfold KVStore.simulateWrite. monad_step. rewrite H. reflexivity.
Qed.

(** C5, as the code has it: when some applicable enabled guard evaluates to
    [REJECT], the simulation is [REJECT] with the reason of the first such
    guard, carries no alternatives, and does not depend on the guards
    registered after that guard; [triggeredGuards] lists the guards
    evaluated before it that produced [COUNTER_OFFER], in registration order,
    followed by the rejecting guard. *)
Theorem simulateWrite_reject (w : World) (key value : string) :
  Exists (fun h => fst (Guard.evaluate h value) = REJECT)
         (KVStore.getGuardsForKey key w) ->
  exists pre g post,
    KVStore.getGuardsForKey key w = pre ++ g :: post
    /\ Forall (fun h => fst (Guard.evaluate h value) <> REJECT) pre
    /\ fst (Guard.evaluate g value) = REJECT
    /\ let final := answer (KVStore.simulateWrite key value) w in
       result final = REJECT
       /\ reason final = snd (Guard.evaluate g value)
       /\ alternatives final = []
       /\ triggeredGuards final =
            map Guard.name (counter_offering value pre) ++ [Guard.name g]
       /\ (counter_offering value pre = [] -> triggeredGuards final = [Guard.name g])
       /\ forall w' post',
            KVStore.getGuardsForKey key w' = pre ++ g :: post' ->
            answer (KVStore.simulateWrite key value) w' = final.
Proof.
  intros Hex. destruct (first_reject _ _ Hex) as (pre & g & post & Hgs & Hpre & Hg).
  exists pre, g, post. split; [exact Hgs|]. split; [exact Hpre|]. split; [exact Hg|].
  assert (Hne : exists h hs, pre ++ g :: post = h :: hs).
  { destruct pre; cbn; eauto. }
  destruct Hne as (h & hs & Hcons).
  cbv zeta. rewrite (simulateWrite_unfold key value w h hs) by congruence.
  rewrite <- Hcons.
  destruct (simulate_loop_reject value pre g post Hpre Hg
              (mkWriteEvaluation ACCEPT key value EmptyString [] [] SAFE_DEFAULT EmptyString) true [])
    as (Hr & Hrs & Ha & Ht).
  cbn in Ha, Ht. repeat split; try assumption.
  - intros Hnone. rewrite Ht, Hnone. reflexivity.
  - intros w' post' Hgs'.
    assert (Hne' : exists h' hs', pre ++ g :: post' = h' :: hs').
    { destruct pre; cbn; eauto. }
    destruct Hne' as (h' & hs' & Hcons').
    rewrite (simulateWrite_unfold key value w' h' hs') by congruence.
    rewrite <- Hcons'. symmetry. apply simulate_loop_stops; assumption.
Qed.

(** C5, witness: the range guard rejects a value that is not a number. *)
Lemma simulateWrite_reject_witness :
  exists pre g post,
    KVStore.getGuardsForKey "score" guarded_world = pre ++ g :: post
    /\ Forall (fun h => fst (Guard.evaluate h "abc") <> REJECT) pre
    /\ fst (Guard.evaluate g "abc") = REJECT
    /\ let final := answer (KVStore.simulateWrite "score" "abc") guarded_world in
       result final = REJECT
       /\ reason final = snd (Guard.evaluate g "abc")
       /\ alternatives final = []
       /\ triggeredGuards final =
            map Guard.name (counter_offering "abc" pre) ++ [Guard.name g]
       /\ (counter_offering "abc" pre = [] -> triggeredGuards final = [Guard.name g])
       /\ forall w' post',
            KVStore.getGuardsForKey "score" w' = pre ++ g :: post' ->
            answer (KVStore.simulateWrite "score" "abc") w' = final.
Proof.
  apply (simulateWrite_reject guarded_world "score" "abc").
  vm_compute. apply Exists_cons_tl, Exists_cons_hd. reflexivity.
Defined.

(** C5, counterexample to the property as specified: the range guard is
    applicable and rejects, yet [triggeredGuards] also names the length guard
    that counter-offered before it. *)
Lemma simulateWrite_reject_counterexample :
  range_guard ∈ KVStore.getGuardsForKey "score" guarded_world
  /\ Guard.enabled range_guard = true
  /\ fst (Guard.evaluate range_guard "abc") = REJECT
  /\ fst (Guard.evaluate length_guard "abc") = COUNTER_OFFER
  /\ triggeredGuards (answer (KVStore.simulateWrite "score" "abc") guarded_world)
     = ["len"; "rng"]
  /\ triggeredGuards (answer (KVStore.simulateWrite "score" "abc") guarded_world)
     <> [Guard.name range_guard].
Proof.
  split; [|repeat split; try reflexivity; discriminate].
  vm_compute. apply list_elem_of_further, list_elem_of_here.
Qed.

(** ** Proposals do not change the state *)

Lemma simulateWrite_frame key value w :
  run (KVStore.simulateWrite key value) w = w.
Proof.
  unfold KVStore.simulateWrite. monad_step.
  destruct (KVStore.getGuardsForKey key w); reflexivity.
Qed.

Lemma proposeSet_unfold key value w :
  answer (KVStore.proposeSet key value) w
  = answer (KVStore.applyDecisionPolicy (answer (KVStore.simulateWrite key value) w)) w.
Proof.
  unfold KVStore.proposeSet.
  pose proof (simulateWrite_frame key value w) as Hf.
  monad_step. rewrite Hf. reflexivity.
Qed.

(** ** Enum guards under SafeDefault *)

Lemma enum_evaluate allowed name pattern en value :
  fst (Guard.evaluate (Guard.mk name pattern en (Guard.EnumGuard allowed)) value)
  = if bool_decide (value ∈ allowed) then ACCEPT else COUNTER_OFFER.
Proof. unfold Guard.evaluate. cbn. destruct (bool_decide _); reflexivity. Qed.

Lemma enum_alternatives_nonempty allowed value :
  allowed <> [] -> Guard.enum_alternatives allowed value <> [].
Proof.
  intros Hne. unfold Guard.enum_alternatives.
  destruct (Guard.enum_partial _ _ _) as [|a alts]; [|discriminate].
  destruct allowed; [contradiction | discriminate].
Qed.

Lemma merge_alternatives_nonempty collected guardAlts :
  collected <> [] \/ guardAlts <> [] ->
  KVStore.merge_alternatives collected guardAlts <> [].
Proof.
  revert collected. induction guardAlts as [|a rest IH]; intros collected H.
  - cbn. destruct H; [assumption | contradiction].
  - cbn. destruct (existsb _ collected) eqn:Hex.
    + apply IH. left. intros ->. discriminate.
    + apply IH. left. destruct collected; discriminate.
Qed.

Lemma enum_nonempty_kind g :
  enum_nonempty g = true ->
  exists a allowed, Guard.kind g = Guard.EnumGuard (a :: allowed).
Proof.
  unfold enum_nonempty. destruct (Guard.kind g) as [| [|a allowed] |]; try discriminate.
  eauto.
Qed.

(** A simulation over guards that accept or are Enum guards with allowed
    values ends in a counter-offer with alternatives as soon as one guard
    does not accept. *)
Lemma simulate_loop_enum_only value gs :
  Forall (accepts_or_enum value) gs ->
  forall evaluation allAccepted collected,
    (allAccepted = false -> collected <> []) ->
    (allAccepted = true -> Exists (fun h => fst (Guard.evaluate h value) <> ACCEPT) gs) ->
    let final := KVStore.simulate_loop gs value evaluation allAccepted collected in
    result final = COUNTER_OFFER /\ alternatives final <> [].
Proof.
  induction 1 as [|h gs Hh _ IH]; intros evaluation allAccepted collected Hc Hex.
  - destruct allAccepted.
    + specialize (Hex eq_refl). inversion Hex.
    + cbn. split; [reflexivity | auto].
  - cbn [KVStore.simulate_loop].
    destruct (Guard.evaluate h value) as [r rs] eqn:Hev.
    destruct r.
    + apply IH; [exact Hc|]. intros Ht. specialize (Hex Ht).
      inversion Hex as [? ? Hbad|]; subst; [|assumption].
      rewrite Hev in Hbad. contradiction.
    + exfalso. destruct Hh as [Hacc|Hen]; [rewrite Hev in Hacc; discriminate|].
      destruct (enum_nonempty_kind _ Hen) as (a & allowed & Hk).
      destruct h as [n p e k]. cbn in Hk. subst k.
      pose proof (enum_evaluate (a :: allowed) n p e value) as He.
      rewrite Hev in He. cbn in He. destruct (bool_decide _); discriminate.
    + apply IH; [|discriminate]. intros _.
      apply merge_alternatives_nonempty. right.
      destruct Hh as [Hacc|Hen]; [rewrite Hev in Hacc; discriminate|].
      destruct (enum_nonempty_kind _ Hen) as (a & allowed & Hk).
      unfold Guard.generateAlternatives. rewrite Hk.
      apply enum_alternatives_nonempty. discriminate.
Qed.

(** C10: an Enum guard with a non-empty allowed list evaluates a value
    outside the list to [COUNTER_OFFER] and generates at least one
    alternative; hence, when every applicable guard of the key accepts or is
    such an Enum guard, [SAFE_DEFAULT] keeps the proposal a [COUNTER_OFFER]
    and does not turn it into [REJECT]. *)
Theorem enum_violation_counter_offer (g : Guard.t) (allowed : list string)
    (value : string) :
  Guard.kind g = Guard.EnumGuard allowed ->
  allowed <> [] ->
  value ∉ allowed ->
  fst (Guard.evaluate g value) = COUNTER_OFFER
  /\ Guard.generateAlternatives g value <> []
  /\ forall (w : World) (key : string),
       decisionPolicy w = SAFE_DEFAULT ->
       g ∈ KVStore.getGuardsForKey key w ->
       Forall (accepts_or_enum value) (KVStore.getGuardsForKey key w) ->
       let final := answer (KVStore.proposeSet key value) w in
       result final = COUNTER_OFFER /\ result final <> REJECT
       /\ alternatives final <> [].
Proof.
  intros Hk Hne Hnotin.
  assert (Hev : fst (Guard.evaluate g value) = COUNTER_OFFER).
  { destruct g as [n p e k]. cbn in Hk. subst k. rewrite enum_evaluate.
    rewrite bool_decide_eq_false_2 by exact Hnotin. reflexivity. }
  split; [exact Hev|]. split.
  { unfold Guard.generateAlternatives. rewrite Hk.
    apply enum_alternatives_nonempty, Hne. }
  intros w key Hp Hin Hall.
  rewrite proposeSet_unfold.
  destruct (KVStore.getGuardsForKey key w) as [|h hs] eqn:Hgs;
    [apply elem_of_nil in Hin; contradiction|].
  rewrite (simulateWrite_unfold key value w h hs Hgs).
  set (start := mkWriteEvaluation ACCEPT key value EmptyString [] [] SAFE_DEFAULT EmptyString).
  destruct (simulate_loop_enum_only value (h :: hs) Hall start true [])
    as [Hr Ha].
  { discriminate. }
  { intros _. apply Exists_exists. exists g. split; [exact Hin|].
    rewrite Hev. discriminate. }
  cbv zeta in Hr, Ha.
  destruct (safe_default_keeps_offer w
              (KVStore.simulate_loop (h :: hs) value start true []) Hp Hr Ha)
    as [Hr' Ha'].
  cbv zeta. rewrite Hr', Ha'. repeat split; [discriminate | exact Ha].
Qed.

(** C10, witness: the status guard of the example on a value that is not
    one of its three states. *)
Lemma enum_violation_counter_offer_witness :
  fst (Guard.evaluate enum_guard "unknown") = COUNTER_OFFER
  /\ Guard.generateAlternatives enum_guard "unknown" <> []
  /\ result (answer (KVStore.proposeSet "status" "unknown") guarded_world)
     = COUNTER_OFFER.
Proof.
  destruct (enum_violation_counter_offer enum_guard
              ["active"; "inactive"; "pending"] "unknown" eq_refl)
    as (H1 & H2 & H3).
  - discriminate.
  - intros H. apply (bool_decide_pack _) in H. vm_compute in H. exact H.
  - split; [exact H1|]. split; [exact H2|].
    apply (H3 guarded_world "status").
    + reflexivity.
    + vm_compute. apply list_elem_of_further, list_elem_of_here.
    + replace (KVStore.getGuardsForKey "status" guarded_world)
        with [length_guard; enum_guard] by (vm_compute; reflexivity).
      constructor; [left; reflexivity|].
      constructor; [right; reflexivity|]. constructor.
Defined.

(** C7: [proposeSet] leaves the whole state as it was: the version store,
    the guard set, the decision policy, the WAL object and its file, and the
    number of clock readings; its evaluation depends on the guard set and the
    decision policy only, so a second call returns the same evaluation. *)
Theorem proposeSet_side_effect_free (w : World) (key value : string) :
  let w' := run (KVStore.proposeSet key value) w in
  w' = w
  /\ store w' = store w /\ guards w' = guards w
  /\ decisionPolicy w' = decisionPolicy w
  /\ wal_file w' = wal_file w /\ enabled w' = enabled w
  /\ ticks w' = ticks w /\ io_ops w' = io_ops w
  /\ answer (KVStore.proposeSet key value) w'
     = answer (KVStore.proposeSet key value) w
  /\ forall u : World,
       guards u = guards w -> decisionPolicy u = decisionPolicy w ->
       answer (KVStore.proposeSet key value) u
       = answer (KVStore.proposeSet key value) w.
Proof.
  assert (Hrun : run (KVStore.proposeSet key value) w = w).
  { unfold KVStore.proposeSet.
    pose proof (simulateWrite_frame key value w) as Hf.
    monad_step. rewrite Hf. reflexivity. }
  cbv zeta. rewrite Hrun. repeat split.
  intros u Hg Hp. rewrite !proposeSet_unfold.
  assert (Hsim : answer (KVStore.simulateWrite key value) u
                 = answer (KVStore.simulateWrite key value) w).
  { unfold KVStore.simulateWrite, KVStore.getGuardsForKey. monad_step.
    rewrite Hg. destruct (filter _ (guards w)); reflexivity. }
  rewrite Hsim. unfold KVStore.applyDecisionPolicy. monad_step.
  rewrite Hp. reflexivity.
Qed.

(** ** Failing WAL writes *)

Ltac same_memory_split :=
  unfold same_memory in *; cbn in *; intuition (try congruence).

Lemma same_memory_applyRetention key w1 w2 :
  same_memory w1 w2 ->
  same_memory (run (KVStore.applyRetention key) w1)
              (run (KVStore.applyRetention key) w2).
Proof.
  intros H. unfold KVStore.applyRetention, KVStore.put_versions, now. monad_step.
  pose proof H as (Hs & Hr & _ & _ & _ & _ & _ & _ & Hc & Ht).
  rewrite <- Hs, <- Hr.
  destruct (store w1 !! key) as [[|v l]|]; [exact H | | exact H].
  destruct (mode (retentionPolicy w1)).
  - exact H.
  - destruct (_ && _); same_memory_split.
  - destruct (0 <? _); [|exact H].
    rewrite <- Hc, <- Ht. same_memory_split.
Qed.

Lemma same_memory_emplace_back key v w1 w2 :
  same_memory w1 w2 ->
  same_memory (run (KVStore.emplace_back key v) w1)
              (run (KVStore.emplace_back key v) w2).
Proof.
  intros H. unfold KVStore.emplace_back. monad_step.
  destruct H as (Hs & H). rewrite <- Hs. same_memory_split.
Qed.

(** A record whose write is attempted changes, whatever the outcome, only
    the WAL file, the stream state and the count of stream operations. *)
Lemma log_record_memory text w :
  same_memory (run (WAL.log_record text) w) w.
Proof.
  unfold WAL.log_record, WAL.put, next_io. monad_step.
  destruct (negb (enabled w) || negb (logFile_open w)); [same_memory_split|].
  destruct (logFile_good w); [|same_memory_split].
  cbn. destruct (io w (io_ops w)); same_memory_split.
Qed.

Lemma same_memory_trans w1 w2 w3 :
  same_memory w1 w2 -> same_memory w2 w3 -> same_memory w1 w3.
Proof. same_memory_split. Qed.

Lemma same_memory_sym w1 w2 : same_memory w1 w2 -> same_memory w2 w1.
Proof. same_memory_split. Qed.

Lemma same_memory_healthy w : same_memory w (healthy w).
Proof. same_memory_split. Qed.

Lemma set_memory key value w1 w2 :
  same_memory w1 w2 ->
  same_memory (run (KVStore.set key value) w1) (run (KVStore.set key value) w2)
  /\ answer (KVStore.set key value) w1 = OK.
Proof.
  intros H. split; [|reflexivity].
  assert (Hstart : same_memory (with_ticks (S (ticks w1)) w1)
                               (with_ticks (S (ticks w2)) w2)).
  { same_memory_split. }
  assert (Hc : clock w1 (ticks w1) = clock w2 (ticks w2)).
  { destruct H as (_ & _ & _ & _ & _ & _ & _ & _ & Hc & Ht).
    rewrite Hc, Ht. reflexivity. }
  assert (Ha : KVStore.wal_active (with_ticks (S (ticks w1)) w1)
               = KVStore.wal_active (with_ticks (S (ticks w2)) w2)).
  { unfold KVStore.wal_active, WAL.isEnabled. same_memory_split. }
  unfold KVStore.set, run, now. unfold mbind, M_bind, mret, M_ret, gets.
  cbn [fst snd]. rewrite Ha, Hc.
  apply same_memory_applyRetention, same_memory_emplace_back.
  clear Ha.
  destruct (KVStore.wal_active (with_ticks (S (ticks w2)) w2)); [|exact Hstart].
  eapply same_memory_trans; [apply log_record_memory|].
  eapply same_memory_trans; [exact Hstart|].
  apply same_memory_sym, log_record_memory.
Qed.

Lemma applyRetention_enabled key w :
  enabled (run (KVStore.applyRetention key) w) = enabled w.
Proof.
  unfold KVStore.applyRetention, KVStore.put_versions, now. monad_step.
  destruct (store w !! key) as [[|v l]|]; try reflexivity.
  destruct (mode (retentionPolicy w)); try reflexivity.
  - destruct (_ && _); reflexivity.
  - destruct (0 <? _); reflexivity.
Qed.

Lemma log_record_enabled text w :
  enabled (run (WAL.log_record text) w) = enabled w.
Proof.
  unfold WAL.log_record, WAL.put, next_io. monad_step.
  destruct (negb (enabled w) || negb (logFile_open w)); [reflexivity|].
  destruct (logFile_good w); [|reflexivity].
  cbn. destruct (io w (io_ops w)); reflexivity.
Qed.

(** A failed write appends nothing to the WAL file. *)
Lemma log_record_lost text w :
  logFile_good w = true -> io w (io_ops w) <> IoDone ->
  wal_file (run (WAL.log_record text) w) = wal_file w.
Proof.
  intros Hg Hio. unfold WAL.log_record, WAL.put, next_io. monad_step.
  destruct (negb (enabled w) || negb (logFile_open w)); [reflexivity|].
  rewrite Hg. cbn. destruct (io w (io_ops w)); [contradiction | reflexivity ..].
Qed.

Lemma set_enabled key value w :
  enabled (run (KVStore.set key value) w) = enabled w.
Proof.
  unfold KVStore.set, run, now. unfold mbind, M_bind, mret, M_ret, gets.
  cbn [fst snd].
  pose proof (applyRetention_enabled key) as Har. unfold run in Har. rewrite Har.
  unfold KVStore.emplace_back, modify. cbn [fst snd with_store enabled].
  destruct (KVStore.wal_active _); [|reflexivity].
  apply (log_record_enabled _ (with_ticks (S (ticks w)) w)).
Qed.

Lemma set_history_full key value w :
  mode (retentionPolicy w) = FULL ->
  history key (run (KVStore.set key value) w)
  = history key w ++ [mkVersion (clock w (ticks w)) value].
Proof.
  intros Hfull.
  unfold history, KVStore.getHistory, KVStore.set, now.
  unfold answer, run, mbind, M_bind, mret, M_ret, gets. cbn [fst snd].
  set (logged := (if KVStore.wal_active (with_ticks (S (ticks w)) w)
                  then WAL.logSet key value (clock w (ticks w))
                  else fun w0 => (OK, w0)) (with_ticks (S (ticks w)) w)).
  assert (Hm : store (snd logged) = store w
               /\ retentionPolicy (snd logged) = retentionPolicy w).
  { subst logged. destruct (KVStore.wal_active _); [|split; reflexivity].
    destruct (log_record_memory
                ("SET " +:+ key +:+ " " +:+ value +:+ " "
                 +:+ to_string (to_epoch_ms (clock w (ticks w))) +:+ nl)
                (with_ticks (S (ticks w)) w)) as (Hs & Hr & _).
    split; assumption. }
  destruct Hm as (Hs & Hr).
  unfold KVStore.applyRetention, KVStore.emplace_back.
  unfold mbind, M_bind, mret, M_ret, gets, modify. cbn [fst snd].
  cbn [store with_store retentionPolicy]. rewrite lookup_insert_eq, Hr, Hfull, Hs.
  destruct (default [] (store w !! key) ++ _) eqn:Hd; cbn;
    rewrite lookup_insert_eq; reflexivity.
Qed.

Lemma same_memory_delete key w1 w2 :
  same_memory w1 w2 ->
  same_memory (with_store (delete key (store w1)) w1)
              (with_store (delete key (store w2)) w2).
Proof. same_memory_split. Qed.

Lemma del_memory key w1 w2 :
  same_memory w1 w2 ->
  same_memory (run (KVStore.del key) w1) (run (KVStore.del key) w2)
  /\ answer (KVStore.del key) w1 = answer (KVStore.del key) w2
  /\ enabled (run (KVStore.del key) w1) = enabled w1
  /\ store (run (KVStore.del key) w1) !! key = None.
Proof.
  intros H. pose proof H as (Hs & _).
  assert (Ha : KVStore.wal_active w1 = KVStore.wal_active w2).
  { unfold KVStore.wal_active, WAL.isEnabled. same_memory_split. }
  unfold KVStore.del, WAL.logDel. monad_step. rewrite <- Hs.
  destruct (store w1 !! key) eqn:Hk;
    [| split; [exact H | split; [reflexivity | split; [reflexivity | exact Hk]]]].
  rewrite Ha.
  destruct (KVStore.wal_active w2); cbn [fst snd].
  - pose proof (log_record_memory ("DEL " +:+ key +:+ nl) w1) as H1.
    pose proof (log_record_memory ("DEL " +:+ key +:+ nl) w2) as H2.
    pose proof (log_record_enabled ("DEL " +:+ key +:+ nl) w1) as H3.
    unfold run in *. split; [|split; [reflexivity|split]].
    + apply same_memory_delete.
      eapply same_memory_trans; [exact H1|].
      eapply same_memory_trans; [exact H|]. apply same_memory_sym, H2.
    + exact H3.
    + cbn. apply lookup_delete_eq.
  - split; [apply same_memory_delete, H | split; [reflexivity|split]].
    + reflexivity.
    + cbn. apply lookup_delete_eq.
Qed.

Lemma setDecisionPolicy_memory p w1 w2 :
  same_memory w1 w2 ->
  same_memory (run (KVStore.setDecisionPolicy p) w1)
              (run (KVStore.setDecisionPolicy p) w2)
  /\ enabled (run (KVStore.setDecisionPolicy p) w1) = enabled w1
  /\ decisionPolicy (run (KVStore.setDecisionPolicy p) w1) = p.
Proof.
  intros H.
  assert (Ha : KVStore.wal_active (with_decisionPolicy p w1)
               = KVStore.wal_active (with_decisionPolicy p w2)).
  { unfold KVStore.wal_active, WAL.isEnabled. same_memory_split. }
  assert (Hstart : same_memory (with_decisionPolicy p w1) (with_decisionPolicy p w2)).
  { same_memory_split. }
  unfold KVStore.setDecisionPolicy, WAL.logPolicy. monad_step. rewrite Ha.
  destruct (KVStore.wal_active (with_decisionPolicy p w2)); cbn [fst snd].
  - pose proof (log_record_memory ("POLICY SET " +:+ policy_name p +:+ nl)
                  (with_decisionPolicy p w1)) as H1.
    pose proof (log_record_memory ("POLICY SET " +:+ policy_name p +:+ nl)
                  (with_decisionPolicy p w2)) as H2.
    pose proof (log_record_enabled ("POLICY SET " +:+ policy_name p +:+ nl)
                  (with_decisionPolicy p w1)) as H3.
    unfold run in *. split; [|split].
    + eapply same_memory_trans; [exact H1|].
      eapply same_memory_trans; [exact Hstart|]. apply same_memory_sym, H2.
    + exact H3.
    + destruct H1 as (_ & _ & Hp & _). exact Hp.
  - split; [exact Hstart | split; reflexivity].
Qed.

(** C6, as the code has it: when the write of a WAL record fails, the WAL
    keeps its enabled flag (no record write ever disables it) and the record
    is lost, while the mutation completes in memory exactly as with a healthy
    log: [set] returns OK and appends its version, [del] returns its normal
    result and removes the key, [setDecisionPolicy] installs the policy. *)
Theorem wal_write_failure (w : World) (key value : string) (p : DecisionPolicy) :
  next_write_fails w ->
  (answer (KVStore.set key value) w = OK
   /\ same_memory (run (KVStore.set key value) w)
                  (run (KVStore.set key value) (healthy w))
   /\ (mode (retentionPolicy w) = FULL ->
       history key (run (KVStore.set key value) w)
       = history key w ++ [mkVersion (clock w (ticks w)) value])
   /\ WAL.isEnabled (run (KVStore.set key value) w) = true)
  /\ (answer (KVStore.del key) w = answer (KVStore.del key) (healthy w)
      /\ same_memory (run (KVStore.del key) w) (run (KVStore.del key) (healthy w))
      /\ store (run (KVStore.del key) w) !! key = None
      /\ WAL.isEnabled (run (KVStore.del key) w) = true)
  /\ (decisionPolicy (run (KVStore.setDecisionPolicy p) w) = p
      /\ same_memory (run (KVStore.setDecisionPolicy p) w)
                     (run (KVStore.setDecisionPolicy p) (healthy w))
      /\ WAL.isEnabled (run (KVStore.setDecisionPolicy p) w) = true)
  /\ forall text, wal_file (run (WAL.log_record text) w) = wal_file w
                  /\ WAL.isEnabled (run (WAL.log_record text) w) = true.
Proof.
  intros (Hactive & Hopen & Hgood & Hio).
  assert (Hen : enabled w = true).
  { unfold KVStore.wal_active, WAL.isEnabled in Hactive.
    destruct (enabled w); [reflexivity|].
    rewrite andb_false_r in Hactive. discriminate. }
  pose proof (same_memory_healthy w) as Hh.
  unfold WAL.isEnabled. split; [|split; [|split]].
  - destruct (set_memory key value w (healthy w) Hh) as [Hm Ha].
    split; [exact Ha|]. split; [exact Hm|]. split; [apply set_history_full|].
    rewrite set_enabled. exact Hen.
  - destruct (del_memory key w (healthy w) Hh) as (Hm & Ha & He & Hk).
    split; [exact Ha|]. split; [exact Hm|]. split; [exact Hk|].
    rewrite He. exact Hen.
  - destruct (setDecisionPolicy_memory p w (healthy w) Hh) as (Hm & He & Hp).
    split; [exact Hp|]. split; [exact Hm|]. rewrite He. exact Hen.
  - intros text. split; [apply log_record_lost; assumption|].
    rewrite log_record_enabled. exact Hen.
Qed.

(** C6, witness: a write on the example process whose streams fail. *)
Lemma wal_write_failure_witness :
  answer (KVStore.set "k" "v") failing_world = OK
  /\ history "k" (run (KVStore.set "k" "v") failing_world)
     = [mkVersion 1000000000 "v"]
  /\ WAL.isEnabled (run (KVStore.set "k" "v") failing_world) = true.
Proof.
  destruct (wal_write_failure failing_world "k" "v" STRICT)
    as ((Hok & _ & Hhist & Hen) & _).
  - repeat split; discriminate.
  - split; [exact Hok|]. split; [|exact Hen].
    rewrite Hhist by reflexivity. reflexivity.
Defined.

(** C6, counterexample to the property as specified: the write of the SET record
    fails, by error bits or by an exception, and the WAL is still enabled
    afterwards. *)
Lemma wal_write_failure_counterexample :
  next_write_fails failing_world
  /\ WAL.isEnabled (run (KVStore.set "k" "v") failing_world) = true
  /\ next_write_fails throwing_world
  /\ answer (WAL.logSet "k" "v" 1000000000) throwing_world = ERROR
  /\ WAL.isEnabled (run (KVStore.set "k" "v") throwing_world) = true
  /\ WAL.isEnabled (run (KVStore.set "k" "v") failing_world) <> false.
Proof.
  repeat split; discriminate.
Qed.

(** ** Version order across a restart *)

(** Outside recovery the order is kept: appending a version that is not
    older than the last one, pruning and deleting preserve it. *)
Lemma nondecreasing_snoc l v :
  nondecreasing l = true ->
  (forall u, last l = Some u -> timestamp u <= timestamp v) ->
  nondecreasing (l ++ [v]) = true.
Proof.
  induction l as [|a l IH]; intros Hs Hlast; [reflexivity|].
  destruct l as [|b l].
  - cbn. rewrite andb_true_r. apply Z.leb_le, Hlast. reflexivity.
  - cbn [nondecreasing] in Hs. apply andb_true_iff in Hs as [Hab Hs].
    change ((a :: b :: l) ++ [v]) with (a :: (b :: l) ++ [v]).
    cbn [nondecreasing app]. rewrite Hab. cbn [andb].
    apply IH; [exact Hs|]. intros u Hu. apply Hlast. exact Hu.
Qed.

Lemma nondecreasing_tail v l :
  nondecreasing (v :: l) = true -> nondecreasing l = true.
Proof. intros H. apply (nondecreasing_cons v l H). Qed.

Lemma nondecreasing_drop n l :
  nondecreasing l = true -> nondecreasing (drop n l) = true.
Proof.
  revert l. induction n as [|n IH]; intros l Hs; [rewrite drop_0; exact Hs|].
  destruct l as [|v l]; [reflexivity|]. cbn [drop].
  apply IH, (nondecreasing_tail v l Hs).
Qed.

Lemma nondecreasing_drop_while p l :
  nondecreasing l = true -> nondecreasing (drop_while p l) = true.
Proof.
  induction l as [|v l IH]; intros Hs; [reflexivity|].
  cbn [drop_while]. destruct (p v); [|exact Hs].
  apply IH, (nondecreasing_tail v l Hs).
Qed.

Lemma history_lookup key w : history key w = default [] (store w !! key).
Proof. reflexivity. Qed.

Lemma applyRetention_keeps_order key w k :
  nondecreasing (history k w) = true ->
  nondecreasing (history k (run (KVStore.applyRetention key) w)) = true.
Proof.
  intros Hs. rewrite !history_lookup in *.
  unfold KVStore.applyRetention, KVStore.put_versions, now. monad_step.
  destruct (store w !! key) as [[|v l]|] eqn:Hk; try exact Hs.
  destruct (mode (retentionPolicy w)); try exact Hs.
  - destruct (_ && _); [|exact Hs]. cbn [fst snd store with_store].
    destruct (decide (key = k)) as [->|Hne].
    + rewrite lookup_insert_eq. rewrite Hk in Hs.
      apply nondecreasing_drop, Hs.
    + rewrite lookup_insert_ne by exact Hne. exact Hs.
  - destruct (0 <? _); [|exact Hs]. cbn [fst snd store with_store with_ticks].
    destruct (decide (key = k)) as [->|Hne].
    + rewrite lookup_insert_eq. rewrite Hk in Hs.
      apply (nondecreasing_drop_while _ (v :: l)), Hs.
    + rewrite lookup_insert_ne by exact Hne. exact Hs.
Qed.

Lemma setAtTime_keeps_order key value t w k :
  nondecreasing (history k w) = true ->
  (forall u, last (history key w) = Some u -> timestamp u <= t) ->
  nondecreasing (history k (run (KVStore.setAtTime key value t) w)) = true.
Proof.
  intros Hs Hlast. unfold KVStore.setAtTime, run, mbind, M_bind, mret, M_ret.
  cbn [fst snd]. apply (applyRetention_keeps_order key).
  rewrite !history_lookup in *. unfold KVStore.emplace_back, modify.
  cbn [fst snd store with_store].
  destruct (decide (key = k)) as [->|Hne].
  - rewrite lookup_insert_eq. apply nondecreasing_snoc; [exact Hs | exact Hlast].
  - rewrite lookup_insert_ne by exact Hne. exact Hs.
Qed.

Lemma set_keeps_order key value w k :
  nondecreasing (history k w) = true ->
  (forall u, last (history key w) = Some u -> timestamp u <= clock w (ticks w)) ->
  nondecreasing (history k (run (KVStore.set key value) w)) = true.
Proof.
  intros Hs Hlast.
  unfold KVStore.set, now, run, mbind, M_bind, mret, M_ret, gets. cbn [fst snd].
  apply (applyRetention_keeps_order key).
  set (logged := (if KVStore.wal_active (with_ticks (S (ticks w)) w)
                  then WAL.logSet key value (clock w (ticks w))
                  else fun w0 => (OK, w0)) (with_ticks (S (ticks w)) w)).
  assert (Hstore : store (snd logged) = store w).
  { subst logged. destruct (KVStore.wal_active _); [|reflexivity].
    apply (log_record_memory _ (with_ticks (S (ticks w)) w)). }
  rewrite !history_lookup in *. unfold KVStore.emplace_back, modify.
  cbn [fst snd store with_store]. rewrite Hstore.
  destruct (decide (key = k)) as [->|Hne].
  - rewrite lookup_insert_eq. apply nondecreasing_snoc; [exact Hs | exact Hlast].
  - rewrite lookup_insert_ne by exact Hne. exact Hs.
Qed.

Lemma del_keeps_order key w k :
  nondecreasing (history k w) = true ->
  nondecreasing (history k (run (KVStore.del key) w)) = true.
Proof.
  intros Hs.
  destruct (del_memory key w w ltac:(unfold same_memory; tauto)) as (_ & _ & _ & Hgone).
  destruct (store w !! key) as [l|] eqn:Hk.
  - destruct (decide (key = k)) as [->|Hne].
    + rewrite history_lookup, Hgone. reflexivity.
    + rewrite !history_lookup in *.
      unfold KVStore.del, WAL.logDel. monad_step. rewrite Hk.
      assert (Hstore : forall u, store (snd ((if KVStore.wal_active w
                          then WAL.log_record ("DEL " +:+ key +:+ nl)
                          else fun w0 => (OK, w0)) u)) = store u).
      { intros u. destruct (KVStore.wal_active w); [|reflexivity].
        apply (log_record_memory _ u). }
      cbn [fst snd store with_store].
      rewrite lookup_delete_ne by exact Hne. rewrite Hstore. exact Hs.
  - unfold KVStore.del. monad_step. rewrite !history_lookup in *.
    rewrite Hk. exact Hs.
Qed.

(** C3, the failing input: one key is written, a snapshot is taken, the key
    is written again, and the process restarts.  The clock only moves
    forward, yet after recovery the history of the key starts with the
    snapshot value stamped with the time of the restart, followed by the WAL
    record with its earlier logged time: the timestamps decrease, and the
    lookup at the time of the second write, answered before the restart, now
    finds nothing. *)
Theorem recovery_breaks_order :
  (forall n, clock snapshot_then_write n < clock snapshot_then_write (S n))
  /\ nondecreasing (history "k" snapshot_then_write) = true
  /\ snapshot_file snapshot_then_write
     = "POLICY SET SAFE_DEFAULT" +:+ nl +:+ "SET k v1" +:+ nl
  /\ wal_file snapshot_then_write = "SET k v2 1001" +:+ nl
  /\ history "k" (Main.boot snapshot_then_write)
     = [mkVersion 1003000000 "v1"; mkVersion 1001000000 "v2"]
  /\ nondecreasing (history "k" (Main.boot snapshot_then_write)) = false
  /\ answer (KVStore.getAtTime "k" 1001500000) snapshot_then_write = Some "v2"
  /\ answer (KVStore.getAtTime "k" 1001500000) (Main.boot snapshot_then_write) = None.
Proof.
  split.
  { assert (Hc : clock snapshot_then_write = clock example_world)
      by reflexivity.
    intros n. rewrite Hc. unfold example_world, clocked_world, clock. lia. }
  repeat split; vm_compute; reflexivity.
Qed.

(** ** Decimal text read back *)

Lemma read_digits_acc (d : Decimal.uint) (acc : positive) :
  read_digits (NilEmpty.string_of_uint d) (Z.pos acc)
  = (Z.pos (Pos.of_uint_acc d acc), EmptyString).
Proof.
  revert acc. induction d; intros acc;
    cbn [NilEmpty.string_of_uint read_digits Pos.of_uint_acc];
    [reflexivity | ..];
    match goal with
    | |- context [isdigit ?c] => change (isdigit c) with true
    end; cbv iota;
    match goal with
    | |- read_digits _ ?a = _ =>
        match goal with
        | |- _ = (Z.pos (Pos.of_uint_acc _ ?b), _) =>
            replace a with (Z.pos b)
              by (match goal with
                  | |- context [digit_val ?c] =>
                      let v := eval vm_compute in (digit_val c) in
                      change (digit_val c) with v
                  end; lia)
        end
    end; apply IHd.
Qed.

Lemma read_digits_uint (d : Decimal.uint) :
  read_digits (NilEmpty.string_of_uint d) 0
  = (Z.of_N (Pos.of_uint d), EmptyString).
Proof.
  induction d; cbn [NilEmpty.string_of_uint read_digits Pos.of_uint];
    [reflexivity | ..];
    match goal with
    | |- context [isdigit ?c] => change (isdigit c) with true
    end; cbv iota.
  - exact IHd.
  - apply (read_digits_acc d 1).
  - apply (read_digits_acc d 2).
  - apply (read_digits_acc d 3).
  - apply (read_digits_acc d 4).
  - apply (read_digits_acc d 5).
  - apply (read_digits_acc d 6).
  - apply (read_digits_acc d 7).
  - apply (read_digits_acc d 8).
  - apply (read_digits_acc d 9).
Qed.

Lemma string_of_uint_digits d : all_digits (NilEmpty.string_of_uint d) = true.
Proof. induction d; cbn; auto. Qed.

Lemma string_of_uint_nonempty d :
  d <> Decimal.Nil -> nonempty (NilEmpty.string_of_uint d) = true.
Proof. destruct d; [contradiction | reflexivity ..]. Qed.

(** [to_string] of a positive number is a non-empty run of digits, which
    reads back as the number. *)
Lemma to_string_pos p :
  to_string (Z.pos p) = NilEmpty.string_of_uint (Pos.to_uint p)
  /\ nonempty (to_string (Z.pos p)) = true
  /\ all_digits (to_string (Z.pos p)) = true
  /\ read_digits (to_string (Z.pos p)) 0 = (Z.pos p, EmptyString).
Proof.
  assert (H : to_string (Z.pos p) = NilEmpty.string_of_uint (Pos.to_uint p)).
  { unfold to_string. cbn [Z.to_int NilZero.string_of_int].
    unfold NilZero.string_of_uint.
    pose proof (Unsigned.to_uint_nonnil p) as Hn.
    destruct (Pos.to_uint p); [contradiction | reflexivity ..]. }
  rewrite H. split; [reflexivity|]. split; [|split].
  - apply string_of_uint_nonempty, Unsigned.to_uint_nonnil.
  - apply string_of_uint_digits.
  - rewrite read_digits_uint, Unsigned.of_to. reflexivity.
Qed.

Lemma all_digits_head s :
  nonempty s = true -> all_digits s = true ->
  exists c r, s = String c r /\ isdigit c = true.
Proof.
  destruct s as [|c r]; [discriminate|]. cbn. intros _ H.
  apply andb_true_iff in H as [Hc _]. eauto.
Qed.

(** The round trip of a timestamp through the log: what [operator<<] wrote
    is what [operator>>] reads. *)
Lemma read_int_to_string z : read_int (to_string z) = Some (z, EmptyString).
Proof.
  destruct z as [|p|p].
  - reflexivity.
  - destruct (to_string_pos p) as (_ & Hne & Hd & Hr).
    destruct (all_digits_head _ Hne Hd) as (c & r & Hs & Hc).
    unfold read_int. rewrite Hs in *.
    destruct c as [[] [] [] [] [] [] [] []]; try discriminate Hc;
      cbv beta iota zeta; rewrite ?Hc, Hr; reflexivity.
  - destruct (to_string_pos p) as (Hs & Hne & Hd & Hr).
    unfold to_string in *. cbn [Z.to_int NilZero.string_of_int] in *.
    destruct (all_digits_head _ Hne Hd) as (c & r & Hs' & Hc).
    unfold read_int. rewrite Hs' in *. rewrite Hc, Hr. reflexivity.
Qed.

(** ** Tokens and lines *)

Lemma app_cons c s t : String c s +:+ t = String c (s +:+ t).
Proof. reflexivity. Qed.

Lemma app_nil_l t : EmptyString +:+ t = t.
Proof. reflexivity. Qed.

Lemma app_nil_r s : s +:+ EmptyString = s.
Proof. induction s as [|c s IH]; [reflexivity|]. rewrite app_cons, IH. reflexivity. Qed.

Lemma app_assoc s t u : (s +:+ t) +:+ u = s +:+ t +:+ u.
Proof.
  induction s as [|c s IH]; [reflexivity|]. rewrite !app_cons, IH. reflexivity.
Qed.

Lemma is_token_cons s :
  is_token s = true ->
  exists c r, s = String c r /\ isspace c = false /\ no_space r = true.
Proof.
  unfold is_token. destruct s as [|c r]; [discriminate|]. cbn.
  intros H. apply andb_true_iff in H as [Hc Hr].
  apply negb_true_iff in Hc. eauto.
Qed.

Lemma skip_ws_token s rest :
  is_token s = true -> skip_ws (s +:+ rest) = s +:+ rest.
Proof.
  intros H. destruct (is_token_cons s H) as (c & r & -> & Hc & _).
  rewrite app_cons. cbn. rewrite Hc. reflexivity.
Qed.

Lemma read_token_app s rest :
  no_space s = true -> stops rest = true ->
  read_token (s +:+ rest) = (s, rest).
Proof.
  intros Hs Hrest. induction s as [|c s IH].
  - rewrite app_nil_l. destruct rest as [|c r]; [reflexivity|].
    cbn in *. rewrite Hrest. reflexivity.
  - cbn in Hs. apply andb_true_iff in Hs as [Hc Hs].
    apply negb_true_iff in Hc.
    rewrite app_cons. cbn. rewrite Hc, (IH Hs). reflexivity.
Qed.

(** Extraction of a token that follows one blank. *)
Lemma extract_token s rest :
  is_token s = true -> stops rest = true ->
  extract (mkStream (" " +:+ s +:+ rest) false) = (s, mkStream rest false).
Proof.
  intros Hs Hrest. unfold extract. cbn [failed buf].
  rewrite app_cons, app_nil_l.
  change (skip_ws (String " " (s +:+ rest))) with (skip_ws (s +:+ rest)).
  rewrite (skip_ws_token s rest Hs).
  assert (Hns : no_space s = true).
  { unfold is_token in Hs. apply andb_true_iff in Hs as [_ Hs]. exact Hs. }
  pose proof (read_token_app s rest Hns Hrest) as Hrt.
  destruct (is_token_cons s Hs) as (c & r & Heq & _).
  rewrite Heq in *. rewrite app_cons in *. cbv beta iota. rewrite Hrt. reflexivity.
Qed.

Lemma digits_no_space s : all_digits s = true -> no_space s = true.
Proof.
  induction s as [|c s IH]; [reflexivity|]. cbn. intros H.
  apply andb_true_iff in H as [Hc Hs]. rewrite (IH Hs), andb_true_r.
  destruct c as [[] [] [] [] [] [] [] []]; try discriminate Hc; reflexivity.
Qed.

Lemma no_space_no_nl s : no_space s = true -> no_nl s = true.
Proof.
  induction s as [|c s IH]; [reflexivity|]. cbn. intros H.
  apply andb_true_iff in H as [Hc Hs]. rewrite (IH Hs), andb_true_r.
  destruct (Ascii.eqb_spec c (ascii_of_nat 10)) as [->|]; [discriminate|reflexivity].
Qed.

Lemma no_nl_app s t : no_nl (s +:+ t) = no_nl s && no_nl t.
Proof.
  induction s as [|c s IH]; [reflexivity|]. rewrite app_cons. cbn.
  rewrite IH, andb_assoc. reflexivity.
Qed.

(** The text of an integer holds no white space. *)
Lemma to_string_no_space z : no_space (to_string z) = true.
Proof.
  destruct z as [|p|p].
  - reflexivity.
  - apply digits_no_space. apply (to_string_pos p).
  - destruct (to_string_pos p) as (_ & _ & Hd & _).
    unfold to_string in *. cbn [Z.to_int NilZero.string_of_int] in *.
    cbn. apply digits_no_space, Hd.
Qed.

Lemma split_lines_line l rest :
  no_nl l = true -> split_lines (l +:+ nl +:+ rest) = l :: split_lines rest.
Proof.
  intros Hl. induction l as [|c l IH].
  - reflexivity.
  - cbn in Hl. apply andb_true_iff in Hl as [Hc Hl].
    apply negb_true_iff in Hc.
    rewrite app_cons. cbn [split_lines]. rewrite Hc, (IH Hl). reflexivity.
Qed.

Lemma render_nonempty r : nonempty (render r) = true.
Proof. destruct r; reflexivity. Qed.

Lemma render_no_nl r : valid_rec r -> no_nl (render r) = true.
Proof.
  assert (Htok : forall s, is_token s = true -> no_nl s = true).
  { intros s H. apply no_space_no_nl. unfold is_token in H.
    apply andb_true_iff in H as [_ H]. exact H. }
  destruct r as [k v t|k|p]; cbn [valid_rec render].
  - intros (Hk & Hv & _). rewrite !no_nl_app, (Htok k Hk), (Htok v Hv).
    rewrite (no_space_no_nl _ (to_string_no_space _)). reflexivity.
  - intros Hk. rewrite no_nl_app, (Htok k Hk). reflexivity.
  - intros _. destruct p; reflexivity.
Qed.

(** Reading a log back gives the lines of its records. *)
Lemma read_commands_log recs :
  Forall valid_rec recs -> read_commands (log_text recs) = map render recs.
Proof.
  unfold read_commands. induction 1 as [|r recs Hr _ IH]; [reflexivity|].
  cbn [log_text map]. rewrite (split_lines_line _ _ (render_no_nl r Hr)).
  rewrite filter_cons, decide_True by apply render_nonempty.
  rewrite IH. reflexivity.
Qed.

Lemma log_text_app recs recs' :
  log_text (recs ++ recs') = log_text recs +:+ log_text recs'.
Proof.
  induction recs as [|r recs IH]; [reflexivity|].
  cbn [app log_text]. rewrite IH, !app_assoc. reflexivity.
Qed.

(** ** Replay of one line *)

Lemma extract_first s rest :
  is_token s = true -> stops rest = true ->
  extract (mkStream (s +:+ rest) false) = (s, mkStream rest false).
Proof.
  intros Hs Hrest.
  pose proof (extract_token s rest Hs Hrest) as H.
  unfold extract in *. cbn [failed buf] in *.
  rewrite app_cons, app_nil_l in H.
  change (skip_ws (String " " (s +:+ rest))) with (skip_ws (s +:+ rest)) in H.
  exact H.
Qed.

Lemma to_string_token z : is_token (to_string z) = true.
Proof.
  unfold is_token. rewrite to_string_no_space, andb_true_r.
  pose proof (read_int_to_string z) as H.
  destruct (to_string z); [discriminate H | reflexivity].
Qed.

Lemma extract_ll_number z :
  LLONG_MIN <= z <= LLONG_MAX ->
  extract_ll (mkStream (" " +:+ to_string z) false) = Some z.
Proof.
  intros Hz. unfold extract_ll. cbn [failed buf].
  rewrite app_cons, app_nil_l.
  change (skip_ws (String " " (to_string z))) with (skip_ws (to_string z)).
  rewrite <- (app_nil_r (to_string z)) at 1.
  rewrite (skip_ws_token _ _ (to_string_token z)), app_nil_r.
  rewrite read_int_to_string.
  destruct (Z.leb_spec LLONG_MIN z); [|lia].
  destruct (Z.leb_spec z LLONG_MAX); [|lia]. reflexivity.
Qed.

(** A logged instant comes back cut to whole milliseconds. *)
Lemma replayed_time_truncate t :
  in_range t ->
  LLONG_MIN <= to_epoch_ms t <= LLONG_MAX /\ replayed_time t = truncate_ms t.
Proof.
  unfold in_range, replayed_time, truncate_ms, to_epoch_ms, from_epoch_ms, wrap_ll.
  unfold ticks_per_ms, LLONG_MIN, LLONG_MAX. intros Ht.
  pose proof (Z.quot_rem' t 1000000) as Hqr.
  assert (Hrem : - 1000000 < Z.rem t 1000000 < 1000000
                 /\ 0 <= Z.rem t 1000000 * t).
  { split; [|apply Z.rem_sign_mul; lia].
    pose proof (Z.rem_abs_l t 1000000) as Ha. 
    pose proof (Z.rem_bound_pos (Z.abs t) 1000000 (Z.abs_nonneg t) ltac:(lia)).
    lia. }
  split; [nia|]. rewrite Z.mod_small by nia. lia.
Qed.

Lemma whole_ms_truncate t : whole_ms t -> truncate_ms t = t.
Proof.
  intros [m ->]. unfold truncate_ms, ticks_per_ms.
  rewrite Z.quot_mul by lia. reflexivity.
Qed.

Lemma applyRetention_full key w :
  mode (retentionPolicy w) = FULL -> run (KVStore.applyRetention key) w = w.
Proof.
  intros Hfull. unfold KVStore.applyRetention. monad_step.
  destruct (store w !! key) as [[|v l]|]; try reflexivity.
  rewrite Hfull. reflexivity.
Qed.

Lemma setAtTime_full key value t w :
  mode (retentionPolicy w) = FULL ->
  run (KVStore.setAtTime key value t) w
  = with_store (<[key := default [] (store w !! key) ++ [mkVersion t value]]> (store w)) w.
Proof.
  intros Hfull. unfold KVStore.setAtTime, KVStore.emplace_back.
  pose proof (applyRetention_full key
                (with_store (<[key := default [] (store w !! key)
                                      ++ [mkVersion t value]]> (store w)) w) Hfull) as H.
  monad_step. exact H.
Qed.

Lemma del_quiet key w :
  walEnabled w = false ->
  run (KVStore.del key) w = with_store (delete key (store w)) w.
Proof.
  intros Hoff. destruct w as [s0 wp we rp gs dp lo lg en wf sf ck oc tk ops].
  cbn in Hoff. subst we.
  unfold KVStore.del, KVStore.wal_active. monad_step. cbn [store].
  destruct (_ !! key) eqn:Hk; [reflexivity|].
  cbn. rewrite delete_id by exact Hk. reflexivity.
Qed.

Lemma setDecisionPolicy_quiet p w :
  walEnabled w = false ->
  run (KVStore.setDecisionPolicy p) w = with_decisionPolicy p w.
Proof.
  intros Hoff. destruct w as [s0 wp we rp gs dp lo lg en wf sf ck oc tk ops].
  cbn in Hoff. subst we. reflexivity.
Qed.

(** Phase 1 on the line of a record. *)
Lemma wal_policy_render r w :
  valid_rec r -> walEnabled w = false ->
  run (Main.wal_policy (render r)) w
  = with_decisionPolicy (policy_effect r (decisionPolicy w)) w.
Proof.
  intros Hr Hoff. destruct w as [s0 wp we rp gs dp lo lg en wf sf ck oc tk ops].
  cbn in Hoff. subst we.
  unfold Main.wal_policy.
  destruct r as [k v t|k|p]; cbn [render policy_effect].
  - change ("SET " +:+ k +:+ " " +:+ v +:+ " " +:+ to_string (to_epoch_ms t))
      with ("SET" +:+ " " +:+ k +:+ " " +:+ v +:+ " " +:+ to_string (to_epoch_ms t)).
    rewrite extract_first by reflexivity. reflexivity.
  - change ("DEL " +:+ k) with ("DEL" +:+ " " +:+ k).
    rewrite extract_first by reflexivity. reflexivity.
  - destruct p; reflexivity.
Qed.

(** Phase 2 on the line of a record. *)
Lemma wal_data_render r w :
  valid_rec r -> walEnabled w = false -> mode (retentionPolicy w) = FULL ->
  run (Main.wal_data (render r)) w
  = with_store (data_effect replayed_time r (store w)) w.
Proof.
  intros Hr Hoff Hfull. unfold Main.wal_data.
  destruct r as [k v t|k|p]; cbn [render data_effect valid_rec] in *.
  - destruct Hr as (Hk & Hv & Ht).
    destruct (replayed_time_truncate t Ht) as [Hrange _].
    change ("SET " +:+ k +:+ " " +:+ v +:+ " " +:+ to_string (to_epoch_ms t))
      with ("SET" +:+ " " +:+ k +:+ " " +:+ v +:+ " " +:+ to_string (to_epoch_ms t)).
    rewrite extract_first by reflexivity.
    change (String.eqb "SET" "SET") with true. cbv iota.
    rewrite (extract_token k _ Hk) by reflexivity.
    rewrite (extract_token v _ Hv) by reflexivity.
    rewrite (extract_ll_number _ Hrange).
    pose proof (setAtTime_full k v (from_epoch_ms (to_epoch_ms t)) w Hfull) as H.
    unfold run in *. unfold mbind, M_bind, mret, M_ret. cbn [fst snd].
    exact H.
  - change ("DEL " +:+ k) with ("DEL" +:+ " " +:+ k).
    rewrite extract_first by reflexivity.
    change (String.eqb "DEL" "SET") with false.
    change (String.eqb "DEL" "DEL") with true. cbv iota.
    rewrite <- (app_nil_r k) at 1.
    rewrite (extract_token k EmptyString Hr) by reflexivity.
    assert (Hne : nonempty k = true).
    { unfold is_token in Hr. apply andb_true_iff in Hr as [Hne _]. exact Hne. }
    rewrite Hne. pose proof (del_quiet k w Hoff) as H.
    unfold run, when in *. unfold mbind, M_bind, mret, M_ret. cbn [fst snd].
    exact H.
  - destruct w as [s0 wp we rp gs dp lo lg en wf sf ck oc tk ops].
    destruct p; reflexivity.
Qed.

(** ** Replay of a whole log *)

Lemma run_for_each_cons {A} (x : A) l body w :
  run (for_each (x :: l) body) w = run (for_each l body) (run (body x) w).
Proof. reflexivity. Qed.

Lemma replay_policy recs :
  Forall valid_rec recs ->
  forall w, walEnabled w = false ->
    run (for_each (map render recs) Main.wal_policy) w
    = with_decisionPolicy (policy_after recs (decisionPolicy w)) w.
Proof.
  induction 1 as [|r recs Hr _ IH]; intros w Hoff.
  - destruct w; reflexivity.
  - cbn [map]. rewrite run_for_each_cons, (wal_policy_render r w Hr Hoff).
    rewrite IH by exact Hoff. reflexivity.
Qed.

Lemma replay_data recs :
  Forall valid_rec recs ->
  forall w, walEnabled w = false -> mode (retentionPolicy w) = FULL ->
    run (for_each (map render recs) Main.wal_data) w
    = with_store (store_after replayed_time recs (store w)) w.
Proof.
  induction 1 as [|r recs Hr _ IH]; intros w Hoff Hfull.
  - destruct w; reflexivity.
  - cbn [map]. rewrite run_for_each_cons, (wal_data_render r w Hr Hoff Hfull).
    rewrite IH by assumption. reflexivity.
Qed.

(** The store after a log depends on the stored timestamps only. *)
Lemma store_after_ext f g recs :
  Forall (same_stamp f g) recs ->
  forall s, store_after f recs s = store_after g recs s.
Proof.
  induction 1 as [|r recs Hr _ IH]; intros s; [reflexivity|].
  cbn [store_after]. rewrite IH. f_equal.
  destruct r as [k v t|k|p]; cbn [data_effect same_stamp] in *; try reflexivity.
  rewrite Hr. reflexivity.
Qed.

(** Storing [f timestamp] for every record is storing the timestamps and
    mapping [f] over those of the versions afterwards. *)
Lemma store_after_stamp f recs :
  forall s,
    store_after f recs (map (fun v => mkVersion (f (timestamp v)) (value v)) <$> s)
    = map (fun v => mkVersion (f (timestamp v)) (value v)) <$> store_after id recs s.
Proof.
  induction recs as [|r recs IH]; intros s; [reflexivity|].
  cbn [store_after]. rewrite <- IH. f_equal.
  destruct r as [k v t|k|p]; cbn [data_effect].
  - rewrite fmap_insert, lookup_fmap. f_equal.
    destruct (s !! k) as [l|]; cbn; [|reflexivity].
    rewrite map_app. reflexivity.
  - rewrite fmap_delete. reflexivity.
  - reflexivity.
Qed.

(** The steps of startup when no stream operation fails. *)
Lemma initialize_ok w :
  (forall n, io w n = IoDone) ->
  WAL.initialize w
  = (OK, with_enabled true
           (with_logFile_good true
              (with_logFile_open true (with_io_ops (S (S (io_ops w))) w)))).
Proof.
  intros Hio. destruct w as [s0 wp we rp gs dp lo lg en wf sf ck oc tk ops].
  cbn in Hio. unfold WAL.initialize, next_io, mbind, M_bind, modify, mret, M_ret.
  cbn. rewrite Hio. cbn. rewrite Hio. reflexivity.
Qed.

Lemma readSnapshot_ok w :
  (forall n, io w n = IoDone) ->
  WAL.readSnapshot w
  = (read_commands (snapshot_file w), with_io_ops (S (io_ops w)) w).
Proof.
  intros Hio. destruct w as [s0 wp we rp gs dp lo lg en wf sf ck oc tk ops].
  cbn in Hio. unfold WAL.readSnapshot, next_io, mbind, M_bind, gets.
  cbn [fst snd io io_ops]. rewrite Hio. reflexivity.
Qed.

Lemma readLog_ok w :
  (forall n, io w n = IoDone) ->
  WAL.readLog w = (read_commands (wal_file w), with_io_ops (S (io_ops w)) w).
Proof.
  intros Hio. destruct w as [s0 wp we rp gs dp lo lg en wf sf ck oc tk ops].
  cbn in Hio. unfold WAL.readLog, next_io, mbind, M_bind, gets.
  cbn [fst snd io io_ops]. rewrite Hio. reflexivity.
Qed.

(** Projections of updated worlds. *)
Ltac fields :=
  cbn [store wal walEnabled retentionPolicy guards decisionPolicy logFile_open
       logFile_good enabled wal_file snapshot_file clock io ticks io_ops
       with_store with_wal with_walEnabled with_retentionPolicy with_guards
       with_decisionPolicy with_logFile_open with_logFile_good with_enabled
       with_wal_file with_snapshot_file with_ticks with_io_ops with_io
       Main.fresh_process fst snd] in *.

(** Startup over a log of valid records and no snapshot. *)
Lemma boot_replay w recs :
  (forall n, io w n = IoDone) ->
  snapshot_file w = EmptyString ->
  wal_file w = log_text recs ->
  Forall valid_rec recs ->
  Main.boot w
  = {| store := store_after replayed_time recs ∅; wal := true; walEnabled := true;
       retentionPolicy := RetentionPolicy_default; guards := [];
       decisionPolicy := policy_after recs SAFE_DEFAULT;
       logFile_open := true; logFile_good := true; enabled := true;
       wal_file := wal_file w; snapshot_file := snapshot_file w;
       clock := clock w; io := io w; ticks := ticks w;
       io_ops := S (S (S (S (io_ops w)))) |}.
Proof.
  intros Hio Hsnap Hwal Hrecs.
  destruct w as [s0 wp we rp gs dp lo lg en wf sf ck oc tk ops]. fields. subst sf wf.
  unfold Main.boot, Main.startup. unfold mbind, M_bind.
  rewrite initialize_ok by exact Hio. fields.
  rewrite readSnapshot_ok by exact Hio. fields.
  change (read_commands EmptyString) with (@nil string).
  cbn [Main.is_nil negb when]. unfold mret, M_ret. fields.
  rewrite readLog_ok by exact Hio. fields.
  rewrite (read_commands_log recs Hrecs).
  destruct recs as [|r recs]; [reflexivity|].
  cbn [map Main.is_nil negb when].
  set (lines := render r :: map render recs).
  unfold KVStore.setWalEnabled, modify. fields.
  match goal with
  | |- context [for_each lines Main.wal_policy ?u] =>
      pose proof (replay_policy (r :: recs) Hrecs u eq_refl) as H1
  end.
  cbn [map] in H1. fold lines in H1. unfold run in H1. rewrite H1. fields.
  match goal with
  | |- context [for_each lines Main.wal_data ?u] =>
      pose proof (replay_data (r :: recs) Hrecs u eq_refl eq_refl) as H2
  end.
  cbn [map] in H2. fold lines in H2. unfold run in H2. rewrite H2. fields.
  reflexivity.
Qed.

(** ** The log of a session *)

Lemma store_after_app f recs recs' s :
  store_after f (recs ++ recs') s = store_after f recs' (store_after f recs s).
Proof. revert s. induction recs as [|r recs IH]; intros s; [reflexivity | apply IH]. Qed.

Lemma policy_after_app recs recs' p :
  policy_after (recs ++ recs') p = policy_after recs' (policy_after recs p).
Proof. revert p. induction recs as [|r recs IH]; intros p; [reflexivity | apply IH]. Qed.

Lemma logged_refl w : live w -> logged [] w w.
Proof.
  intros Hl. unfold logged. cbn [log_text store_after policy_after].
  rewrite app_nil_r. split_and!; try done.
Qed.

Lemma logged_trans recs recs' w w' w'' :
  logged recs w w' -> logged recs' w' w'' -> logged (recs ++ recs') w w''.
Proof.
  intros (Hv & Hw & Hs & Hp & Hsn & Hc & _) (Hv' & Hw' & Hs' & Hp' & Hsn' & Hc' & Hl).
  unfold logged. rewrite store_after_app, policy_after_app, log_text_app.
  rewrite Hw', Hw, Hs', Hs, Hp', Hp, Hsn', Hsn, Hc', Hc, app_assoc.
  split_and!; try done. apply Forall_app. split; assumption.
Qed.

Ltac steps := repeat progress (fields; cbn [andb negb orb]; cbv beta iota).

Lemma set_live key value w :
  live w ->
  run (KVStore.set key value) w
  = with_store (<[key := default [] (store w !! key)
                         ++ [mkVersion (clock w (ticks w)) value]]> (store w))
      (with_wal_file (wal_file w +:+ render (RSet key value (clock w (ticks w))) +:+ nl)
         (with_io_ops (S (io_ops w)) (with_ticks (S (ticks w)) w))).
Proof.
  intros (Hwal & Hwe & Hen & Hop & Hgood & Hfull & Hio).
  destruct w as [s0 wp we rp gs dp lo lg en wf sf ck oc tk ops]. fields. subst.
  unfold KVStore.set, now, KVStore.wal_active, WAL.isEnabled, WAL.logSet,
    WAL.log_record, WAL.put, next_io, KVStore.emplace_back.
  unfold run, mbind, M_bind, mret, M_ret, gets, modify. steps.
  rewrite Hio. steps.
  match goal with
  | |- (KVStore.applyRetention key ?u).2 = _ =>
      pose proof (applyRetention_full key u Hfull) as H
  end.
  unfold run in H. rewrite H. cbn [render]. rewrite !app_assoc. reflexivity.
Qed.

Lemma del_live key w :
  live w -> is_Some (store w !! key) ->
  run (KVStore.del key) w
  = with_store (delete key (store w))
      (with_wal_file (wal_file w +:+ render (RDel key) +:+ nl)
         (with_io_ops (S (io_ops w)) w)).
Proof.
  intros (Hwal & Hwe & Hen & Hop & Hgood & Hfull & Hio) [l Hk].
  destruct w as [s0 wp we rp gs dp lo lg en wf sf ck oc tk ops]. fields. subst.
  unfold KVStore.del, KVStore.wal_active, WAL.isEnabled, WAL.logDel,
    WAL.log_record, WAL.put, next_io.
  unfold run, mbind, M_bind, mret, M_ret, gets, modify. steps. rewrite Hk.
  steps. rewrite Hio. steps. cbn [render].
  rewrite !app_assoc. reflexivity.
Qed.

Lemma del_absent key w :
  store w !! key = None -> run (KVStore.del key) w = w.
Proof.
  intros Hk. unfold KVStore.del. monad_step. rewrite Hk. reflexivity.
Qed.

Lemma setDecisionPolicy_live p w :
  live w ->
  run (KVStore.setDecisionPolicy p) w
  = with_wal_file (wal_file w +:+ render (RPolicy p) +:+ nl)
      (with_io_ops (S (io_ops w)) (with_decisionPolicy p w)).
Proof.
  intros (Hwal & Hwe & Hen & Hop & Hgood & Hfull & Hio).
  destruct w as [s0 wp we rp gs dp lo lg en wf sf ck oc tk ops]. fields. subst.
  unfold KVStore.setDecisionPolicy, KVStore.wal_active, WAL.isEnabled, WAL.logPolicy,
    WAL.log_record, WAL.put, next_io.
  unfold run, when, mbind, M_bind, mret, M_ret, gets, modify. steps.
  rewrite Hio. steps. cbn [render].
  rewrite !app_assoc. reflexivity.
Qed.

Lemma live_fields w w' :
  live w ->
  wal w' = wal w -> walEnabled w' = walEnabled w -> enabled w' = enabled w ->
  logFile_open w' = logFile_open w -> logFile_good w' = logFile_good w ->
  retentionPolicy w' = retentionPolicy w -> io w' = io w ->
  live w'.
Proof.
  unfold live. intros (? & ? & ? & ? & ? & ? & ?) -> -> -> -> -> -> ->.
  repeat split; assumption.
Qed.

(** One mutation of a live process appends the records of what it did and
    reads the clock at most once. *)
Lemma run_op_logged op w :
  live w -> token_op op = true -> in_range (clock w (ticks w)) ->
  exists recs,
    logged recs w (run (run_op op) w)
    /\ Forall (stamped_by (clock w) (ticks w) (S (ticks w))) recs
    /\ (ticks w <= ticks (run (run_op op) w) <= S (ticks w))%nat.
Proof.
  intros Hl Htok Hclock. destruct op as [k v|k|p]; cbn [run_op token_op] in *.
  - exists [RSet k v (clock w (ticks w))].
    apply andb_true_iff in Htok as [Hk Hv].
    change (run (KVStore.set k v;; mret tt) w) with (run (KVStore.set k v) w).
    rewrite (set_live k v w Hl). unfold logged. fields.
    cbn [log_text store_after policy_after data_effect policy_effect].
    rewrite app_nil_r. split_and!; try done; try lia;
      try (eapply live_fields; [exact Hl | reflexivity ..]).
    + constructor; [|constructor]. cbn. auto.
    + constructor; [|constructor]. exists (ticks w). split; [lia | reflexivity].
  - change (run (KVStore.del k;; mret tt) w) with (run (KVStore.del k) w).
    destruct (store w !! k) as [l|] eqn:Hk.
    + exists [RDel k]. rewrite (del_live k w Hl) by eauto. unfold logged. fields.
      cbn [log_text store_after policy_after data_effect policy_effect].
      rewrite app_nil_r. split_and!; try done; try lia;
        try (eapply live_fields; [exact Hl | reflexivity ..]).
      * constructor; [|constructor]. exact Htok.
      * constructor; [exact I|constructor].
    + exists []. rewrite (del_absent k w Hk).
      split; [apply logged_refl, Hl | split; [constructor | lia]].
  - exists [RPolicy p]. rewrite (setDecisionPolicy_live p w Hl). unfold logged. fields.
    cbn [log_text store_after policy_after data_effect policy_effect].
    rewrite app_nil_r. split_and!; try done; try lia;
      try (eapply live_fields; [exact Hl | reflexivity ..]).
    + constructor; [exact I|constructor].
    + constructor; [exact I|constructor].
Qed.

Lemma stamped_by_widen ck lo hi lo' hi' r :
  (lo' <= lo)%nat -> (hi <= hi')%nat ->
  stamped_by ck lo hi r -> stamped_by ck lo' hi' r.
Proof.
  intros Hlo Hhi. destruct r as [k v t|k|p]; cbn; [|auto ..].
  intros (n & Hn & ->). exists n. split; [lia | reflexivity].
Qed.

Lemma run_ops_logged ops :
  Forall (fun op => token_op op = true) ops ->
  forall w, live w ->
    (forall n, (ticks w <= n < ticks w + length ops)%nat -> in_range (clock w n)) ->
    exists recs,
      logged recs w (run (run_ops ops) w)
      /\ Forall (stamped_by (clock w) (ticks w) (ticks w + length ops)) recs.
Proof.
  induction 1 as [|op ops Hop _ IH]; intros w Hl Hclock.
  - exists []. split; [apply logged_refl, Hl | constructor].
  - destruct (run_op_logged op w Hl Hop) as (recs & Hlog & Hst & Hticks).
    { apply Hclock. cbn [length]. lia. }
    pose proof Hlog as (_ & _ & _ & _ & _ & Hc & Hl').
    destruct (IH (run (run_op op) w) Hl') as (recs' & Hlog' & Hst').
    { intros n Hn. rewrite Hc. apply Hclock. cbn [length]. lia. }
    exists (recs ++ recs'). unfold run_ops. rewrite run_for_each_cons. split.
    + eapply logged_trans; eassumption.
    + apply Forall_app. split.
      * eapply Forall_impl; [exact Hst|]. intros r.
        apply stamped_by_widen; cbn [length]; lia.
      * rewrite Hc in Hst'. eapply Forall_impl; [exact Hst'|]. intros r.
        apply stamped_by_widen; cbn [length]; lia.
Qed.

(** ** Recovery after a session *)

Lemma valid_same_stamp r :
  valid_rec r -> same_stamp replayed_time truncate_ms r.
Proof.
  destruct r as [k v t|k|p]; cbn; [|auto ..].
  intros (_ & _ & Ht). apply (replayed_time_truncate t Ht).
Qed.

(** C1, as the code has it: a session of set, del and setDecisionPolicy
    operations runs on a process started on empty files, no stream operation
    fails, and every key and value is a non-empty string without white space.
    Then a new process started on the files the session leaves behind
    recovers the decision policy, and the version store with every timestamp
    cut to whole milliseconds (the log keeps epoch milliseconds only).  When
    every clock reading of the session is a whole number of milliseconds, the
    recovered store is the original one and [getAtTime] answers alike for
    every key and timestamp. *)
Theorem recovery_round_trip (w0 : World) (ops : list Op) :
  wal_file w0 = EmptyString ->
  snapshot_file w0 = EmptyString ->
  (forall n, io w0 n = IoDone) ->
  (forall n, (ticks w0 <= n < ticks w0 + length ops)%nat -> in_range (clock w0 n)) ->
  Forall (fun op => token_op op = true) ops ->
  let before := run (run_ops ops) (Main.boot w0) in
  let recovered := Main.boot before in
  decisionPolicy recovered = decisionPolicy before
  /\ store recovered = map truncate_version <$> store before
  /\ ((forall n, (ticks w0 <= n < ticks w0 + length ops)%nat ->
                 whole_ms (clock w0 n)) ->
      store recovered = store before
      /\ forall key t,
           answer (KVStore.getAtTime key t) recovered
           = answer (KVStore.getAtTime key t) before).
Proof.
  intros Hwal Hsnap Hio Hclock Hops.
  pose proof (boot_replay w0 [] Hio Hsnap Hwal (Forall_nil_2 _)) as Hboot.
  cbn [store_after policy_after] in Hboot.
  assert (Hlive : live (Main.boot w0)).
  { rewrite Hboot. unfold live. fields. split_and!; try done. }
  destruct (run_ops_logged ops Hops (Main.boot w0) Hlive)
    as (recs & (Hrecs & Hfile & Hstore & Hpolicy & Hsnap' & Hc & Hlive') & Hstamps).
  { rewrite Hboot. fields. exact Hclock. }
  set (before := run (run_ops ops) (Main.boot w0)) in *.
  assert (Hio' : forall n, io before n = IoDone) by apply Hlive'.
  assert (Hfile' : wal_file before = log_text recs).
  { rewrite Hfile, Hboot. fields. rewrite Hwal. reflexivity. }
  assert (Hsnap'' : snapshot_file before = EmptyString).
  { rewrite Hsnap', Hboot. fields. exact Hsnap. }
  pose proof (boot_replay before recs Hio' Hsnap'' Hfile' Hrecs) as Hre.
  assert (Hbefore : store before = store_after id recs ∅).
  { rewrite Hstore, Hboot. reflexivity. }
  cbv zeta. split; [|split].
  - rewrite Hre, Hpolicy, Hboot. reflexivity.
  - rewrite Hre, Hbefore. fields.
    rewrite (store_after_ext replayed_time truncate_ms recs)
      by (eapply Forall_impl; [exact Hrecs | exact valid_same_stamp]).
    rewrite <- (store_after_stamp truncate_ms recs ∅), fmap_empty. reflexivity.
  - intros Hwhole.
    assert (Hs : store (Main.boot before) = store before).
    { rewrite Hre, Hbefore. fields. apply store_after_ext.
      rewrite Hboot in Hstamps. fields.
      apply Forall_forall. intros r Hr.
      pose proof (proj1 (Forall_forall _ _) Hrecs r Hr) as Hv.
      pose proof (proj1 (Forall_forall _ _) Hstamps r Hr) as Hst.
      destruct r as [k v t|k|p]; cbn in *; [|exact I ..].
      destruct Hv as (_ & _ & Ht). destruct Hst as (n & Hn & Heq).
      rewrite (proj2 (replayed_time_truncate t Ht)).
      apply whole_ms_truncate. rewrite Heq. apply Hwhole, Hn. }
    split; [exact Hs|].
    intros key t. unfold KVStore.getAtTime. monad_step. rewrite Hs. reflexivity.
Qed.

(** C1, witness: a session of five operations on a clock that ticks in
    whole milliseconds. *)
Lemma recovery_round_trip_witness :
  let before := run (run_ops example_ops) (Main.boot whole_ms_world) in
  let recovered := Main.boot before in
  decisionPolicy recovered = decisionPolicy before
  /\ store recovered = map truncate_version <$> store before
  /\ store recovered = store before
  /\ forall key t,
       answer (KVStore.getAtTime key t) recovered
       = answer (KVStore.getAtTime key t) before.
Proof.
  destruct (recovery_round_trip whole_ms_world example_ops) as (Hp & Ht & Hw).
  - reflexivity.
  - reflexivity.
  - intros n. reflexivity.
  - intros n Hn. cbn in Hn.
    unfold in_range, whole_ms_world, clocked_world, clock, LLONG_MIN, LLONG_MAX.
    lia.
  - repeat constructor.
  - split; [exact Hp|]. split; [exact Ht|]. apply Hw.
    intros n Hn. exists (1000 + Z.of_nat n * 2).
    unfold whole_ms_world, clocked_world, clock, ticks_per_ms. lia.
Defined.

(** C1, counterexample to the property as specified: two writes of one key fall
    into the same millisecond.  The first timestamp is present in the
    original history and answers with the first value; after recovery both
    versions carry that timestamp and the answer is the second value. *)
Lemma recovery_round_trip_counterexample :
  history "k" same_ms_session
  = [mkVersion 1000000000 "a"; mkVersion 1000400000 "b"]
  /\ wal_file same_ms_session = "SET k a 1000" +:+ nl +:+ "SET k b 1000" +:+ nl
  /\ history "k" (Main.boot same_ms_session)
     = [mkVersion 1000000000 "a"; mkVersion 1000000000 "b"]
  /\ answer (KVStore.getAtTime "k" 1000000000) same_ms_session = Some "a"
  /\ answer (KVStore.getAtTime "k" 1000000000) (Main.boot same_ms_session)
     = Some "b".
Proof. repeat split; vm_compute; reflexivity. Qed.

(** The values of a session have to be non-empty: the line of an empty
    value holds two blanks in a row, its timestamp is read back as the value
    and the version is stamped with the time of the restart. *)
Lemma recovery_loses_empty_value :
  history "k" empty_value_session = [mkVersion 1000000000 EmptyString]
  /\ wal_file empty_value_session = "SET k  1000" +:+ nl
  /\ history "k" (Main.boot empty_value_session) = [mkVersion 1002000000 "1000"].
Proof. repeat split; vm_compute; reflexivity. Qed.
(** ** Point-in-time lookup on arbitrary version lists *)

Lemma getAt_loop_leading t l :
  forall res,
    getAt_loop l t res
    = from_option (fun v => Some (value v)) res (last (leading t l)).
Proof.
  induction l as [|v l IH]; intros res; [reflexivity|].
  cbn [getAt_loop leading take_while].
  destruct (timestamp v <=? t) eqn:E; [|reflexivity].
  rewrite IH. fold (leading t l). rewrite last_cons.
  destruct (last (leading t l)); reflexivity.
Qed.

Lemma leading_all t l :
  Forall (fun v => timestamp v <= t) l -> leading t l = l.
Proof.
  induction 1 as [|v l Hv _ IH]; [reflexivity|].
  cbn [leading take_while]. fold (leading t l).
  apply Z.leb_le in Hv. rewrite Hv, IH. reflexivity.
Qed.

Lemma get_history key w :
  answer (KVStore.get key) w = value <$> last (history key w).
Proof.
  unfold history, KVStore.get, KVStore.getHistory. monad_step.
  destruct (store w !! key); reflexivity.
Qed.

(** X1: [getAtTime key t] returns the value of the last of the leading
    versions of the key that are at or before [t], whatever the order of the
    list; so it agrees with [get] when no version is later than [t], and it
    returns a value exactly when the first version is at or before [t]. *)
Theorem getAtTime_leading (w : World) (key : string) (t : time_point) :
  answer (KVStore.getAtTime key t) w = value <$> last (leading t (history key w))
  /\ (Forall (fun v => timestamp v <= t) (history key w) ->
      answer (KVStore.getAtTime key t) w = answer (KVStore.get key) w)
  /\ (is_Some (answer (KVStore.getAtTime key t) w) <->
      exists v rest, history key w = v :: rest /\ timestamp v <= t).
Proof.
  assert (H : answer (KVStore.getAtTime key t) w
              = value <$> last (leading t (history key w))).
  { rewrite getAtTime_unfold, getAt_loop_leading.
    destruct (last (leading t (history key w))); reflexivity. }
  split_and!.
  - exact H.
  - intros Hall. rewrite H, (leading_all _ _ Hall), get_history. reflexivity.
  - rewrite H. destruct (history key w) as [|v rest]; cbn [leading take_while].
    + split; [intros [x Hx]; discriminate | intros (v & rest & Hv & _); discriminate].
    + destruct (timestamp v <=? t) eqn:E.
      * split; [intros _; exists v, rest; split; [reflexivity | lia] |].
        intros _. fold (leading t rest).
        destruct (last (v :: leading t rest)) eqn:El; [eexists; reflexivity|].
        apply last_None in El. discriminate.
      * split; [intros [x Hx]; discriminate |].
        intros (v' & rest' & Hv & Hle). injection Hv as <- <-. lia.
Qed.

Section ExplainLeading.

Variable t : time_point.
Variable all : list Version.

Lemma explain_loop_leading rest :
  forall i sel skipped,
    drop i all = rest ->
    explain_state all i sel skipped ->
    exists i',
      explain_state all i' (fst (explain_loop all rest i t sel skipped))
                    (snd (explain_loop all rest i t sel skipped))
      /\ take i' all = take i all ++ leading t rest.
Proof.
  induction rest as [|v rest IH]; intros i sel skipped Hdrop Hinv.
  - exists i. split; [exact Hinv | cbn; rewrite List.app_nil_r; reflexivity].
  - assert (Hv : all !! i = Some v).
    { rewrite <- (Nat.add_0_r i), <- lookup_drop, Hdrop. reflexivity. }
    assert (Hrest : drop (S i) all = rest).
    { rewrite (drop_S _ _ _ Hv) in Hdrop. congruence. }
    cbn [explain_loop leading take_while].
    destruct (timestamp v <=? t) eqn:E.
    + destruct Hinv as (Hsk & Hsel & Hlen).
      apply lookup_lt_Some in Hv as Hlt.
      edestruct (IH (S i) (Some i)) as (i' & Hinv' & Htake); [exact Hrest | |].
      2:{ exists i'. split; [exact Hinv'|].
          rewrite Htake, (take_S_r _ _ _ Hv), <- List.app_assoc. reflexivity. }
      split_and!; [| reflexivity | lia].
      cbn [pred]. destruct i as [|j]; subst sel skipped; [reflexivity|].
      cbn [pred]. destruct (all !! j) as [old|] eqn:Ej.
      * symmetry. apply take_S_r. exact Ej.
      * apply lookup_ge_None in Ej. lia.
    + exists i. split; [exact Hinv | rewrite List.app_nil_r; reflexivity].
Qed.

End ExplainLeading.

(** X2: the versions [explainGetAtTime] reports as skipped, followed by the
    one it selects, are exactly the leading versions of the key that are at
    or before [t]; the selected version sits at the index that equals the
    number of skipped ones, and nothing is selected exactly when the first
    version is later than [t] or there is none. *)
Theorem explainGetAtTime_leading (w : World) (key : string) (t : time_point) :
  let r := answer (KVStore.explainGetAtTime key t) w in
  skippedVersions r ++ option_list (selectedVersion r)
  = leading t (history key w)
  /\ (found r = true ->
      selectedVersion r = history key w !! length (skippedVersions r))
  /\ (found r = false <-> leading t (history key w) = []).
Proof.
  cbn zeta. unfold history, KVStore.explainGetAtTime, KVStore.getHistory.
  monad_step.
  destruct (store w !! key) as [[|v0 l0]|] eqn:Hk; cbn [default];
    [split_and!; [reflexivity | discriminate | done] | ..
    | split_and!; [reflexivity | discriminate | done]].
  unfold id. set (all := v0 :: l0).
  destruct (explain_loop_leading t all all 0 None []) as (i & Hinv & Htake);
    [reflexivity | split_and!; [reflexivity | reflexivity | lia] |].
  destruct (explain_loop all all 0 t None []) as [sel skipped].
  cbn [fst snd] in Hinv. destruct Hinv as (Hsk & Hsel & Hlen).
  change (take 0 all) with (@nil Version) in Htake. cbn [app] in Htake.
  destruct i as [|j]; subst sel skipped;
    cbn [found selectedVersion skippedVersions pred].
  - change (take 0 all) with (@nil Version) in *. rewrite <- Htake. split_and!; [reflexivity | discriminate | done].
  - destruct (all !! j) as [x|] eqn:Ej; [|apply lookup_ge_None in Ej; lia].
    rewrite <- Htake, (take_S_r _ _ _ Ej). cbn [option_list].
    split_and!; [reflexivity | |].
    + intros _. rewrite length_take, Nat.min_l by lia. symmetry. exact Ej.
    + split; [discriminate|]. intros H. apply (f_equal length) in H.
      rewrite length_app in H. cbn in H. lia.
Qed.
(** ** Writes, deletions and retention *)

Lemma last_drop {A} (l : list A) n :
  (n < length l)%nat -> last (drop n l) = last l.
Proof.
  intros Hn. rewrite !last_lookup, lookup_drop, length_drop. f_equal. lia.
Qed.

Lemma drop_while_split {A} (p : A -> bool) (l : list A) :
  exists old, l = old ++ drop_while p l /\ Forall (fun x => p x = true) old.
Proof.
  induction l as [|x l (old & Hl & Hold)]; [exists []; split; [reflexivity | constructor]|].
  cbn [drop_while]. destruct (p x) eqn:E.
  - exists (x :: old). split; [cbn; congruence | constructor; assumption].
  - exists []. split; [reflexivity | constructor].
Qed.

Lemma drop_while_cutoff cutoff l :
  nondecreasing l = true ->
  Forall (fun v => cutoff <= timestamp v) (drop_while (fun v => timestamp v <? cutoff) l).
Proof.
  induction l as [|v l IH]; intros Hs; [constructor|].
  cbn [drop_while]. destruct (Z.ltb_spec (timestamp v) cutoff) as [Hlt|Hge].
  - apply IH. exact (nondecreasing_tail _ _ Hs).
  - destruct (nondecreasing_cons _ _ Hs) as [_ Hall].
    constructor; [exact Hge|].
    eapply Forall_impl; [exact Hall|]. cbn. intros u Hu. lia.
Qed.

Lemma drop_while_head {A} (p : A -> bool) (l : list A) x rest :
  drop_while p l = x :: rest -> p x = false.
Proof.
  induction l as [|y l IH]; [discriminate|]. cbn [drop_while].
  destruct (p y) eqn:E; [exact IH|]. intros [= <- _]. exact E.
Qed.

Lemma applyRetention_other key k w :
  k <> key ->
  store (run (KVStore.applyRetention key) w) !! k = store w !! k.
Proof.
  intros Hne. unfold KVStore.applyRetention, KVStore.put_versions, now. monad_step.
  destruct (store w !! key) as [[|v l]|]; try reflexivity.
  destruct (mode (retentionPolicy w)); try reflexivity.
  - destruct (_ && _); [|reflexivity]. cbn [fst snd store with_store].
    apply lookup_insert_ne. congruence.
  - destruct (0 <? _); [|reflexivity]. cbn [fst snd store with_store with_ticks].
    apply lookup_insert_ne. congruence.
Qed.

(** Retention that counts versions never touches the newest one. *)
Lemma applyRetention_keeps_last key w :
  mode (retentionPolicy w) <> LAST_T ->
  last (history key (run (KVStore.applyRetention key) w)) = last (history key w).
Proof.
  intros Hmode. rewrite !history_lookup.
  unfold KVStore.applyRetention, KVStore.put_versions. monad_step.
  destruct (store w !! key) as [[|v l]|] eqn:Hk.
  1, 3: cbn [fst snd]; rewrite Hk; reflexivity.
  destruct (mode (retentionPolicy w)) eqn:Hm;
    [cbn [fst snd]; rewrite Hk; reflexivity | | done].
  destruct (Z.ltb_spec 0 (count (retentionPolicy w))) as [Hpos|];
    [|cbn [andb]; monad_step; rewrite Hk; reflexivity].
  destruct (Z.ltb_spec (count (retentionPolicy w)) (Z.of_nat (length (v :: l))))
    as [Hlt|]; [|cbn [andb]; monad_step; rewrite Hk; reflexivity].
  cbn [andb fst snd store with_store]. rewrite lookup_insert_eq. cbn [default].
  unfold from_option, id. apply last_drop. lia.
Qed.

(** The state in which [set] runs retention: the new version is appended,
    the clock has been read once, the rest of the memory is as before. *)
Lemma set_unfold key value w :
  exists u,
    run (KVStore.set key value) w
    = run (KVStore.applyRetention key)
        (with_store (<[key := default [] (store w !! key)
                               ++ [mkVersion (clock w (ticks w)) value]]> (store w)) u)
    /\ same_memory u (with_ticks (S (ticks w)) w)
    /\ answer (KVStore.set key value) w = OK.
Proof.
  unfold KVStore.set, now, answer, run, mbind, M_bind, mret, M_ret, gets.
  cbn [fst snd].
  set (w1 := with_ticks (S (ticks w)) w).
  set (logged := (if KVStore.wal_active w1
                  then WAL.logSet key value (clock w (ticks w))
                  else fun w0 => (OK, w0)) w1).
  assert (Hmem : same_memory (snd logged) w1).
  { subst logged. destruct (KVStore.wal_active w1).
    - apply log_record_memory.
    - unfold same_memory; tauto. }
  exists (snd logged). split_and!; [|exact Hmem|reflexivity].
  unfold KVStore.emplace_back, modify. cbn [fst snd].
  destruct Hmem as (Hst & _). rewrite Hst. reflexivity.
Qed.

(** X3: after [set key value] the key's newest version is the value just
    written, stamped with the clock reading taken by [set], and every other
    key has the versions it had; unless retention is by age, [get key] then
    returns that value. *)
Theorem set_then_get (w : World) (key value : string) :
  let w' := run (KVStore.set key value) w in
  answer (KVStore.set key value) w = OK
  /\ (forall k, k <> key -> history k w' = history k w)
  /\ (mode (retentionPolicy w) <> LAST_T ->
      last (history key w') = Some (mkVersion (clock w (ticks w)) value)
      /\ answer (KVStore.get key) w' = Some value).
Proof.
  cbn zeta. destruct (set_unfold key value w) as (u & -> & Hmem & Hok).
  split_and!; [exact Hok | |].
  - intros k Hne. rewrite !history_lookup, applyRetention_other by exact Hne.
    cbn [store with_store]. rewrite lookup_insert_ne by congruence.
    reflexivity.
  - intros Hmode.
    assert (Hlast : last (history key
                (run (KVStore.applyRetention key)
                   (with_store (<[key := default [] (store w !! key)
                       ++ [mkVersion (clock w (ticks w)) value]]> (store w)) u)))
              = Some (mkVersion (clock w (ticks w)) value)).
    { rewrite applyRetention_keeps_last.
      - rewrite history_lookup. cbn [store with_store].
        rewrite lookup_insert_eq. cbn [default]. unfold from_option, id.
        apply last_snoc.
      - cbn [retentionPolicy with_store].
        destruct Hmem as (_ & -> & _). exact Hmode. }
    split; [exact Hlast|]. rewrite get_history, Hlast. reflexivity.
Qed.

(** X4: retention by age.  Under [LastT(s)], [s] a positive [int],
    retention of a key that has versions reads the clock once and removes
    the leading versions older than the cutoff [now - s] seconds, up to the
    first one that is not; the key stays in the store even when no version is
    left.  On a list in chronological order every version kept is at or after
    the cutoff. *)
Theorem applyRetention_last_t (w : World) (key : string) (s : Z) (l : list Version) :
  mode (retentionPolicy w) = LAST_T ->
  seconds (retentionPolicy w) = s ->
  1 <= s <= INT_MAX ->
  store w !! key = Some l ->
  l <> [] ->
  let cutoff := wrap_ll (clock w (ticks w) - s * ticks_per_s) in
  let w' := run (KVStore.applyRetention key) w in
  (exists old, l = old ++ history key w'
               /\ Forall (fun v => timestamp v < cutoff) old)
  /\ (forall v rest, history key w' = v :: rest -> cutoff <= timestamp v)
  /\ (nondecreasing l = true ->
      Forall (fun v => cutoff <= timestamp v) (history key w'))
  /\ KVStore.exists_ key w' = true
  /\ (forall k, k <> key -> store w' !! k = store w !! k)
  /\ ticks w' = S (ticks w).
Proof.
  intros Hmode Hs Hpos Hk Hl. cbn zeta.
  set (cutoff := wrap_ll (clock w (ticks w) - s * ticks_per_s)).
  assert (Hrun : run (KVStore.applyRetention key) w
                 = with_store (<[key := drop_while (fun v => timestamp v <? cutoff) l]>
                                 (store w))
                     (with_ticks (S (ticks w)) w)).
  { unfold KVStore.applyRetention, KVStore.put_versions, now. monad_step.
    rewrite Hk. destruct l as [|v l0]; [done|]. rewrite Hmode, Hs.
    destruct (Z.ltb_spec 0 s) as [_|]; [reflexivity | lia]. }
  assert (Hh : history key (run (KVStore.applyRetention key) w)
               = drop_while (fun v => timestamp v <? cutoff) l).
  { rewrite Hrun, history_lookup. cbn [store with_store].
    rewrite lookup_insert_eq. reflexivity. }
  rewrite Hh. split_and!.
  - destruct (drop_while_split (fun v => timestamp v <? cutoff) l) as (old & Hold & Hall).
    exists old. split; [exact Hold|].
    eapply Forall_impl; [exact Hall|]. cbn. intros v Hv. apply Z.ltb_lt, Hv.
  - intros v rest Hd. apply drop_while_head in Hd. apply Z.ltb_ge, Hd.
  - apply drop_while_cutoff.
  - rewrite Hrun. unfold KVStore.exists_. cbn [store with_store].
    rewrite lookup_insert_eq. apply bool_decide_eq_true. eexists; reflexivity.
  - intros k Hne. apply applyRetention_other, Hne.
  - rewrite Hrun. reflexivity.
Qed.

(** X4, witness: versions written at 1.0 s, 1.6 s and 2.2 s, retention of one
    second run at 2.8 s. *)
Lemma applyRetention_last_t_witness :
  Forall (fun v => 1800000000 <= timestamp v)
         (history "k" (run (KVStore.applyRetention "k") aged_world))
  /\ ticks (run (KVStore.applyRetention "k") aged_world) = 4%nat.
Proof.
  destruct (applyRetention_last_t aged_world "k" 1
              [mkVersion 1000000000 "a"; mkVersion 1600000000 "b";
               mkVersion 2200000000 "c"]) as (_ & _ & H & _ & _ & Ht).
  - reflexivity.
  - reflexivity.
  - unfold INT_MAX. lia.
  - vm_compute. reflexivity.
  - discriminate.
  - split; [apply H; reflexivity | exact Ht].
Defined.

(** X5: [del] answers [OK] exactly for a key that exists; afterwards the key
    does not exist and has no value, every other key is as before, and a
    [del] of a key that does not exist changes nothing, not even the WAL. *)
Theorem del_removes (w : World) (key : string) :
  let w' := run (KVStore.del key) w in
  answer (KVStore.del key) w = (if KVStore.exists_ key w then OK else NOT_FOUND)
  /\ KVStore.exists_ key w' = false
  /\ answer (KVStore.get key) w' = None
  /\ (forall k, k <> key -> store w' !! k = store w !! k)
  /\ (KVStore.exists_ key w = false -> w' = w).
Proof.
  cbn zeta.
  destruct (del_memory key w w ltac:(unfold same_memory; tauto)) as (_ & _ & _ & Hgone).
  split_and!.
  - unfold KVStore.exists_, KVStore.del. monad_step.
    destruct (store w !! key) as [l|] eqn:Hk; cbn [fst].
    + rewrite bool_decide_eq_true_2 by (eexists; reflexivity). reflexivity.
    + rewrite bool_decide_eq_false_2 by (intros [x Hx]; discriminate). reflexivity.
  - unfold KVStore.exists_. rewrite Hgone.
    apply bool_decide_eq_false_2. intros [x Hx]; discriminate.
  - rewrite get_history, history_lookup, Hgone. reflexivity.
  - intros k Hne. unfold KVStore.del, WAL.logDel. monad_step.
    destruct (store w !! key) as [l|] eqn:Hk; [|reflexivity].
    cbn [fst snd store with_store]. rewrite lookup_delete_ne by congruence.
    destruct (KVStore.wal_active w); [|reflexivity].
    destruct (log_record_memory ("DEL " +:+ key +:+ nl) w) as (H & _).
    unfold run in H. rewrite H. reflexivity.
  - intros Hex. apply del_absent. unfold KVStore.exists_ in Hex.
    apply bool_decide_eq_false in Hex. destruct (store w !! key); [|reflexivity].
    exfalso. apply Hex. eexists; reflexivity.
Qed.

(** ** A new retention policy is applied to every key *)

Lemma applyRetention_newest key n vs w :
  mode (retentionPolicy w) = LAST_N -> count (retentionPolicy w) = n -> 1 <= n ->
  store w !! key = Some vs ->
  store (run (KVStore.applyRetention key) w) !! key = Some (newest n vs)
  /\ retentionPolicy (run (KVStore.applyRetention key) w) = retentionPolicy w.
Proof.
  intros Hmode Hcount Hn Hk. unfold newest.
  unfold KVStore.applyRetention, KVStore.put_versions. monad_step. rewrite Hk.
  destruct vs as [|v l]; [split; [exact Hk | reflexivity]|].
  rewrite Hmode, Hcount. destruct (Z.ltb_spec 0 n) as [_|]; [|lia]. cbn [andb].
  destruct (Z.ltb_spec n (Z.of_nat (length (v :: l)))) as [Hlt|Hge].
  - cbn [fst snd store with_store retentionPolicy]. rewrite lookup_insert_eq.
    split; reflexivity.
  - monad_step. replace (length (v :: l) - Z.to_nat n)%nat with 0%nat by lia.
    split; [exact Hk | reflexivity].
Qed.

(** The sweep of [setRetentionPolicy], in whatever order the map is
    iterated: every listed key keeps its newest [n] versions. *)
Lemma retention_sweep n (l : list (string * list Version)) :
  1 <= n -> NoDup l.*1 ->
  forall w,
    mode (retentionPolicy w) = LAST_N -> count (retentionPolicy w) = n ->
    (forall k vs, (k, vs) ∈ l -> store w !! k = Some vs) ->
    let w' := run (for_each l (fun kv =>
                     when (negb (bool_decide (snd kv = [])))
                          (KVStore.applyRetention (fst kv)))) w in
    retentionPolicy w' = retentionPolicy w
    /\ forall k, store w' !! k
                 = if bool_decide (k ∈ l.*1) then newest n <$> store w !! k
                   else store w !! k.
Proof.
  intros Hn. induction l as [|[k0 vs0] l IH]; intros Hnd w Hmode Hcount Hl; cbn zeta.
  - split; [reflexivity|]. intros k.
    rewrite bool_decide_eq_false_2 by (cbn; apply not_elem_of_nil). reflexivity.
  - rewrite run_for_each_cons. cbn [fst snd].
    apply NoDup_cons in Hnd as [Hk0 Hnd].
    set (w1 := run (when (negb (bool_decide (vs0 = [])))
                         (KVStore.applyRetention k0)) w).
    assert (H0 : store w !! k0 = Some vs0) by (apply Hl; left).
    assert (H1 : store w1 !! k0 = Some (newest n vs0)
                 /\ retentionPolicy w1 = retentionPolicy w
                 /\ forall k, k <> k0 -> store w1 !! k = store w !! k).
    { subst w1. destruct (decide (vs0 = [])) as [->|Hne].
      - rewrite bool_decide_eq_true_2 by reflexivity.
        split_and!; [exact H0 | reflexivity | reflexivity].
      - rewrite bool_decide_eq_false_2 by exact Hne. cbn [negb when].
        destruct (applyRetention_newest k0 n vs0 w Hmode Hcount Hn H0) as [Ha Hb].
        split_and!; [exact Ha | exact Hb |].
        intros k Hk. apply applyRetention_other, Hk. }
    destruct H1 as (Ha & Hb & Hc).
    destruct (IH Hnd w1) as [Hpol Hst].
    + rewrite Hb. exact Hmode.
    + rewrite Hb. exact Hcount.
    + intros k vs Hin. rewrite Hc; [apply Hl; right; exact Hin|].
      intros ->. apply Hk0. apply list_elem_of_fmap. exists (k0, vs). done.
    + split; [rewrite Hpol; exact Hb|]. intros k. rewrite Hst.
      cbn [fmap list_fmap fst]. destruct (decide (k = k0)) as [->|Hne].
      * rewrite (bool_decide_eq_false_2 _ Hk0).
        rewrite (bool_decide_eq_true_2 (k0 ∈ k0 :: l.*1)) by left.
        rewrite Ha, H0. reflexivity.
      * rewrite Hc by exact Hne.
        destruct (decide (k ∈ l.*1)) as [Hin|Hnin].
        -- rewrite !bool_decide_eq_true_2; [reflexivity | right; exact Hin | exact Hin].
        -- rewrite !bool_decide_eq_false_2; [reflexivity | | exact Hnin].
           intros [->|Hin]%elem_of_cons; [done | exact (Hnin Hin)].
Qed.

(** X6: [setRetentionPolicy] with [LastN(n)], [n >= 1], installs the policy
    and cuts every key to its newest [n] versions: no key has more than [n]
    versions afterwards, no key appears or disappears and [get] returns what
    it returned before. *)
Theorem setRetentionPolicy_last_n (w : World) (n : Z) :
  1 <= n ->
  let w' := run (KVStore.setRetentionPolicy (RetentionPolicy_make LAST_N n)) w in
  KVStore.getRetentionPolicy w' = RetentionPolicy_make LAST_N n
  /\ store w' = newest n <$> store w
  /\ (forall k, (Z.of_nat (length (history k w')) <= n))
  /\ (forall k, KVStore.exists_ k w' = KVStore.exists_ k w)
  /\ (forall k, answer (KVStore.get k) w' = answer (KVStore.get k) w).
Proof.
  intros Hn. cbn zeta.
  set (w0 := with_retentionPolicy (RetentionPolicy_make LAST_N n) w).
  change (run (KVStore.setRetentionPolicy (RetentionPolicy_make LAST_N n)) w)
    with (run (for_each (map_to_list (store w0))
                 (fun kv => when (negb (bool_decide (snd kv = [])))
                                 (KVStore.applyRetention (fst kv)))) w0).
  destruct (retention_sweep n (map_to_list (store w0)) Hn
              (NoDup_fst_map_to_list _) w0 eq_refl eq_refl) as [Hpol Hst].
  { intros k vs Hin. apply elem_of_map_to_list, Hin. }
  cbn zeta in Hpol, Hst.
  set (w' := run (for_each _ _) w0) in *.
  assert (Hstore : store w' = newest n <$> store w).
  { apply map_eq. intros k. rewrite Hst, lookup_fmap.
    change (store w0) with (store w).
    destruct (store w !! k) as [vs|] eqn:Hk.
    - rewrite bool_decide_eq_true_2; [reflexivity|].
      apply list_elem_of_fmap. exists (k, vs). split; [reflexivity|].
      apply elem_of_map_to_list, Hk.
    - destruct (bool_decide _); reflexivity. }
  split_and!.
  - exact Hpol.
  - exact Hstore.
  - intros k. rewrite history_lookup, Hstore, lookup_fmap.
    destruct (store w !! k) as [vs|]; cbn; [|lia].
    unfold newest. rewrite length_drop. lia.
  - intros k. unfold KVStore.exists_. rewrite Hstore, lookup_fmap.
    destruct (store w !! k); reflexivity.
  - intros k. rewrite !get_history, !history_lookup, Hstore, lookup_fmap.
    destruct (store w !! k) as [vs|]; cbn; [|reflexivity].
    unfold newest. destruct vs as [|v l]; [reflexivity|].
    rewrite last_drop; [reflexivity | cbn [length]; lia].
Qed.

(** X6, witness: the three versions of the crowded example, cut to two. *)
Lemma setRetentionPolicy_last_n_witness :
  store (run (KVStore.setRetentionPolicy (RetentionPolicy_make LAST_N 2)) crowded_world)
  = newest 2 <$> store crowded_world.
Proof.
  apply (setRetentionPolicy_last_n crowded_world 2). lia.
Defined.
(** ** Guards: key patterns and counter-offers *)

Lemma string_length_app s t :
  String.length (s +:+ t) = (String.length s + String.length t)%nat.
Proof. induction s as [|c s IH]; [reflexivity|]. rewrite app_cons. cbn. rewrite IH. reflexivity. Qed.

Lemma string_back_Some s c :
  string_back s = Some c <-> exists p, s = p +:+ String c EmptyString.
Proof.
  split.
  - induction s as [|d s IH]; [discriminate|].
    destruct s as [|e s'].
    + intros [= ->]. exists EmptyString. reflexivity.
    + intros H. destruct (IH H) as (p & Hp). exists (String d p).
      rewrite app_cons, <- Hp. reflexivity.
  - intros (p & ->). induction p as [|d p IH]; [reflexivity|].
    rewrite app_cons. destruct p as [|e p']; [reflexivity|].
    rewrite app_cons in *. exact IH.
Qed.

Lemma substring_prefix p r :
  String.substring 0 (String.length p) (p +:+ r) = p.
Proof.
  induction p as [|c p IH]; [destruct r; reflexivity|].
  rewrite app_cons. cbn. rewrite IH. reflexivity.
Qed.

Lemma strip_last p c :
  String.substring 0 (String.length (p +:+ String c EmptyString) - 1)
                   (p +:+ String c EmptyString) = p.
Proof.
  rewrite string_length_app. cbn [String.length].
  replace (String.length p + 1 - 1)%nat with (String.length p) by lia.
  apply substring_prefix.
Qed.

(** X7: a guard with a non-empty pattern applies to a key exactly when the
    pattern is ["*"], is the key itself, or ends in ["*"] and the text before
    that star is a prefix of the key. *)
Theorem appliesTo_pattern (g : Guard.t) (targetKey : string) :
  Guard.key g <> EmptyString ->
  Guard.appliesTo g targetKey = true <->
  Guard.key g = "*" \/ Guard.key g = targetKey
  \/ exists p, Guard.key g = p +:+ "*" /\ String.prefix p targetKey = true.
Proof.
  intros _. unfold Guard.appliesTo.
  destruct (String.eqb_spec (Guard.key g) "*") as [Hstar|Hstar]; [tauto|].
  destruct (String.eqb_spec (Guard.key g) targetKey) as [Hkey|Hkey]; [tauto|].
  destruct (string_back (Guard.key g)) as [c|] eqn:Hback.
  - apply string_back_Some in Hback as (p & Hp).
    destruct (Ascii.eqb_spec c "*"%char) as [->|Hc].
    + rewrite Hp, strip_last, String.eqb_eq, <- prefix_correct.
      split; [intros H; right; right; exists p; done|].
      intros [H|[H|(q & Hq & Hpre)]]; [congruence | congruence |].
      assert (q = p); [|subst q; exact Hpre].
      rewrite <- (strip_last q "*"), <- (strip_last p "*"). congruence.
    + transitivity False.
      * destruct c as [[] [] [] [] [] [] [] []];
          solve [split; [discriminate | tauto] | congruence].
      * split; [tauto|]. intros [H|[H|(q & Hq & _)]]; [congruence | congruence |].
        apply Hc. assert (Hb : string_back (Guard.key g) = Some "*"%char).
        { apply string_back_Some. exists q. exact Hq. }
        assert (Hb' : string_back (Guard.key g) = Some c).
        { apply string_back_Some. exists p. exact Hp. }
        congruence.
  - split; [discriminate|]. intros [H|[H|(q & Hq & _)]]; [congruence | congruence |].
    assert (Hb : string_back (Guard.key g) = Some "*"%char).
    { apply string_back_Some. exists q. exact Hq. }
    congruence.
Qed.

(** X7, witness: the pattern ["sc*"] of the example RangeInt guard and the
    key ["score"]. *)
Lemma appliesTo_pattern_witness :
  Guard.appliesTo range_guard "score" = true.
Proof.
  apply (appliesTo_pattern range_guard "score").
  - discriminate.
  - right. right. exists "sc". split; reflexivity.
Defined.
(** ** Counter-offers are acceptable values *)

Lemma enum_partial_allowed lowerProposed (allowed allowed' : list string) :
  (forall x, x ∈ allowed' -> x ∈ allowed) ->
  forall alts,
    (forall a, a ∈ alts -> alt_value a ∈ allowed) ->
    forall a, a ∈ Guard.enum_partial lowerProposed allowed' alts ->
              alt_value a ∈ allowed.
Proof.
  induction allowed' as [|x allowed' IH]; intros Hsub alts Halts; [exact Halts|].
  cbn [Guard.enum_partial].
  assert (Hsub' : forall y, y ∈ allowed' -> y ∈ allowed)
    by (intros y Hy; apply Hsub; right; exact Hy).
  destruct (_ || _); [|apply IH; assumption].
  destruct (existsb _ alts); [apply IH; assumption|].
  apply IH; [assumption|]. intros a [Ha|Ha]%elem_of_app; [apply Halts, Ha|].
  apply list_elem_of_singleton in Ha as ->. apply Hsub. left.
Qed.

(** X8: every alternative an Enum guard offers is one of its allowed values,
    so the guard accepts it. *)
Theorem enum_alternatives_allowed (g : Guard.t) (allowed : list string)
    (value : string) (alt : Alternative) :
  Guard.kind g = Guard.EnumGuard allowed ->
  alt ∈ Guard.generateAlternatives g value ->
  alt_value alt ∈ allowed
  /\ fst (Guard.evaluate g (alt_value alt)) = ACCEPT.
Proof.
  intros Hkind Hin.
  assert (Hall : alt_value alt ∈ allowed).
  { unfold Guard.generateAlternatives, Guard.enum_alternatives in Hin.
    rewrite Hkind in Hin.
    set (lp := string_map tolower value) in *.
    set (exact := omap _ allowed) in *.
    assert (Hexact : forall a, a ∈ exact -> alt_value a ∈ allowed).
    { intros a Ha. apply list_elem_of_omap in Ha as (x & Hx & Hsome).
      destruct (String.eqb _ _); [|discriminate].
      injection Hsome as <-. exact Hx. }
    assert (Hpart : forall a, a ∈ Guard.enum_partial lp allowed exact ->
                              alt_value a ∈ allowed).
    { apply enum_partial_allowed; [auto | exact Hexact]. }
    destruct (Guard.enum_partial lp allowed exact) as [|a0 alts].
    - apply list_elem_of_fmap in Hin as (x & -> & Hx). cbn.
      apply list_elem_of_lookup in Hx as (i & Hi).
      apply lookup_take_Some in Hi as [Hi _].
      eapply list_elem_of_lookup_2, Hi.
    - apply Hpart, Hin. }
  split; [exact Hall|].
  unfold Guard.evaluate. rewrite Hkind.
  rewrite bool_decide_eq_true_2 by exact Hall. reflexivity.
Qed.

(** X8, witness: the example Enum guard and the first value it offers for
    ["unknown"]. *)
Lemma enum_alternatives_allowed_witness :
  "active" ∈ ["active"; "inactive"; "pending"]
  /\ fst (Guard.evaluate enum_guard "active") = ACCEPT.
Proof.
  apply (enum_alternatives_allowed enum_guard ["active"; "inactive"; "pending"]
           "unknown" (mkAlternative "active" "Allowed value")).
  - reflexivity.
  - vm_compute. left.
Defined.

Lemma stoi_to_string z :
  INT_MIN <= z <= INT_MAX -> stoi (to_string z) = Some z.
Proof.
  intros Hz. unfold stoi.
  pose proof (skip_ws_token (to_string z) EmptyString (to_string_token z)) as H.
  rewrite app_nil_r in H. rewrite H, read_int_to_string.
  destruct (Z.leb_spec INT_MIN z); [|lia].
  destruct (Z.leb_spec z INT_MAX); [reflexivity | lia].
Qed.

Lemma wrap_int_id z : INT_MIN <= z <= INT_MAX -> wrap_int z = z.
Proof.
  unfold INT_MIN, INT_MAX, wrap_int. intros Hz.
  rewrite Z.mod_small by lia. lia.
Qed.

Lemma range_accepts g lo hi x :
  Guard.kind g = Guard.RangeIntGuard lo hi ->
  INT_MIN <= x <= INT_MAX -> lo <= x <= hi ->
  fst (Guard.evaluate g (to_string x)) = ACCEPT.
Proof.
  intros Hkind Hx Hin. unfold Guard.evaluate.
  rewrite Hkind, (stoi_to_string _ Hx).
  destruct (Z.leb_spec lo x); [|lia].
  destruct (Z.leb_spec x hi); [reflexivity | lia].
Qed.

(** X9: a RangeInt guard with bounds [lo <= hi] whose difference and sum can
    be computed in [int] without overflow offers only values it accepts:
    the nearer bound and a point a quarter of the way in for a number out of
    range, the bounds and their midpoint for a text that is no number. *)
Theorem range_alternatives_accepted (g : Guard.t) (lo hi : Z) (value : string) :
  Guard.kind g = Guard.RangeIntGuard lo hi ->
  INT_MIN <= lo -> lo <= hi -> hi <= INT_MAX ->
  hi - lo <= INT_MAX ->
  INT_MIN <= lo + hi <= INT_MAX ->
  Forall (fun alt => fst (Guard.evaluate g (alt_value alt)) = ACCEPT)
         (Guard.generateAlternatives g value)
  /\ (fst (Guard.evaluate g value) <> ACCEPT ->
      Guard.generateAlternatives g value <> []).
Proof.
  intros Hkind Hlo Hle Hhi Hdiff Hsum.
  assert (Hq : 0 <= (hi - lo) ÷ 4 <= hi - lo).
  { Z.to_euclidean_division_equations. lia. }
  assert (Hm : lo <= (lo + hi) ÷ 2 <= hi).
  { Z.to_euclidean_division_equations. lia. }
  assert (Hacc : forall x, lo <= x <= hi -> fst (Guard.evaluate g (to_string x)) = ACCEPT).
  { intros x Hx. apply (range_accepts g lo hi); [exact Hkind | lia | exact Hx]. }
  unfold Guard.generateAlternatives, Guard.range_alternatives, Guard.evaluate at 2.
  rewrite Hkind. rewrite (wrap_int_id (hi - lo)) by (unfold INT_MIN in *; lia).
  rewrite (wrap_int_id (lo + hi)) by lia.
  rewrite (wrap_int_id (lo + _)) by (unfold INT_MIN, INT_MAX in *; lia).
  rewrite (wrap_int_id (hi - _)) by (unfold INT_MIN, INT_MAX in *; lia).
  destruct (stoi value) as [v|].
  - destruct (Z.ltb_spec v lo) as [Hv|Hv].
    + split; [|discriminate].
      destruct (lo <? hi); repeat constructor; cbn [alt_value]; apply Hacc; lia.
    + destruct (Z.ltb_spec hi v) as [Hv'|Hv'].
      * split; [|discriminate].
        destruct (lo <? hi); repeat constructor; cbn [alt_value]; apply Hacc; lia.
      * split; [constructor|].
        destruct (Z.leb_spec lo v); [|lia].
        destruct (Z.leb_spec v hi); [|lia]. cbn. congruence.
  - split; [|discriminate].
    repeat constructor; cbn [alt_value]; apply Hacc; lia.
Qed.

(** X9, witness: the example RangeInt guard [0, 100] and the value 150. *)
Lemma range_alternatives_accepted_witness :
  Forall (fun alt => fst (Guard.evaluate range_guard (alt_value alt)) = ACCEPT)
         (Guard.generateAlternatives range_guard "150")
  /\ (fst (Guard.evaluate range_guard "150") <> ACCEPT ->
      Guard.generateAlternatives range_guard "150" <> []).
Proof.
  apply (range_alternatives_accepted range_guard 0 100 "150");
    [reflexivity | unfold INT_MIN; lia | lia | unfold INT_MAX; lia
    | unfold INT_MAX; lia | unfold INT_MIN, INT_MAX; lia].
Defined.

Lemma string_fill_length n c : String.length (string_fill n c) = n.
Proof. induction n as [|n IH]; [reflexivity | cbn; rewrite IH; reflexivity]. Qed.

Lemma substring_length n s :
  (n <= String.length s)%nat -> String.length (String.substring 0 n s) = n.
Proof.
  revert s. induction n as [|n IH]; intros s Hn; [destruct s; reflexivity|].
  destruct s as [|c s]; [cbn in Hn; lia|].
  cbn. rewrite IH; [reflexivity | cbn in Hn; lia].
Qed.

Lemma length_accepts g lo hi x :
  Guard.kind g = Guard.LengthGuard lo hi ->
  fst (Guard.evaluate g x) = ACCEPT <-> (lo <= String.length x <= hi)%nat.
Proof.
  intros Hkind. unfold Guard.evaluate. rewrite Hkind. cbn zeta.
  destruct (Nat.leb_spec lo (String.length x));
    destruct (Nat.leb_spec (String.length x) hi); cbn [andb fst];
    split; intros; try lia; try discriminate; reflexivity.
Qed.

(** X10: a Length guard with [minLength <= maxLength] (and [maxLength * 4]
    within [size_t]) that does not accept a value offers first a value it
    accepts: the value padded with stars to exactly [minLength] characters,
    or cut to exactly [maxLength].  The further offer, the value cut to four
    fifths of [maxLength], is accepted exactly when that length is not below
    [minLength]. *)
Theorem length_alternatives_accepted (g : Guard.t) (lo hi : nat) (value : string) :
  Guard.kind g = Guard.LengthGuard lo hi ->
  (lo <= hi)%nat ->
  Z.of_nat hi * 4 < 2 ^ 64 ->
  fst (Guard.evaluate g value) <> ACCEPT ->
  exists first rest,
    Guard.generateAlternatives g value = first :: rest
    /\ fst (Guard.evaluate g (alt_value first)) = ACCEPT
    /\ String.length (alt_value first)
       = (if (String.length value <? lo)%nat then lo else hi)
    /\ Forall (fun alt =>
                 String.length (alt_value alt) = (hi * 4 / 5)%nat
                 /\ (fst (Guard.evaluate g (alt_value alt)) = ACCEPT
                     <-> (lo <= hi * 4 / 5)%nat)) rest.
Proof.
  intros Hkind Hle _ Hrej.
  assert (Hout : ~ (lo <= String.length value <= hi)%nat).
  { intros H. apply Hrej. apply (length_accepts g lo hi); assumption. }
  unfold Guard.generateAlternatives, Guard.length_alternatives. rewrite Hkind.
  cbn zeta. destruct (Nat.ltb_spec (String.length value) lo) as [Hshort|Hlong].
  - eexists _, []. split; [reflexivity|]. cbn [alt_value].
    assert (Hlen : String.length
                     (value +:+ string_fill (lo - String.length value) "*") = lo).
    { rewrite string_length_app, string_fill_length. lia. }
    split_and!; [| exact Hlen | constructor].
    apply (length_accepts g lo hi); [exact Hkind | lia].
  - destruct (Nat.ltb_spec hi (String.length value)) as [Hlt|]; [|lia].
    eexists _, _. split; [reflexivity|]. cbn [alt_value].
    assert (Hlen : String.length (String.substring 0 hi value) = hi)
      by (apply substring_length; lia).
    split_and!; [apply (length_accepts g lo hi); [exact Hkind | lia] | exact Hlen |].
    destruct (5 <? hi)%nat; [|constructor].
    assert (Hfive : (hi * 4 / 5 <= hi)%nat).
    { apply Nat.Div0.div_le_upper_bound. lia. }
    assert (Hlen' : String.length (String.substring 0 (hi * 4 / 5) value)
                    = (hi * 4 / 5)%nat) by (apply substring_length; lia).
    constructor; [|constructor]. cbn [alt_value]. split; [exact Hlen'|].
    rewrite (length_accepts g lo hi) by exact Hkind. rewrite Hlen'. lia.
Qed.

(** X10, witness: a guard for nine to ten characters and a value of twelve;
    the cut to ten is accepted, the cut to eight is not. *)
Lemma length_alternatives_accepted_witness :
  exists first rest,
    Guard.generateAlternatives tight_length_guard "abcdefghijkl" = first :: rest
    /\ fst (Guard.evaluate tight_length_guard (alt_value first)) = ACCEPT
    /\ String.length (alt_value first) = 10%nat
    /\ Forall (fun alt =>
                 String.length (alt_value alt) = 8%nat
                 /\ (fst (Guard.evaluate tight_length_guard (alt_value alt)) = ACCEPT
                     <-> (9 <= 8)%nat)) rest.
Proof.
  apply (length_alternatives_accepted tight_length_guard 9 10 "abcdefghijkl").
  - reflexivity.
  - lia.
  - reflexivity.
  - vm_compute. discriminate.
Defined.
(** ** The verdict and the alternatives of a simulation *)

Lemma existsb_offered collected alt :
  existsb (fun existing => String.eqb (alt_value existing) (alt_value alt)) collected
  = true <-> alt_value alt ∈ offered collected.
Proof.
  unfold offered. induction collected as [|c collected IH]; cbn.
  - split; [discriminate | intros H; inversion H].
  - rewrite orb_true_iff, IH, elem_of_cons, String.eqb_eq. intuition congruence.
Qed.

Lemma offered_mono (c m : list Alternative) x :
  (forall a, a ∈ c -> a ∈ m) -> x ∈ offered c -> x ∈ offered m.
Proof.
  unfold offered. intros Hsub (a & -> & Ha)%list_elem_of_fmap.
  apply list_elem_of_fmap. exists a. split; [reflexivity | apply Hsub, Ha].
Qed.

Lemma merge_alternatives_spec guardAlts :
  forall collected,
    let merged := KVStore.merge_alternatives collected guardAlts in
    (NoDup (offered collected) -> NoDup (offered merged))
    /\ (forall a, a ∈ merged -> a ∈ collected \/ a ∈ guardAlts)
    /\ (forall a, a ∈ collected -> a ∈ merged)
    /\ (forall a, a ∈ guardAlts -> alt_value a ∈ offered merged).
Proof.
  induction guardAlts as [|alt rest IH]; intros collected; cbn zeta.
  - cbn. split_and!; [auto | auto | auto | intros a Ha; inversion Ha].
  - cbn [KVStore.merge_alternatives].
    destruct (existsb _ collected) eqn:Hex.
    + destruct (IH collected) as (Hnd & Hfrom & Hkeep & Hall). cbn zeta in *.
      split_and!; [exact Hnd | | exact Hkeep |].
      * intros a Ha. destruct (Hfrom a Ha); [left | right; right]; assumption.
      * intros a [->|Ha]%elem_of_cons; [|apply Hall, Ha].
        apply existsb_offered in Hex. exact (offered_mono _ _ _ Hkeep Hex).
    + destruct (IH (collected ++ [alt])) as (Hnd & Hfrom & Hkeep & Hall).
      cbn zeta in *.
      assert (Hnew : alt_value alt ∉ offered collected).
      { intros Hin. apply existsb_offered in Hin. congruence. }
      split_and!.
      * intros Hc. apply Hnd. unfold offered. rewrite fmap_app.
        apply NoDup_app. split_and!; [exact Hc | | apply NoDup_singleton].
        intros x Hx [->|Hx']%elem_of_cons; [exact (Hnew Hx) | inversion Hx'].
      * intros a Ha. destruct (Hfrom a Ha) as [[Hc| ->%list_elem_of_singleton]%elem_of_app|Hr];
          [left; exact Hc | right; left | right; right; exact Hr].
      * intros a Ha. apply Hkeep, elem_of_app. left. exact Ha.
      * intros a [->|Ha]%elem_of_cons; [|apply Hall, Ha].
        apply list_elem_of_fmap. exists alt. split; [reflexivity|].
        apply Hkeep, elem_of_app. right. left.
Qed.

Lemma counter_offering_cons value g gs :
  counter_offering value (g :: gs)
  = if decide (verdict value g = COUNTER_OFFER) then g :: counter_offering value gs
    else counter_offering value gs.
Proof. unfold counter_offering, verdict. rewrite filter_cons. reflexivity. Qed.

(** A loop over guards none of which rejects. *)
Lemma simulate_loop_offers value gs :
  Forall (fun g => verdict value g <> REJECT) gs ->
  forall evaluation allAccepted collected,
    let final :=
      KVStore.simulate_loop gs value evaluation allAccepted collected in
    (allAccepted = true -> Forall (fun g => verdict value g = ACCEPT) gs ->
     final = KVStore.with_reason "All guards passed" evaluation)
    /\ (allAccepted = false \/ Exists (fun g => verdict value g = COUNTER_OFFER) gs ->
        result final = COUNTER_OFFER
        /\ triggeredGuards final
           = triggeredGuards evaluation ++ (Guard.name <$> counter_offering value gs)
        /\ (NoDup (offered collected) -> NoDup (offered (alternatives final)))
        /\ (forall a, a ∈ alternatives final ->
                      a ∈ collected \/ exists g, g ∈ gs /\ offers value g a)
        /\ (forall a, a ∈ collected -> a ∈ alternatives final)
        /\ (forall g a, g ∈ gs -> offers value g a ->
                        alt_value a ∈ offered (alternatives final))).
Proof.
  induction 1 as [|g gs Hg _ IH]; intros evaluation allAccepted collected; cbn zeta.
  - cbn [KVStore.simulate_loop]. split.
    + intros -> _. reflexivity.
    + intros [->|Hex]; [|inversion Hex]. cbn.
      split_and!; [reflexivity | rewrite List.app_nil_r; reflexivity | auto | auto | auto |].
      intros g a Hin. inversion Hin.
  - cbn [KVStore.simulate_loop]. rewrite counter_offering_cons.
    unfold verdict in Hg |- *.
    destruct (Guard.evaluate g value) as [r rs] eqn:Hev. cbn [fst] in *.
    destruct r; [| congruence |].
    + rewrite decide_False by discriminate.
      destruct (IH evaluation allAccepted collected) as [Hacc Hoff]. cbn zeta in *.
      split.
      * intros Ha Hall. apply Hacc; [exact Ha|]. inversion Hall; assumption.
      * intros Hsome.
        destruct Hoff as (Hr & Ht & Hnd & Hfrom & Hkeep & Hall).
        { destruct Hsome as [Hf|Hex]; [left; exact Hf|].
          inversion Hex as [? ? Hbad|]; subst; [|right; assumption].
          unfold verdict in Hbad. rewrite Hev in Hbad. discriminate. }
        split_and!; [exact Hr | exact Ht | exact Hnd | | exact Hkeep |].
        -- intros a Ha. destruct (Hfrom a Ha) as [Hc|(h & Hh & Ho)]; [left; exact Hc|].
           right. exists h. split; [right; exact Hh | exact Ho].
        -- intros h a [->|Hh]%elem_of_cons Ho; [|exact (Hall h a Hh Ho)].
           destruct Ho as [Hv _]. unfold verdict in Hv. rewrite Hev in Hv. discriminate.
    + rewrite decide_True by reflexivity.
      set (evaluation' := KVStore.with_reason _ _).
      set (collected' := KVStore.merge_alternatives collected
                           (Guard.generateAlternatives g value)).
      destruct (merge_alternatives_spec (Guard.generateAlternatives g value) collected)
        as (Mnd & Mfrom & Mkeep & Mall). cbn zeta in *. fold collected' in Mnd, Mfrom, Mkeep, Mall.
      destruct (IH evaluation' false collected') as [_ Hoff]. cbn zeta in *.
      destruct Hoff as (Hr & Ht & Hnd & Hfrom & Hkeep & Hall); [left; reflexivity|].
      split.
      * intros _ Hall'. inversion Hall' as [|? ? Hbad]; subst.
        unfold verdict in Hbad. rewrite Hev in Hbad. discriminate.
      * intros _. split_and!.
        -- exact Hr.
        -- rewrite Ht. subst evaluation'. cbn. rewrite <- List.app_assoc. reflexivity.
        -- intros Hc. apply Hnd, Mnd, Hc.
        -- intros a Ha. destruct (Hfrom a Ha) as [Hc|(h & Hh & Ho)].
           ++ destruct (Mfrom a Hc) as [Hc'|Hg'] ; [left; exact Hc'|].
              right. exists g. split; [left|]. split; [|exact Hg'].
              unfold verdict. rewrite Hev. reflexivity.
           ++ right. exists h. split; [right; exact Hh | exact Ho].
        -- intros a Ha. apply Hkeep, Mkeep, Ha.
        -- intros h a [->|Hh]%elem_of_cons Ho; [|exact (Hall h a Hh Ho)].
           destruct Ho as [_ Hin]. exact (offered_mono _ _ _ Hkeep (Mall a Hin)).
Qed.

Lemma verdict_cases value gs :
  Exists (fun g => verdict value g = REJECT) gs
  \/ Forall (fun g => verdict value g = ACCEPT) gs
  \/ (Forall (fun g => verdict value g <> REJECT) gs
      /\ Exists (fun g => verdict value g = COUNTER_OFFER) gs).
Proof.
  induction gs as [|g gs IH]; [right; left; constructor|].
  destruct (verdict value g) eqn:Hv.
  - destruct IH as [Hr|[Ha|[Hn Hc]]].
    + left. right. exact Hr.
    + right. left. constructor; assumption.
    + right. right. split; [constructor; [congruence | exact Hn] | right; exact Hc].
  - left. left. exact Hv.
  - destruct IH as [Hr|[Ha|[Hn Hc]]].
    + left. right. exact Hr.
    + right. right. split; [|left; exact Hv].
      constructor; [congruence|]. eapply Forall_impl; [exact Ha|]. cbn. congruence.
    + right. right. split; [constructor; [congruence | exact Hn] | left; exact Hv].
Qed.

(** What [simulateWrite] returns in each of the three cases. *)
Lemma simulateWrite_cases key value w :
  let gs := KVStore.getGuardsForKey key w in
  let e := answer (KVStore.simulateWrite key value) w in
  let initial :=
    mkWriteEvaluation ACCEPT key value EmptyString [] [] SAFE_DEFAULT EmptyString in
  (Exists (fun g => verdict value g = REJECT) gs ->
   result e = REJECT /\ alternatives e = [])
  /\ (Forall (fun g => verdict value g = ACCEPT) gs ->
      result e = ACCEPT /\ alternatives e = [] /\ triggeredGuards e = [])
  /\ (Forall (fun g => verdict value g <> REJECT) gs ->
      Exists (fun g => verdict value g = COUNTER_OFFER) gs ->
      result e = COUNTER_OFFER
      /\ triggeredGuards e = Guard.name <$> counter_offering value gs
      /\ NoDup (offered (alternatives e))
      /\ (forall a, a ∈ alternatives e -> exists g, g ∈ gs /\ offers value g a)
      /\ (forall g a, g ∈ gs -> offers value g a ->
                      alt_value a ∈ offered (alternatives e))).
Proof.
  cbn zeta. destruct (KVStore.getGuardsForKey key w) as [|g gs] eqn:Hgs.
  - split_and!.
    + intros Hex. inversion Hex.
    + intros _. unfold KVStore.simulateWrite. monad_step. rewrite Hgs. done.
    + intros _ Hex. inversion Hex.
  - rewrite (simulateWrite_unfold key value w g gs Hgs). split_and!.
    + intros Hex. destruct (first_reject value _ Hex) as (pre & h & post & -> & Hpre & Hh).
      destruct (simulate_loop_reject value pre h post Hpre Hh
                  (mkWriteEvaluation ACCEPT key value EmptyString [] [] SAFE_DEFAULT
                     EmptyString) true []) as (Hr & _ & Ha & _).
      split; [exact Hr | exact Ha].
    + intros Hall.
      assert (Hn : Forall (fun h => verdict value h <> REJECT) (g :: gs)).
      { eapply Forall_impl; [exact Hall|]. cbn. congruence. }
      destruct (simulate_loop_offers value _ Hn
                  (mkWriteEvaluation ACCEPT key value EmptyString [] [] SAFE_DEFAULT
                     EmptyString) true []) as [Hacc _].
      cbn zeta in Hacc. rewrite (Hacc eq_refl Hall). done.
    + intros Hn Hex.
      destruct (simulate_loop_offers value _ Hn
                  (mkWriteEvaluation ACCEPT key value EmptyString [] [] SAFE_DEFAULT
                     EmptyString) true []) as [_ Hoff].
      cbn zeta in Hoff.
      destruct Hoff as (Hr & Ht & Hnd & Hfrom & _ & Hall); [right; exact Hex|].
      split_and!; [exact Hr | exact Ht | apply Hnd; constructor | | exact Hall].
      intros a Ha. destruct (Hfrom a Ha) as [Hc|Hg]; [inversion Hc | exact Hg].
Qed.

(** X11: the verdict of [simulateWrite].  It is [ACCEPT] exactly when every
    applicable enabled guard accepts the value, and then names no guard and
    carries no alternative; it is [COUNTER_OFFER] exactly when no such guard
    rejects and at least one counter-offers, and then [triggeredGuards]
    lists the counter-offering guards in registration order. *)
Theorem simulateWrite_verdicts (w : World) (key value : string) :
  let gs := KVStore.getGuardsForKey key w in
  let e := answer (KVStore.simulateWrite key value) w in
  (result e = ACCEPT <-> Forall (fun g => verdict value g = ACCEPT) gs)
  /\ (result e = COUNTER_OFFER <->
      Forall (fun g => verdict value g <> REJECT) gs
      /\ Exists (fun g => verdict value g = COUNTER_OFFER) gs)
  /\ (result e = ACCEPT -> alternatives e = [] /\ triggeredGuards e = [])
  /\ (result e = COUNTER_OFFER ->
      triggeredGuards e = Guard.name <$> counter_offering value gs).
Proof.
  cbn zeta.
  destruct (simulateWrite_cases key value w) as (Hrej & Hacc & Hoff). cbn zeta in *.
  destruct (verdict_cases value (KVStore.getGuardsForKey key w))
    as [Hr|[Ha|[Hn Hc]]].
  - destruct (Hrej Hr) as [Hres _]. rewrite Hres.
    split_and!; try discriminate.
    + split; [discriminate|]. intros Hall. exfalso.
      apply Exists_exists in Hr as (g & Hg & Hv).
      rewrite Forall_forall in Hall. specialize (Hall g Hg). congruence.
    + split; [discriminate|]. intros [Hall _]. exfalso.
      apply Exists_exists in Hr as (g & Hg & Hv).
      rewrite Forall_forall in Hall. exact (Hall g Hg Hv).
  - destruct (Hacc Ha) as (Hres & Halt & Htrig). rewrite Hres.
    split_and!; try discriminate; [tauto | | tauto].
    split; [discriminate|]. intros [_ Hex]. exfalso.
    apply Exists_exists in Hex as (g & Hg & Hv).
    rewrite Forall_forall in Ha. specialize (Ha g Hg). congruence.
  - destruct (Hoff Hn Hc) as (Hres & Htrig & _). rewrite Hres.
    split_and!; try discriminate; [| tauto | tauto].
    split; [discriminate|]. intros Hall. exfalso.
    apply Exists_exists in Hc as (g & Hg & Hv).
    rewrite Forall_forall in Hall. specialize (Hall g Hg). congruence.
Qed.

(** X12: the alternatives of [simulateWrite] offer no value twice; each of
    them was generated by an applicable guard that counter-offers on the
    value, and in a counter-offer every value such a guard generates is
    among them. *)
Theorem simulateWrite_alternatives (w : World) (key value : string) :
  let gs := KVStore.getGuardsForKey key w in
  let e := answer (KVStore.simulateWrite key value) w in
  NoDup (offered (alternatives e))
  /\ (forall a, a ∈ alternatives e -> exists g, g ∈ gs /\ offers value g a)
  /\ (result e = COUNTER_OFFER ->
      forall g a, g ∈ gs -> offers value g a ->
                  alt_value a ∈ offered (alternatives e)).
Proof.
  cbn zeta.
  destruct (simulateWrite_cases key value w) as (Hrej & Hacc & Hoff). cbn zeta in *.
  destruct (verdict_cases value (KVStore.getGuardsForKey key w))
    as [Hr|[Ha|[Hn Hc]]].
  - destruct (Hrej Hr) as [Hres Halt]. rewrite Hres, Halt.
    split_and!; [constructor | intros a Hin; inversion Hin | discriminate].
  - destruct (Hacc Ha) as (Hres & Halt & _). rewrite Hres, Halt.
    split_and!; [constructor | intros a Hin; inversion Hin | discriminate].
  - destruct (Hoff Hn Hc) as (_ & _ & Hnd & Hfrom & Hall).
    split_and!; [exact Hnd | exact Hfrom | intros _; exact Hall].
Qed.
(** ** Decision policies on top of the simulation *)

Lemma applyDecisionPolicy_result w e :
  let f := answer (KVStore.applyDecisionPolicy e) w in
  result f
  = match result e with
    | ACCEPT => ACCEPT
    | REJECT => REJECT
    | COUNTER_OFFER =>
        match decisionPolicy w with
        | STRICT => REJECT
        | DEV_FRIENDLY => COUNTER_OFFER
        | SAFE_DEFAULT =>
            match alternatives e with [] => REJECT | _ => COUNTER_OFFER end
        end
    end
  /\ alternatives f
     = match result e, decisionPolicy w with
       | COUNTER_OFFER, STRICT => []
       | _, _ => alternatives e
       end
  /\ appliedPolicy f = decisionPolicy w
  /\ ev_key f = ev_key e /\ proposedValue f = proposedValue e
  /\ reason f = reason e /\ triggeredGuards f = triggeredGuards e.
Proof.
  cbn zeta. unfold KVStore.applyDecisionPolicy. monad_step.
  destruct e as [r k v rs alts trig pol prs]. cbn.
  destruct r, (decisionPolicy w); cbn; try destruct alts; cbn; done.
Qed.

(** X13: a decision policy never weakens a verdict and never invents
    anything.  Whatever the policy, the final verdict is [ACCEPT] exactly
    when the evaluation it is given is, a [REJECT] stays a [REJECT], the only
    change of verdict is from [COUNTER_OFFER] to [REJECT], the alternatives
    are kept or dropped altogether and are kept in a counter-offer; key,
    value, reason and triggered guards are passed through and the store
    state is not touched. *)
Theorem applyDecisionPolicy_never_weakens (w : World) (e : WriteEvaluation) :
  let f := answer (KVStore.applyDecisionPolicy e) w in
  (result f = ACCEPT <-> result e = ACCEPT)
  /\ (result e = REJECT -> result f = REJECT)
  /\ (result f = result e \/ (result e = COUNTER_OFFER /\ result f = REJECT))
  /\ (alternatives f = alternatives e \/ alternatives f = [])
  /\ (result f = COUNTER_OFFER -> alternatives f = alternatives e)
  /\ appliedPolicy f = decisionPolicy w
  /\ ev_key f = ev_key e /\ proposedValue f = proposedValue e
  /\ reason f = reason e /\ triggeredGuards f = triggeredGuards e
  /\ run (KVStore.applyDecisionPolicy e) w = w.
Proof.
  cbn zeta.
  destruct (applyDecisionPolicy_result w e) as (Hr & Ha & Hp & Hk & Hv & Hrs & Ht).
  cbn zeta in *. rewrite Hr, Ha.
  split_and!; try assumption; try reflexivity;
    destruct (result e), (decisionPolicy w); try destruct (alternatives e);
    try tauto; try (split; discriminate); try discriminate; auto.
Qed.

(** X14: under [STRICT] a proposal is never answered by a counter-offer and
    never carries alternatives; it is accepted exactly when every applicable
    enabled guard accepts the value. *)
Theorem proposeSet_strict (w : World) (key value : string) :
  decisionPolicy w = STRICT ->
  let f := answer (KVStore.proposeSet key value) w in
  result f <> COUNTER_OFFER
  /\ alternatives f = []
  /\ (result f = ACCEPT <->
      Forall (fun g => verdict value g = ACCEPT) (KVStore.getGuardsForKey key w))
  /\ (result f = REJECT <->
      Exists (fun g => verdict value g <> ACCEPT) (KVStore.getGuardsForKey key w)).
Proof.
  intros Hpol. cbn zeta. rewrite proposeSet_unfold.
  set (e := answer (KVStore.simulateWrite key value) w).
  destruct (applyDecisionPolicy_result w e) as (Hr & Ha & _). cbn zeta in *.
  rewrite Hr, Ha, Hpol.
  destruct (simulateWrite_cases key value w) as (Hrej & Hacc & Hoff). cbn zeta in *.
  fold e in Hrej, Hacc, Hoff.
  destruct (verdict_cases value (KVStore.getGuardsForKey key w))
    as [Hx|[Hx|[Hn Hx]]].
  - destruct (Hrej Hx) as [Hres Halt]. rewrite Hres, Halt.
    split_and!; [discriminate | reflexivity | |].
    + split; [discriminate|]. intros Hall. exfalso.
      apply Exists_exists in Hx as (g & Hg & Hv).
      rewrite Forall_forall in Hall. specialize (Hall g Hg). congruence.
    + split; [|reflexivity]. intros _.
      apply Exists_exists in Hx as (g & Hg & Hv).
      apply Exists_exists. exists g. split; [exact Hg | congruence].
  - destruct (Hacc Hx) as (Hres & Halt & _). rewrite Hres, Halt.
    split_and!; [discriminate | reflexivity | tauto |].
    split; [discriminate|]. intros Hex. exfalso.
    apply Exists_exists in Hex as (g & Hg & Hv).
    rewrite Forall_forall in Hx. exact (Hv (Hx g Hg)).
  - destruct (Hoff Hn Hx) as (Hres & _). rewrite Hres.
    split_and!; [discriminate | reflexivity | |].
    + split; [discriminate|]. intros Hall. exfalso.
      apply Exists_exists in Hx as (g & Hg & Hv).
      rewrite Forall_forall in Hall. specialize (Hall g Hg). congruence.
    + split; [|reflexivity]. intros _.
      apply Exists_exists in Hx as (g & Hg & Hv).
      apply Exists_exists. exists g. split; [exact Hg | congruence].
Qed.

(** X14, witness: the guarded example under [STRICT], a score out of range. *)
Lemma proposeSet_strict_witness :
  result (answer (KVStore.proposeSet "score" "150") strict_world) <> COUNTER_OFFER
  /\ alternatives (answer (KVStore.proposeSet "score" "150") strict_world) = [].
Proof.
  destruct (proposeSet_strict strict_world "score" "150") as (H1 & H2 & _).
  - reflexivity.
  - split; assumption.
Defined.

(** X15: under [DEV_FRIENDLY] a proposal is answered as the simulation
    answers it: it is rejected exactly when some applicable enabled guard
    rejects the value, and a rejection is never turned into a
    counter-offer. *)
Theorem proposeSet_dev_friendly (w : World) (key value : string) :
  decisionPolicy w = DEV_FRIENDLY ->
  let e := answer (KVStore.simulateWrite key value) w in
  let f := answer (KVStore.proposeSet key value) w in
  result f = result e
  /\ alternatives f = alternatives e
  /\ (result f = REJECT <->
      Exists (fun g => verdict value g = REJECT) (KVStore.getGuardsForKey key w)).
Proof.
  intros Hpol. cbn zeta. rewrite proposeSet_unfold.
  set (e := answer (KVStore.simulateWrite key value) w).
  destruct (applyDecisionPolicy_result w e) as (Hr & Ha & _). cbn zeta in *.
  rewrite Hr, Ha, Hpol.
  assert (Hres : match result e with
                 | ACCEPT => ACCEPT | REJECT => REJECT | COUNTER_OFFER => COUNTER_OFFER
                 end = result e) by (destruct (result e); reflexivity).
  rewrite Hres.
  split_and!; [reflexivity | destruct (result e); reflexivity |].
  destruct (simulateWrite_cases key value w) as (Hrej & Hacc & Hoff). cbn zeta in *.
  fold e in Hrej, Hacc, Hoff.
  destruct (verdict_cases value (KVStore.getGuardsForKey key w))
    as [Hx|[Hx|[Hn Hx]]].
  - destruct (Hrej Hx) as [-> _]. tauto.
  - destruct (Hacc Hx) as (-> & _). split; [discriminate|]. intros Hex. exfalso.
    apply Exists_exists in Hex as (g & Hg & Hv).
    rewrite Forall_forall in Hx. specialize (Hx g Hg). congruence.
  - destruct (Hoff Hn Hx) as (-> & _). split; [discriminate|]. intros Hex. exfalso.
    apply Exists_exists in Hex as (g & Hg & Hv).
    rewrite Forall_forall in Hn. exact (Hn g Hg Hv).
Qed.

(** X15, witness: the guarded example under [DEV_FRIENDLY]; the value is no
    number and stays rejected. *)
Lemma proposeSet_dev_friendly_witness :
  result (answer (KVStore.proposeSet "score" "abc") dev_friendly_world)
  = result (answer (KVStore.simulateWrite "score" "abc") dev_friendly_world).
Proof.
  destruct (proposeSet_dev_friendly dev_friendly_world "score" "abc") as (H & _).
  - reflexivity.
  - exact H.
Defined.

(** X16: under [SAFE_DEFAULT] a proposal is answered by a counter-offer
    exactly when no applicable enabled guard rejects the value and some
    guard that counter-offers generates at least one alternative; the
    counter-offer then carries alternatives, each value once. *)
Theorem proposeSet_safe_default (w : World) (key value : string) :
  decisionPolicy w = SAFE_DEFAULT ->
  let gs := KVStore.getGuardsForKey key w in
  let f := answer (KVStore.proposeSet key value) w in
  (result f = COUNTER_OFFER <->
   Forall (fun g => verdict value g <> REJECT) gs
   /\ exists g a, g ∈ gs /\ offers value g a)
  /\ (result f = COUNTER_OFFER ->
      alternatives f <> [] /\ NoDup (offered (alternatives f))).
Proof.
  intros Hpol. cbn zeta. rewrite proposeSet_unfold.
  set (e := answer (KVStore.simulateWrite key value) w).
  destruct (applyDecisionPolicy_result w e) as (Hr & Ha & _). cbn zeta in *.
  rewrite Hr, Ha, Hpol.
  destruct (simulateWrite_cases key value w) as (Hrej & Hacc & Hoff). cbn zeta in *.
  fold e in Hrej, Hacc, Hoff.
  destruct (verdict_cases value (KVStore.getGuardsForKey key w))
    as [Hx|[Hx|[Hn Hx]]].
  - destruct (Hrej Hx) as [Hres Halt]. rewrite Hres.
    split; [|discriminate]. split; [discriminate|]. intros [Hall _]. exfalso.
    apply Exists_exists in Hx as (g & Hg & Hv).
    rewrite Forall_forall in Hall. exact (Hall g Hg Hv).
  - destruct (Hacc Hx) as (Hres & _). rewrite Hres.
    split; [|discriminate]. split; [discriminate|].
    intros (_ & g & a & Hg & Hv & _). exfalso.
    rewrite Forall_forall in Hx. specialize (Hx g Hg). congruence.
  - destruct (Hoff Hn Hx) as (Hres & _ & Hnd & Hfrom & Hall). rewrite Hres.
    destruct (alternatives e) as [|a0 alts] eqn:Halts.
    + split; [|discriminate]. split; [discriminate|].
      intros (_ & g & a & Hg & Ho). exfalso.
      specialize (Hall g a Hg Ho). inversion Hall.
    + split; [|intros _; split; [discriminate | exact Hnd]].
      split; [|reflexivity]. intros _. split; [exact Hn|].
      destruct (Hfrom a0) as (g & Hg & Ho); [left|]. exists g, a0. done.
Qed.

(** X16, witness: the guarded example (its policy is [SAFE_DEFAULT]) and a
    status outside the allowed set. *)
Lemma proposeSet_safe_default_witness :
  alternatives (answer (KVStore.proposeSet "status" "unknown") guarded_world) <> []
  /\ NoDup (offered (alternatives
                       (answer (KVStore.proposeSet "status" "unknown") guarded_world))).
Proof.
  destruct (proposeSet_safe_default guarded_world "status" "unknown") as [_ H].
  - reflexivity.
  - apply H. vm_compute. reflexivity.
Defined.

(** ** Registering and removing guards *)

Lemma remove_first_spec name gs :
  match KVStore.remove_first name gs with
  | Some gs' =>
      exists pre g post,
        gs = pre ++ g :: post /\ Guard.name g = name
        /\ (name ∉ (Guard.name <$> pre)) /\ gs' = pre ++ post
  | None => name ∉ (Guard.name <$> gs)
  end.
Proof.
  induction gs as [|g gs IH]; cbn [KVStore.remove_first].
  - cbn. apply not_elem_of_nil.
  - destruct (String.eqb_spec (Guard.name g) name) as [Heq|Hne].
    + exists [], g, gs. split_and!; [reflexivity | exact Heq | apply not_elem_of_nil | reflexivity].
    + destruct (KVStore.remove_first name gs) as [gs'|]; cbn.
      * destruct IH as (pre & h & post & -> & Hh & Hpre & ->).
        exists (g :: pre), h, post. split_and!; [reflexivity | exact Hh | | reflexivity].
        cbn. intros [Hx|Hx]%elem_of_cons; [congruence | exact (Hpre Hx)].
      * intros [Hx|Hx]%elem_of_cons; [congruence | exact (IH Hx)].
Qed.

(** X17: [removeGuard name] answers [true] exactly when a guard of that name
    is registered; it then removes the first such guard and keeps the others
    in their order, and otherwise changes nothing.  The store and the files
    are never touched. *)
Theorem removeGuard_first (w : World) (name : string) :
  let w' := run (KVStore.removeGuard name) w in
  (answer (KVStore.removeGuard name) w = true <-> name ∈ (Guard.name <$> guards w))
  /\ (answer (KVStore.removeGuard name) w = true ->
      exists pre g post,
        guards w = pre ++ g :: post /\ Guard.name g = name
        /\ (name ∉ (Guard.name <$> pre)) /\ guards w' = pre ++ post)
  /\ (answer (KVStore.removeGuard name) w = false -> w' = w)
  /\ store w' = store w /\ wal_file w' = wal_file w
  /\ decisionPolicy w' = decisionPolicy w.
Proof.
  cbn zeta. unfold KVStore.removeGuard. monad_step.
  pose proof (remove_first_spec name (guards w)) as Hspec.
  destruct (KVStore.remove_first name (guards w)) as [gs'|]; cbn [fst snd].
  - destruct Hspec as (pre & g & post & Hgs & Hg & Hpre & ->).
    split_and!; try reflexivity; [| | discriminate].
    + split; [intros _ | reflexivity]. rewrite Hgs, fmap_app.
      apply elem_of_app. right. rewrite fmap_cons. apply elem_of_cons. left.
      symmetry. exact Hg.
    + intros _. exists pre, g, post.
      split_and!; [exact Hgs | exact Hg | exact Hpre | reflexivity].
  - split_and!; try reflexivity; [| discriminate].
    split; [discriminate | intros H; contradiction].
Qed.
(** ** Command lines *)

Lemma tokenize_token_ws tok c rest :
  is_token tok = true -> isspace c = true ->
  CommandParser.tokenize (tok +:+ String c rest) = tok :: CommandParser.tokenize rest.
Proof.
  intros Htok Hc. destruct (is_token_cons tok Htok) as (a & t & -> & Ha & Ht).
  clear Htok. revert a Ha. induction t as [|b t IH]; intros a Ha.
  - rewrite app_cons, app_nil_l. cbn [CommandParser.tokenize]. rewrite Ha, Hc.
    reflexivity.
  - cbn in Ht. apply andb_true_iff in Ht as [Hb Ht]. apply negb_true_iff in Hb.
    rewrite app_cons.
    change (CommandParser.tokenize (String a (String b t +:+ String c rest)))
      with (if isspace a then CommandParser.tokenize (String b t +:+ String c rest)
            else if isspace b
                 then String a EmptyString
                        :: CommandParser.tokenize (String b t +:+ String c rest)
                 else match CommandParser.tokenize (String b t +:+ String c rest) with
                      | h :: tl => String a h :: tl
                      | [] => [String a EmptyString]
                      end).
    rewrite Ha, Hb, (IH Ht b Hb). reflexivity.
Qed.

Lemma tokenize_token tok :
  is_token tok = true -> CommandParser.tokenize tok = [tok].
Proof.
  intros Htok. destruct (is_token_cons tok Htok) as (a & t & -> & Ha & Ht).
  clear Htok. revert a Ha. induction t as [|b t IH]; intros a Ha.
  - cbn. rewrite Ha. reflexivity.
  - cbn in Ht. apply andb_true_iff in Ht as [Hb Ht]. apply negb_true_iff in Hb.
    change (CommandParser.tokenize (String a (String b t)))
      with (if isspace a then CommandParser.tokenize (String b t)
            else if isspace b
                 then String a EmptyString :: CommandParser.tokenize (String b t)
                 else match CommandParser.tokenize (String b t) with
                      | h :: tl => String a h :: tl
                      | [] => [String a EmptyString]
                      end).
    rewrite Ha, Hb, (IH Ht b Hb). reflexivity.
Qed.

Lemma concat_cons sep x y l :
  String.concat sep (x :: y :: l) = x +:+ sep +:+ String.concat sep (y :: l).
Proof. reflexivity. Qed.

Lemma tokenize_concat_tokens toks :
  Forall (fun t => is_token t = true) toks ->
  CommandParser.tokenize (String.concat " " toks) = toks.
Proof.
  induction 1 as [|t toks Ht Htoks IH]; [reflexivity|].
  destruct toks as [|u toks]; [exact (tokenize_token t Ht)|].
  rewrite concat_cons.
  change (" " +:+ String.concat " " (u :: toks))
    with (String " " (String.concat " " (u :: toks))).
  rewrite (tokenize_token_ws t " " _ Ht eq_refl), IH. reflexivity.
Qed.

Lemma tokenize_all_tokens input :
  Forall (fun t => is_token t = true) (CommandParser.tokenize input).
Proof.
  induction input as [|c r IH]; [constructor|].
  cbn [CommandParser.tokenize].
  destruct (isspace c) eqn:Hc; [exact IH|].
  assert (Hone : is_token (String c EmptyString) = true).
  { unfold is_token. cbn. rewrite Hc. reflexivity. }
  destruct r as [|c' r']; [repeat constructor; exact Hone|].
  destruct (isspace c') eqn:Hc'; [constructor; [exact Hone | exact IH]|].
  destruct (CommandParser.tokenize (String c' r')) as [|h tl];
    [repeat constructor; exact Hone|].
  inversion IH as [|? ? Hh Htl]; subst. constructor; [|exact Htl].
  unfold is_token in *. cbn. rewrite Hc. cbn.
  apply andb_true_iff in Hh as [_ Hh]. exact Hh.
Qed.

(** X18: tokens.  Every token [tokenize] returns is non-empty and free of
    white space, and a line made of such tokens separated by single blanks
    is split into exactly these tokens. *)
Theorem tokenize_round_trip (input : string) (toks : list string) :
  Forall (fun t => is_token t = true) (CommandParser.tokenize input)
  /\ (Forall (fun t => is_token t = true) toks ->
      CommandParser.tokenize (String.concat " " toks) = toks).
Proof.
  split; [apply tokenize_all_tokens | apply tokenize_concat_tokens].
Qed.

Lemma toupper_idem c : toupper (toupper c) = toupper c.
Proof. destruct c as [[] [] [] [] [] [] [] []]; reflexivity. Qed.

Lemma toupper_tolower c : toupper (tolower c) = toupper c.
Proof. destruct c as [[] [] [] [] [] [] [] []]; reflexivity. Qed.

Lemma string_map_map f g s :
  string_map f (string_map g s) = string_map (fun c => f (g c)) s.
Proof. induction s as [|c s IH]; [reflexivity | cbn; rewrite IH; reflexivity]. Qed.

Lemma string_map_ext f g s :
  (forall c, f c = g c) -> string_map f s = string_map g s.
Proof.
  intros H. induction s as [|c s IH]; [reflexivity | cbn; rewrite H, IH; reflexivity].
Qed.

Lemma getCommandType_not_getat cmd :
  CommandParser.getCommandType cmd <> CommandParser.GETAT.
Proof.
  unfold CommandParser.getCommandType. cbn zeta.
  repeat (destruct (String.eqb _ _); [discriminate|]). cbn. discriminate.
Qed.

(** X19: the command word is recognised whatever its case: a word, its
    upper-case form and its lower-case form have the same command type; and
    no word has the type [GETAT], which only the [GET key AT ...] form of a
    line produces. *)
Theorem getCommandType_case_insensitive (cmd : string) :
  CommandParser.getCommandType (string_map toupper cmd)
  = CommandParser.getCommandType cmd
  /\ CommandParser.getCommandType (string_map tolower cmd)
     = CommandParser.getCommandType cmd
  /\ CommandParser.getCommandType cmd <> CommandParser.GETAT.
Proof.
  unfold CommandParser.getCommandType. cbn zeta.
  rewrite !string_map_map.
  rewrite (string_map_ext _ toupper cmd toupper_idem).
  rewrite (string_map_ext (fun c => toupper (tolower c)) toupper cmd toupper_tolower).
  split_and!; [reflexivity | reflexivity |].
  apply (getCommandType_not_getat cmd).
Qed.

(** X20: [parse] answers [GETAT] exactly for a line of at least four tokens
    whose first is the word GET and whose third is the word AT, in any case;
    its arguments are then the second token and the remaining tokens joined
    by single blanks.  A line without tokens is [INVALID]. *)
Theorem parse_getat (input : string) :
  let cmd := CommandParser.parse input in
  (CommandParser.type cmd = CommandParser.GETAT <->
   exists t0 key at_ t3 more,
     CommandParser.tokenize input = t0 :: key :: at_ :: t3 :: more
     /\ CommandParser.getCommandType t0 = CommandParser.GET
     /\ string_map toupper at_ = "AT")
  /\ (forall t0 key at_ t3 more,
        CommandParser.tokenize input = t0 :: key :: at_ :: t3 :: more ->
        CommandParser.type cmd = CommandParser.GETAT ->
        CommandParser.args cmd = [key; String.concat " " (t3 :: more)])
  /\ (CommandParser.tokenize input = [] ->
      cmd = CommandParser.mkCommand CommandParser.INVALID []).
Proof.
  cbn zeta. unfold CommandParser.parse.
  assert (Hno : forall t, CommandParser.getCommandType t <> CommandParser.GETAT)
    by (intros t; apply getCommandType_not_getat).
  destruct (CommandParser.tokenize input) as [|t0 [|t1 [|t2 [|t3 more]]]].
  - split_and!; [split; [discriminate|] | discriminate | reflexivity].
    intros (? & ? & ? & ? & ? & H & _); discriminate.
  - cbn. split_and!; [split; [intros H; destruct (Hno _ H)|] | discriminate | discriminate].
    intros (? & ? & ? & ? & ? & H & _); discriminate.
  - cbn. split_and!; [split; [intros H; destruct (Hno _ H)|] | discriminate | discriminate].
    intros (? & ? & ? & ? & ? & H & _); discriminate.
  - cbn. split_and!; [split; [intros H; destruct (Hno _ H)|] | discriminate | discriminate].
    intros (? & ? & ? & ? & ? & H & _); discriminate.
  - destruct (String.eqb_spec (string_map toupper t2) "AT") as [Hat|Hat];
      destruct (String.eqb (string_map toupper t1) "GET");
      destruct (String.eqb (string_map toupper t3) "AT");
      destruct (CommandParser.getCommandType t0) eqn:Ht0;
      try (exfalso; exact (Hno t0 Ht0));
      destruct more as [|t4 more'];
      cbn [CommandParser.is_GET CommandParser.is_EXPLAIN andb
           CommandParser.type CommandParser.args CommandParser.join_tokens];
      (split_and!;
       [ split;
         [ intros H;
           first [ discriminate H
                 | exists t0, t1, t2, t3; eexists;
                   split_and!; [reflexivity | exact Ht0 | exact Hat] ]
         | intros (? & ? & ? & ? & ? & Heq & Hg & Ha);
           injection Heq as <- <- <- <- <-; try reflexivity; congruence ]
       | intros ? ? ? ? ? Heq H; injection Heq as <- <- <- <- <-;
         first [discriminate H | reflexivity]
       | discriminate ]).
Qed.
(** ** Recovery reads and never writes *)

Lemma untouched_refl w : untouched w w.
Proof. unfold untouched. tauto. Qed.

Lemma untouched_trans w1 w2 w3 :
  untouched w1 w2 -> untouched w2 w3 -> untouched w1 w3.
Proof. unfold untouched. intuition congruence. Qed.

Lemma replay_step_ret : replay_step (mret tt).
Proof. intros w Hoff. split; [apply untouched_refl | exact Hoff]. Qed.

Lemma replay_step_bind (m1 m2 : M unit) :
  replay_step m1 -> replay_step m2 -> replay_step (m1;; m2).
Proof.
  intros H1 H2 w Hoff. destruct (H1 w Hoff) as [Hu1 Hoff1].
  destruct (H2 (run m1 w) Hoff1) as [Hu2 Hoff2].
  split; [exact (untouched_trans _ _ _ Hu1 Hu2) | exact Hoff2].
Qed.

Lemma replay_step_for_each {A} (body : A -> M unit) l :
  (forall x, replay_step (body x)) -> replay_step (for_each l body).
Proof.
  intros Hbody. induction l as [|x l IH]; [apply replay_step_ret|].
  cbn [for_each]. apply replay_step_bind; [apply Hbody | exact IH].
Qed.

Lemma applyRetention_untouched key w :
  untouched w (run (KVStore.applyRetention key) w)
  /\ walEnabled (run (KVStore.applyRetention key) w) = walEnabled w.
Proof.
  unfold KVStore.applyRetention, KVStore.put_versions, now. monad_step.
  destruct (store w !! key) as [[|v l]|];
    try (split; [apply untouched_refl | reflexivity]).
  destruct (mode (retentionPolicy w));
    try (split; [apply untouched_refl | reflexivity]).
  - destruct (_ && _); monad_step;
      (split; [unfold untouched; cbn; tauto | reflexivity]).
  - destruct (0 <? _); monad_step;
      (split; [unfold untouched; cbn; tauto | reflexivity]).
Qed.

Lemma setAtTime_step key value t : replay_step (KVStore.setAtTime key value t;; mret tt).
Proof.
  intros w Hoff.
  set (w1 := with_store (<[key := default [] (store w !! key) ++ [mkVersion t value]]>
                           (store w)) w).
  change (run (KVStore.setAtTime key value t;; mret tt) w)
    with (run (KVStore.applyRetention key) w1).
  destruct (applyRetention_untouched key w1) as [Hu Hw].
  split; [exact Hu | rewrite Hw; exact Hoff].
Qed.

Lemma del_step key : replay_step (KVStore.del key;; mret tt).
Proof.
  intros w Hoff.
  change (run (KVStore.del key;; mret tt) w) with (run (KVStore.del key) w).
  rewrite (del_quiet key w Hoff). split; [unfold untouched; cbn; tauto | exact Hoff].
Qed.

Lemma setDecisionPolicy_step p : replay_step (KVStore.setDecisionPolicy p).
Proof.
  intros w Hoff. rewrite (setDecisionPolicy_quiet p w Hoff).
  split; [unfold untouched; cbn; tauto | exact Hoff].
Qed.

Lemma snapshot_policy_step cmdLine : replay_step (Main.snapshot_policy cmdLine).
Proof.
  unfold Main.snapshot_policy.
  destruct (CommandParser.type _); try apply replay_step_ret.
  destruct (CommandParser.args _) as [|subCmd [|policyName rest]];
    try apply replay_step_ret.
  destruct (String.eqb subCmd "SET"); [|apply replay_step_ret].
  destruct (parse_policy policyName); [|apply replay_step_ret].
  apply setDecisionPolicy_step.
Qed.

Lemma snapshot_data_step t cmdLine : replay_step (Main.snapshot_data t cmdLine).
Proof.
  unfold Main.snapshot_data.
  destruct (CommandParser.type _); try apply replay_step_ret.
  destruct (CommandParser.args _) as [|key [|value rest]]; try apply replay_step_ret.
  apply setAtTime_step.
Qed.

Lemma wal_policy_step cmdLine : replay_step (Main.wal_policy cmdLine).
Proof.
  unfold Main.wal_policy.
  destruct (extract (mkStream cmdLine false)) as [cmdType iss].
  destruct (String.eqb cmdType "POLICY"); [|apply replay_step_ret].
  destruct (extract iss) as [subCmd iss1].
  destruct (extract iss1) as [policyName iss2].
  destruct (String.eqb subCmd "SET"); [|apply replay_step_ret].
  destruct (parse_policy policyName) as [p|]; [|apply replay_step_ret].
  intros w Hoff.
  change (run (KVStore.setWalEnabled false;; KVStore.setDecisionPolicy p) w)
    with (run (KVStore.setDecisionPolicy p) (with_walEnabled false w)).
  destruct (setDecisionPolicy_step p (with_walEnabled false w) eq_refl) as [Hu Hw].
  split; [exact Hu | exact Hw].
Qed.

Lemma wal_data_step cmdLine : replay_step (Main.wal_data cmdLine).
Proof.
  unfold Main.wal_data.
  destruct (extract (mkStream cmdLine false)) as [cmdType iss].
  destruct (String.eqb cmdType "SET").
  - destruct (extract iss) as [key iss1].
    destruct (extract iss1) as [value iss2].
    destruct (extract_ll iss2) as [ms|]; [apply setAtTime_step|].
    intros w Hoff.
    change (run (t ← now; KVStore.setAtTime key value t;; mret tt) w)
      with (run (KVStore.setAtTime key value (clock w (ticks w));; mret tt)
                (with_ticks (S (ticks w)) w)).
    destruct (setAtTime_step key value (clock w (ticks w))
                (with_ticks (S (ticks w)) w) Hoff) as [Hu Hw].
    split; [exact Hu | exact Hw].
  - destruct (String.eqb cmdType "DEL"); [|apply replay_step_ret].
    destruct (extract iss) as [key iss1].
    destruct (nonempty key); [apply del_step | apply replay_step_ret].
Qed.

Lemma keeps_files_bind {A B} (m : M A) (f : A -> M B) :
  keeps_files m -> (forall x, keeps_files (f x)) -> keeps_files (x ← m; f x).
Proof.
  intros Hm Hf w Hon. unfold mbind, M_bind.
  destruct (Hm w Hon) as [Hu Hon'].
  destruct (Hf (fst (m w)) (snd (m w)) Hon') as [Hu' Hon''].
  split; [exact (untouched_trans _ _ _ Hu Hu') | exact Hon''].
Qed.

Lemma keeps_files_ret {A} (x : A) : keeps_files (mret x).
Proof. intros w Hon. split; [apply untouched_refl | exact Hon]. Qed.

Lemma initialize_keeps : keeps_files WAL.initialize.
Proof.
  intros w Hon. unfold WAL.initialize, next_io, mbind, M_bind, modify, mret, M_ret.
  cbn [fst snd]. destruct (io w (io_ops w)); cbn [fst snd io io_ops with_io_ops];
    try (split; [unfold untouched; cbn; tauto | exact Hon]).
  destruct (io w (S (io_ops w)));
    (split; [unfold untouched; cbn; tauto | exact Hon]).
Qed.

Lemma readSnapshot_keeps : keeps_files WAL.readSnapshot.
Proof.
  intros w Hon. unfold WAL.readSnapshot, next_io, mbind, M_bind, gets, mret, M_ret.
  cbn [fst snd]. destruct (io w (io_ops w));
    (split; [unfold untouched; cbn; tauto | exact Hon]).
Qed.

Lemma readLog_keeps : keeps_files WAL.readLog.
Proof.
  intros w Hon. unfold WAL.readLog, next_io, mbind, M_bind, gets, mret, M_ret.
  cbn [fst snd]. destruct (io w (io_ops w));
    (split; [unfold untouched; cbn; tauto | exact Hon]).
Qed.

(** The two replays of [startup], whatever the lines are. *)
Lemma snapshot_replay_keeps cmds :
  keeps_files (when (negb (Main.is_nil cmds))
                 (KVStore.setWalEnabled false;;
                  snapshotTime ← now;
                  for_each cmds Main.snapshot_policy;;
                  for_each cmds (Main.snapshot_data snapshotTime);;
                  KVStore.setWalEnabled true)).
Proof.
  intros w Hon. destruct cmds as [|c cmds]; [split; [apply untouched_refl | exact Hon]|].
  cbn [Main.is_nil negb when].
  set (w1 := with_ticks (S (ticks w)) (with_walEnabled false w)).
  set (t := clock w (ticks w)).
  change (snd (_ w))
    with (with_walEnabled true
            (run (for_each (c :: cmds) Main.snapshot_policy;;
                  for_each (c :: cmds) (Main.snapshot_data t)) w1)).
  destruct (replay_step_bind _ _
              (replay_step_for_each Main.snapshot_policy (c :: cmds) snapshot_policy_step)
              (replay_step_for_each (Main.snapshot_data t) (c :: cmds)
                 (snapshot_data_step t)) w1 eq_refl) as [Hu _].
  split; [|reflexivity]. unfold untouched in *. exact Hu.
Qed.

Lemma wal_replay_keeps cmds :
  keeps_files (when (negb (Main.is_nil cmds))
                 (KVStore.setWalEnabled false;;
                  for_each cmds Main.wal_policy;;
                  for_each cmds Main.wal_data;;
                  KVStore.setWalEnabled true)).
Proof.
  intros w Hon. destruct cmds as [|c cmds]; [split; [apply untouched_refl | exact Hon]|].
  cbn [Main.is_nil negb when].
  set (w1 := with_walEnabled false w).
  change (snd (_ w))
    with (with_walEnabled true
            (run (for_each (c :: cmds) Main.wal_policy;;
                  for_each (c :: cmds) Main.wal_data) w1)).
  destruct (replay_step_bind _ _
              (replay_step_for_each Main.wal_policy (c :: cmds) wal_policy_step)
              (replay_step_for_each Main.wal_data (c :: cmds) wal_data_step)
              w1 eq_refl) as [Hu _].
  split; [|reflexivity]. unfold untouched in *. exact Hu.
Qed.

Lemma startup_keeps : keeps_files Main.startup.
Proof.
  unfold Main.startup.
  apply keeps_files_bind; [apply initialize_keeps|]. intros walStatus.
  destruct walStatus; try apply keeps_files_ret.
  apply keeps_files_bind; [apply readSnapshot_keeps|]. intros snapshotCommands.
  apply keeps_files_bind; [apply snapshot_replay_keeps|]. intros _.
  apply keeps_files_bind; [apply readLog_keeps|]. intros commands.
  apply wal_replay_keeps.
Qed.

(** X21: startup only reads.  Whatever the two files contain and however the
    stream operations end, the process that reaches the command loop has left
    the WAL file and the snapshot file as they were; it has no guards and the
    retention policy [FULL], since neither is recorded, and it logs its
    writes again. *)
Theorem boot_reads_only (w : World) :
  wal_file (Main.boot w) = wal_file w
  /\ snapshot_file (Main.boot w) = snapshot_file w
  /\ guards (Main.boot w) = []
  /\ retentionPolicy (Main.boot w) = RetentionPolicy_default
  /\ walEnabled (Main.boot w) = true.
Proof.
  destruct (startup_keeps (Main.fresh_process w) eq_refl)
    as [(Hw & Hs & Hg & Hr & _) He].
  unfold Main.boot.
  split_and!; [exact Hw | exact Hs | exact Hg | exact Hr | exact He].
Qed.
(** ** Snapshot and restart *)

Lemma concat_lines x l :
  String.concat EmptyString (x :: l) = x +:+ String.concat EmptyString l.
Proof. destruct l; [symmetry; apply app_nil_r | reflexivity]. Qed.

Lemma read_commands_line l rest :
  nonempty l = true -> no_nl l = true ->
  read_commands (l +:+ nl +:+ rest) = l :: read_commands rest.
Proof.
  intros Hne Hnl. unfold read_commands. rewrite (split_lines_line l rest Hnl).
  rewrite filter_cons. rewrite decide_True by exact Hne. reflexivity.
Qed.

Lemma is_token_no_space s : is_token s = true -> no_space s = true.
Proof. unfold is_token. intros H. apply andb_true_iff in H as [_ H]. exact H. Qed.

Lemma no_space_app s t : no_space (s +:+ t) = no_space s && no_space t.
Proof.
  induction s as [|c s IH]; [reflexivity|]. rewrite app_cons. cbn.
  rewrite IH, andb_assoc. reflexivity.
Qed.

Lemma snapshot_line_no_nl kv :
  is_token (fst kv) = true -> is_token (snd kv) = true ->
  nonempty (snapshot_line kv) = true /\ no_nl (snapshot_line kv) = true.
Proof.
  intros Hk Hv. split; [reflexivity|]. unfold snapshot_line.
  rewrite !no_nl_app.
  rewrite (no_space_no_nl _ (is_token_no_space _ Hk)).
  rewrite (no_space_no_nl _ (is_token_no_space _ Hv)). reflexivity.
Qed.

Lemma read_commands_pairs pairs :
  Forall (fun kv => is_token (fst kv) = true /\ is_token (snd kv) = true) pairs ->
  read_commands
    (String.concat EmptyString
       (map (fun kv => "SET " +:+ fst kv +:+ " " +:+ snd kv +:+ nl) pairs))
  = map snapshot_line pairs.
Proof.
  induction 1 as [|kv pairs [Hk Hv] _ IH]; [reflexivity|].
  cbn [map]. rewrite concat_lines.
  destruct (snapshot_line_no_nl kv Hk Hv) as [Hne Hnl].
  replace ("SET " +:+ fst kv +:+ " " +:+ snd kv +:+ nl) with (snapshot_line kv +:+ nl).
  - rewrite app_assoc, (read_commands_line _ _ Hne Hnl), IH. reflexivity.
  - unfold snapshot_line. rewrite !app_assoc. reflexivity.
Qed.

Lemma read_commands_snapshot pairs p :
  Forall (fun kv => is_token (fst kv) = true /\ is_token (snd kv) = true) pairs ->
  read_commands (WAL.snapshot_text pairs (policy_name p))
  = ("POLICY SET " +:+ policy_name p) :: map snapshot_line pairs.
Proof.
  intros Hpairs. unfold WAL.snapshot_text.
  assert (Hp : nonempty (policy_name p) = true) by (destruct p; reflexivity).
  rewrite Hp, !app_assoc.
  rewrite <- (app_assoc "POLICY SET " (policy_name p)).
  rewrite read_commands_line, (read_commands_pairs pairs Hpairs);
    [reflexivity | destruct p; reflexivity | destruct p; reflexivity].
Qed.

Lemma parse_policy_line p :
  CommandParser.parse ("POLICY SET " +:+ policy_name p)
  = CommandParser.mkCommand CommandParser.POLICY ["SET"; policy_name p].
Proof. destruct p; vm_compute; reflexivity. Qed.

Lemma parse_snapshot_line kv :
  is_token (fst kv) = true -> is_token (snd kv) = true ->
  CommandParser.parse (snapshot_line kv)
  = CommandParser.mkCommand CommandParser.SET [fst kv; snd kv].
Proof.
  intros Hk Hv. unfold CommandParser.parse.
  assert (Htok : CommandParser.tokenize (snapshot_line kv) = ["SET"; fst kv; snd kv]).
  { change (snapshot_line kv) with (String.concat " " ["SET"; fst kv; snd kv]).
    apply tokenize_concat_tokens. repeat constructor; assumption. }
  rewrite Htok. reflexivity.
Qed.

Lemma snapshot_policy_line kv w :
  is_token (fst kv) = true -> is_token (snd kv) = true ->
  run (Main.snapshot_policy (snapshot_line kv)) w = w.
Proof.
  intros Hk Hv. unfold Main.snapshot_policy.
  rewrite (parse_snapshot_line kv Hk Hv). reflexivity.
Qed.

Lemma snapshot_data_line t kv w :
  is_token (fst kv) = true -> is_token (snd kv) = true ->
  run (Main.snapshot_data t (snapshot_line kv)) w
  = run (KVStore.setAtTime (fst kv) (snd kv) t) w.
Proof.
  intros Hk Hv. unfold Main.snapshot_data.
  rewrite (parse_snapshot_line kv Hk Hv). reflexivity.
Qed.

(** The two passes over the lines of a snapshot. *)
Lemma snapshot_policy_pairs pairs :
  Forall (fun kv => is_token (fst kv) = true /\ is_token (snd kv) = true) pairs ->
  forall w, run (for_each (map snapshot_line pairs) Main.snapshot_policy) w = w.
Proof.
  induction 1 as [|kv pairs [Hk Hv] _ IH]; intros w; [reflexivity|].
  cbn [map]. rewrite run_for_each_cons, (snapshot_policy_line kv w Hk Hv). apply IH.
Qed.

Lemma snapshot_data_pairs t pairs :
  Forall (fun kv => is_token (fst kv) = true /\ is_token (snd kv) = true) pairs ->
  forall w, mode (retentionPolicy w) = FULL ->
    run (for_each (map snapshot_line pairs) (Main.snapshot_data t)) w
    = with_store (load_pairs t pairs (store w)) w.
Proof.
  induction 1 as [|kv pairs [Hk Hv] _ IH]; intros w Hfull.
  - destruct w; reflexivity.
  - cbn [map]. rewrite run_for_each_cons, (snapshot_data_line t kv w Hk Hv).
    rewrite (setAtTime_full _ _ _ w Hfull), IH by exact Hfull.
    destruct w; reflexivity.
Qed.

Lemma load_pairs_lookup t pairs :
  NoDup pairs.*1 ->
  forall s, (forall kv, kv ∈ pairs -> s !! fst kv = None) ->
    forall k, load_pairs t pairs s !! k
              = match (list_to_map pairs : gmap string string) !! k with
                | Some v => Some [mkVersion t v]
                | None => s !! k
                end.
Proof.
  induction pairs as [|[k0 v0] pairs IH]; intros Hnd s Hfresh k; [reflexivity|].
  cbn [fmap list_fmap fst] in Hnd. apply NoDup_cons in Hnd as [Hk0 Hnd].
  cbn [load_pairs fst snd list_to_map foldr].
  rewrite IH; [| exact Hnd |].
  - pose proof (Hfresh (k0, v0) ltac:(left)) as H0. cbn [fst] in H0.
    rewrite H0. cbn [default from_option app].
    destruct (decide (k = k0)) as [->|Hne].
    + rewrite lookup_insert_eq.
      assert (Hnone : (list_to_map pairs : gmap string string) !! k0 = None).
      { apply not_elem_of_list_to_map_1. exact Hk0. }
      rewrite Hnone, lookup_insert_eq. reflexivity.
    + rewrite !lookup_insert_ne by congruence. reflexivity.
  - intros kv Hin. rewrite lookup_insert_ne.
    + apply Hfresh. right. exact Hin.
    + intros Heq. apply Hk0. apply list_elem_of_fmap. exists kv. done.
Qed.
Lemma snapshot_policy_first p w :
  walEnabled w = false ->
  run (Main.snapshot_policy ("POLICY SET " +:+ policy_name p)) w
  = with_decisionPolicy p w.
Proof.
  intros Hoff. unfold Main.snapshot_policy. rewrite parse_policy_line.
  cbn [CommandParser.type CommandParser.args].
  replace (parse_policy (policy_name p)) with (Some p) by (destruct p; reflexivity).
  change (String.eqb "SET" "SET") with true. cbv iota.
  apply setDecisionPolicy_quiet, Hoff.
Qed.

Lemma snapshot_data_first t p w :
  run (Main.snapshot_data t ("POLICY SET " +:+ policy_name p)) w = w.
Proof. unfold Main.snapshot_data. rewrite parse_policy_line. reflexivity. Qed.

(** Startup on a snapshot of token pairs and an empty log. *)
Lemma boot_snapshot w pairs p :
  (forall n, io w n = IoDone) ->
  snapshot_file w = WAL.snapshot_text pairs (policy_name p) ->
  wal_file w = EmptyString ->
  Forall (fun kv => is_token (fst kv) = true /\ is_token (snd kv) = true) pairs ->
  Main.boot w
  = {| store := load_pairs (clock w (ticks w)) pairs ∅; wal := true;
       walEnabled := true;
       retentionPolicy := RetentionPolicy_default; guards := [];
       decisionPolicy := p;
       logFile_open := true; logFile_good := true; enabled := true;
       wal_file := wal_file w; snapshot_file := snapshot_file w;
       clock := clock w; io := io w; ticks := S (ticks w);
       io_ops := S (S (S (S (io_ops w)))) |}.
Proof.
  intros Hio Hsnap Hwal Hpairs.
  destruct w as [s0 wp we rp gs dp lo lg en wf sf ck oc tk ops]. fields. subst sf wf.
  unfold Main.boot, Main.startup. unfold mbind, M_bind.
  rewrite initialize_ok by exact Hio. fields.
  rewrite readSnapshot_ok by exact Hio. fields.
  rewrite (read_commands_snapshot pairs p Hpairs).
  cbn [Main.is_nil negb when]. unfold mret, M_ret. fields.
  set (lines := map snapshot_line pairs).
  unfold KVStore.setWalEnabled, modify, now. fields.
  match goal with
  | |- context [for_each (?l :: lines) Main.snapshot_policy ?u] =>
      assert (H1 : snd (for_each (l :: lines) Main.snapshot_policy u)
                   = with_decisionPolicy p u)
  end.
  { match goal with
    | |- snd (for_each _ _ ?u) = _ =>
        change (snd (for_each (("POLICY SET " +:+ policy_name p) :: lines)
                       Main.snapshot_policy u))
          with (run (for_each lines Main.snapshot_policy)
                    (run (Main.snapshot_policy ("POLICY SET " +:+ policy_name p)) u));
        rewrite (snapshot_policy_first p u eq_refl)
    end.
    subst lines. apply (snapshot_policy_pairs pairs Hpairs). }
  rewrite H1. clear H1. fields.
  match goal with
  | |- context [for_each (?l :: lines) (Main.snapshot_data ?t) ?u] =>
      assert (H2 : snd (for_each (l :: lines) (Main.snapshot_data t) u)
                   = with_store (load_pairs t pairs (store u)) u)
  end.
  { match goal with
    | |- snd (for_each _ (Main.snapshot_data ?t) ?u) = _ =>
        change (snd (for_each (("POLICY SET " +:+ policy_name p) :: lines)
                       (Main.snapshot_data t) u))
          with (run (for_each lines (Main.snapshot_data t))
                    (run (Main.snapshot_data t ("POLICY SET " +:+ policy_name p)) u));
        rewrite (snapshot_data_first t p u)
    end.
    subst lines. apply (snapshot_data_pairs _ pairs Hpairs). reflexivity. }
  rewrite H2. clear H2. fields.
  rewrite readLog_ok by exact Hio. fields.
  change (read_commands EmptyString) with (@nil string).
  cbn [Main.is_nil negb when]. reflexivity.
Qed.

(** [clearLog], [createSnapshot] and [handleSnapshot] when no stream
    operation fails. *)
Lemma clearLog_ok w :
  (forall n, io w n = IoDone) ->
  WAL.clearLog w
  = (OK, with_logFile_good true
           (with_logFile_open true
              (with_io_ops (S (S (io_ops w))) (with_wal_file EmptyString w)))).
Proof.
  intros Hio. destruct w as [s0 wp we rp gs dp lo lg en wf sf ck oc tk ops].
  cbn in Hio. unfold WAL.clearLog, next_io, mbind, M_bind, modify, mret, M_ret.
  cbn [fst snd io io_ops with_logFile_open]. rewrite Hio.
  cbn [fst snd io io_ops with_io_ops with_wal_file]. rewrite Hio. reflexivity.
Qed.

Lemma bind_eq {A B} (m : M A) (f : A -> M B) w x w' :
  m w = (x, w') -> (y ← m; f y) w = f x w'.
Proof. intros H. unfold mbind, M_bind. rewrite H. reflexivity. Qed.

Lemma next_io_ok w :
  (forall n, io w n = IoDone) ->
  next_io w = (IoDone, with_io_ops (S (io_ops w)) w).
Proof. intros Hio. unfold next_io. rewrite Hio. reflexivity. Qed.

Lemma createSnapshot_ok data currentPolicy w :
  (forall n, io w n = IoDone) ->
  WAL.createSnapshot data currentPolicy w
  = (OK, with_logFile_good true
           (with_logFile_open true
              (with_io_ops (S (S (S (S (io_ops w)))))
                 (with_wal_file EmptyString
                    (with_snapshot_file
                       (WAL.snapshot_text (map_to_list data) currentPolicy) w))))).
Proof.
  intros Hio. unfold WAL.createSnapshot.
  rewrite (bind_eq _ _ _ _ _ (next_io_ok w Hio)). cbv iota.
  erewrite bind_eq by reflexivity.
  erewrite bind_eq by (apply next_io_ok; exact Hio). cbv iota. cbn [when].
  erewrite bind_eq by reflexivity.
  erewrite bind_eq by (apply clearLog_ok; exact Hio).
  destruct w as [s0 wp we rp gs dp lo lg en wf sf ck oc tk ops]. reflexivity.
Qed.

Lemma handleSnapshot_ok w :
  wal w = true -> enabled w = true -> (forall n, io w n = IoDone) ->
  run Main.handleSnapshot w
  = with_logFile_good true
      (with_logFile_open true
         (with_io_ops (S (S (S (S (io_ops w)))))
            (with_wal_file EmptyString
               (with_snapshot_file
                  (WAL.snapshot_text (map_to_list (KVStore.getAllData w))
                     (policy_name (decisionPolicy w))) w)))).
Proof.
  intros Hwal Hen Hio.
  unfold Main.handleSnapshot, WAL.isEnabled, KVStore.getDecisionPolicy, run.
  unfold mbind, M_bind, gets. cbn [fst snd]. rewrite Hwal, Hen. cbn [negb orb].
  rewrite createSnapshot_ok by exact Hio. reflexivity.
Qed.

(** X22: snapshot and restart, when no stream operation fails and keys and
    latest values are blank-free, non-empty words.  [SNAPSHOT] writes the
    policy and the latest value of every key to the snapshot file and empties
    the WAL without touching the store; a process started on these files has
    the same decision policy and answers [get] for every key as before, each
    key holding one version stamped with the time of the restart. *)
Theorem snapshot_restart (w : World) :
  wal w = true -> WAL.isEnabled w = true ->
  (forall n, io w n = IoDone) ->
  (forall k v, KVStore.getAllData w !! k = Some v ->
               is_token k = true /\ is_token v = true) ->
  let s := run Main.handleSnapshot w in
  let b := Main.boot s in
  wal_file s = EmptyString
  /\ store s = store w
  /\ decisionPolicy b = decisionPolicy w
  /\ store b = (fun v => [mkVersion (clock w (ticks w)) v]) <$> KVStore.getAllData w
  /\ (forall k, answer (KVStore.get k) b = answer (KVStore.get k) w).
Proof.
  intros Hwal Hen Hio Htok. cbn zeta.
  rewrite (handleSnapshot_ok w Hwal Hen Hio).
  set (data := KVStore.getAllData w).
  set (s := with_logFile_good true _).
  assert (Hpairs : Forall (fun kv => is_token (fst kv) = true /\ is_token (snd kv) = true)
                          (map_to_list data)).
  { apply Forall_forall. intros [k v] Hin. apply elem_of_map_to_list in Hin.
    exact (Htok k v Hin). }
  rewrite (boot_snapshot s (map_to_list data) (decisionPolicy w) Hio eq_refl eq_refl Hpairs).
  subst s. fields.
  assert (Hstore : load_pairs (clock w (ticks w)) (map_to_list data) ∅
                   = (fun v => [mkVersion (clock w (ticks w)) v]) <$> data).
  { apply map_eq. intros k.
    rewrite load_pairs_lookup;
      [| apply NoDup_fst_map_to_list | intros kv _; apply lookup_empty].
    rewrite list_to_map_to_list, lookup_fmap, lookup_empty.
    destruct (data !! k); reflexivity. }
  split_and!; [reflexivity | reflexivity | reflexivity | exact Hstore |].
  intros k. unfold KVStore.get. monad_step. fields. rewrite Hstore, lookup_fmap.
  subst data. unfold KVStore.getAllData. rewrite lookup_omap.
  destruct (store w !! k) as [vs|]; cbn; [|reflexivity].
  destruct (last vs); reflexivity.
Qed.

(** X22, witness: the example process after two writes of one key. *)
Lemma snapshot_restart_witness :
  decisionPolicy (Main.boot (run Main.handleSnapshot written_world))
  = decisionPolicy written_world
  /\ forall k, answer (KVStore.get k) (Main.boot (run Main.handleSnapshot written_world))
               = answer (KVStore.get k) written_world.
Proof.
  destruct (snapshot_restart written_world) as (_ & _ & Hp & _ & Hg).
  - reflexivity.
  - reflexivity.
  - intros n. reflexivity.
  - intros k v Hkv.
    assert (Hdata : KVStore.getAllData written_world = {["k" := "b"]})
      by (vm_compute; reflexivity).
    rewrite Hdata in Hkv. apply lookup_singleton_Some in Hkv as [<- <-].
    split; reflexivity.
  - split; [exact Hp | exact Hg].
Defined.
(** ** Failures of the log and of the snapshot *)

Lemma boot_failed w :
  io w (io_ops w) <> IoDone \/ io w (S (io_ops w)) <> IoDone ->
  exists n, Main.boot w
            = with_enabled false (with_io_ops n (Main.fresh_process w)).
Proof.
  intros Hfail. unfold Main.boot, Main.startup.
  assert (Hinit : exists n,
             WAL.initialize (Main.fresh_process w)
             = (ERROR, with_enabled false (with_io_ops n (Main.fresh_process w)))).
  { unfold WAL.initialize, next_io, mbind, M_bind, modify, mret, M_ret.
    cbn [fst snd Main.fresh_process io io_ops with_io_ops].
    destruct (io w (io_ops w)); [|exists (S (io_ops w)); reflexivity ..].
    cbn [fst snd Main.fresh_process io io_ops with_io_ops].
    destruct (io w (S (io_ops w)));
      [destruct Hfail; contradiction | exists (S (S (io_ops w))); reflexivity ..]. }
  destruct Hinit as (n & Hinit). exists n.
  rewrite (bind_eq _ _ _ _ _ Hinit). reflexivity.
Qed.

(** X23: when the WAL cannot be initialised (its directory or its file
    cannot be opened), the process starts empty whatever the files hold, with
    the default policy; its writes succeed and are kept in memory only, and
    [SNAPSHOT] does nothing. *)
Theorem boot_without_wal (w : World) :
  io w (io_ops w) <> IoDone \/ io w (S (io_ops w)) <> IoDone ->
  let b := Main.boot w in
  store b = ∅ /\ decisionPolicy b = SAFE_DEFAULT /\ WAL.isEnabled b = false
  /\ (forall key value,
        answer (KVStore.set key value) b = OK
        /\ wal_file (run (KVStore.set key value) b) = wal_file w
        /\ history key (run (KVStore.set key value) b)
           = [mkVersion (clock w (ticks w)) value])
  /\ run Main.handleSnapshot b = b.
Proof.
  intros Hfail. cbn zeta. destruct (boot_failed w Hfail) as (n & ->).
  split_and!; [reflexivity | reflexivity | reflexivity | | reflexivity].
  intros key value.
  set (b := with_enabled false (with_io_ops n (Main.fresh_process w))).
  assert (Hset : run (KVStore.set key value) b
                 = with_store (<[key := [mkVersion (clock w (ticks w)) value]]> ∅)
                     (with_ticks (S (ticks w)) b)).
  { unfold KVStore.set, KVStore.emplace_back, now, run.
    unfold mbind, M_bind, gets, modify, mret, M_ret. cbn [fst snd].
    change (KVStore.wal_active (with_ticks (S (ticks b)) b)) with false.
    cbv iota. cbn [fst snd].
    apply (applyRetention_full key). reflexivity. }
  split_and!; [reflexivity | rewrite Hset; reflexivity |].
  rewrite Hset, history_lookup. cbn [store with_store].
  rewrite lookup_insert_eq. reflexivity.
Qed.

(** X23, witness: the example files on a disk whose operations fail. *)
Lemma boot_without_wal_witness :
  store (Main.boot failing_world) = ∅
  /\ WAL.isEnabled (Main.boot failing_world) = false.
Proof.
  destruct (boot_without_wal failing_world) as (H1 & _ & H2 & _).
  - left. discriminate.
  - split; [exact H1 | exact H2].
Defined.

Lemma clearLog_outcomes w :
  let r := fst (WAL.clearLog w) in
  let w' := snd (WAL.clearLog w) in
  store w' = store w /\ decisionPolicy w' = decisionPolicy w
  /\ snapshot_file w' = snapshot_file w
  /\ (r = OK -> wal_file w' = EmptyString /\ logFile_open w' = true
                /\ enabled w' = enabled w)
  /\ (r <> OK -> r = ERROR /\ enabled w' = false)
  /\ (io w (io_ops w) <> IoDone -> wal_file w' = wal_file w).
Proof.
  cbn zeta. destruct w as [s0 wp we rp gs dp lo lg en wf sf ck oc tk ops].
  unfold WAL.clearLog, next_io, mbind, M_bind, modify, mret, M_ret. fields.
  destruct (oc ops); fields; [destruct (oc (S ops))|..]; fields;
    (split_and!; try reflexivity; try discriminate; try tauto; try done).
Qed.

(** X24: the outcomes of [createSnapshot].  It never touches the store.
    When it answers [OK] the WAL file is empty and open again; when the
    snapshot file cannot be opened it answers [ERROR] and both files are as
    they were; and after any [ERROR] either the WAL file still has all its
    records or the WAL is disabled. *)
Theorem createSnapshot_outcomes (w : World) (data : gmap string string)
    (currentPolicy : string) :
  let r := answer (WAL.createSnapshot data currentPolicy) w in
  let w' := run (WAL.createSnapshot data currentPolicy) w in
  store w' = store w /\ decisionPolicy w' = decisionPolicy w
  /\ (r = OK -> wal_file w' = EmptyString /\ logFile_open w' = true
                /\ WAL.isEnabled w' = WAL.isEnabled w)
  /\ (r <> OK -> r = ERROR
                 /\ (wal_file w' = wal_file w \/ WAL.isEnabled w' = false))
  /\ (io w (io_ops w) <> IoDone ->
      r = ERROR /\ wal_file w' = wal_file w /\ snapshot_file w' = snapshot_file w).
Proof.
  cbn zeta. destruct w as [s0 wp we rp gs dp lo lg en wf sf ck oc tk ops].
  unfold answer, run, WAL.createSnapshot, WAL.clearLog, WAL.isEnabled, next_io,
    mbind, M_bind, modify, mret, M_ret.
  fields.
  destruct (oc ops); fields;
    [destruct (oc (S ops)); fields; cbn [when]; unfold mret, M_ret, modify; fields;
     [destruct (oc (S (S ops))); fields; [destruct (oc (S (S (S ops)))); fields|..]
     |destruct (oc (S (S ops))); fields; [destruct (oc (S (S (S ops)))); fields|..]
     |]
    |..];
    (split_and!;
     [ reflexivity | reflexivity
     | first [ discriminate | intros _; split_and!; reflexivity ]
     | first [ intros H; exfalso; apply H; reflexivity
             | intros _; split; [reflexivity | first [left; reflexivity | right; reflexivity]] ]
     | first [ intros H; exfalso; apply H; reflexivity
             | intros _; split_and!; reflexivity ] ]).
Qed.
(** ** Timestamps through the log *)

Lemma truncate_ms_in_range t : in_range t -> in_range (truncate_ms t).
Proof.
  unfold in_range, truncate_ms, ticks_per_ms, LLONG_MIN, LLONG_MAX.
  intros Hr. Z.to_euclidean_division_equations. lia.
Qed.

Lemma truncate_ms_quot t : truncate_ms t ÷ ticks_per_ms = t ÷ ticks_per_ms.
Proof. unfold truncate_ms, ticks_per_ms. Z.to_euclidean_division_equations. lia. Qed.

Lemma truncate_ms_near t :
  Z.abs (t - truncate_ms t) < ticks_per_ms /\ Z.abs (truncate_ms t) <= Z.abs t.
Proof.
  unfold truncate_ms, ticks_per_ms. split; Z.to_euclidean_division_equations; lia.
Qed.

(** X25: the timestamp a version comes back with after a restart is the
    logged instant cut to whole milliseconds, less than a millisecond away
    from it and never further from the epoch; it is logged as the same number
    again, so that a further restart changes no timestamp. *)
Theorem replayed_time_stable (t : time_point) :
  in_range t ->
  to_epoch_ms (replayed_time t) = to_epoch_ms t
  /\ replayed_time (replayed_time t) = replayed_time t
  /\ Z.abs (t - replayed_time t) < ticks_per_ms
  /\ Z.abs (replayed_time t) <= Z.abs t.
Proof.
  intros Hr. destruct (replayed_time_truncate t Hr) as [_ Ht].
  destruct (replayed_time_truncate (truncate_ms t) (truncate_ms_in_range t Hr))
    as [_ Ht'].
  rewrite Ht, Ht'. clear Hr Ht Ht'.
  destruct (truncate_ms_near t) as [Hnear Habs].
  split_and!; [apply truncate_ms_quot | | exact Hnear | exact Habs].
  unfold truncate_ms at 1.
  change (truncate_ms t) with (t ÷ ticks_per_ms * ticks_per_ms) at 2.
  f_equal. apply truncate_ms_quot.
Qed.

(** X25, witness: the second write of the example session, stamped half a
    millisecond past 1001 ms. *)
Lemma replayed_time_stable_witness :
  to_epoch_ms (replayed_time 1001500000) = to_epoch_ms 1001500000
  /\ replayed_time (replayed_time 1001500000) = replayed_time 1001500000
  /\ Z.abs (1001500000 - replayed_time 1001500000) < ticks_per_ms
  /\ Z.abs (replayed_time 1001500000) <= Z.abs 1001500000.
Proof.
  apply (replayed_time_stable 1001500000).
  unfold in_range, LLONG_MIN, LLONG_MAX. lia.
Defined.
(** ** The command loop *)

Lemma stoi_pos_to_string z :
  INT_MIN <= z <= INT_MAX ->
  stoi_pos (to_string z) = Some (z, String.length (to_string z)).
Proof.
  intros Hz. unfold stoi_pos.
  pose proof (skip_ws_token (to_string z) EmptyString (to_string_token z)) as H.
  rewrite app_nil_r in H. rewrite H, read_int_to_string.
  destruct (Z.leb_spec INT_MIN z); [|lia].
  destruct (Z.leb_spec z INT_MAX); [|lia].
  cbn [andb String.length]. rewrite Nat.sub_0_r. reflexivity.
Qed.

Lemma stoi_pos_range s v pos :
  stoi_pos s = Some (v, pos) -> INT_MIN <= v <= INT_MAX.
Proof.
  unfold stoi_pos. destruct (read_int (skip_ws s)) as [[v' rest]|]; [|discriminate].
  destruct (Z.leb_spec INT_MIN v'); [|discriminate].
  destruct (Z.leb_spec v' INT_MAX); [|discriminate].
  intros [= <- _]. lia.
Qed.

Lemma last_policy_valid valueStr p :
  CLI.last_policy valueStr = inl p -> valid_retention p.
Proof.
  unfold CLI.last_policy.
  destruct (nonempty valueStr && _).
  - destruct (negb (nonempty _)); [discriminate|].
    destruct (stoi_pos _) as [[v pos]|] eqn:Hs; [|discriminate].
    destruct (negb _); [discriminate|].
    destruct (Z.leb_spec v 0); [discriminate|].
    intros [= <-]. apply stoi_pos_range in Hs. unfold valid_retention. cbn. lia.
  - destruct (stoi_pos _) as [[v pos]|] eqn:Hs; [|discriminate].
    destruct (negb _); [discriminate|].
    destruct (Z.leb_spec v 0); [discriminate|].
    intros [= <-]. apply stoi_pos_range in Hs. unfold valid_retention. cbn. lia.
Qed.

Lemma string_back_digits s c :
  all_digits s = true -> string_back s = Some c -> isdigit c = true.
Proof.
  induction s as [|d s IH]; [discriminate|]. cbn [all_digits].
  intros H. apply andb_true_iff in H as [Hd Hs].
  destruct s as [|e s']; [intros [= <-]; exact Hd|].
  intros Hb. apply IH; [exact Hs | exact Hb].
Qed.

Lemma to_string_digits n :
  1 <= n -> nonempty (to_string n) = true /\ all_digits (to_string n) = true.
Proof.
  intros Hn. destruct n as [|p|p]; try lia.
  destruct (to_string_pos p) as (_ & Hne & Hd & _). split; assumption.
Qed.

Lemma last_policy_count n :
  1 <= n <= INT_MAX ->
  CLI.last_policy (to_string n) = inl (RetentionPolicy_make LAST_N n).
Proof.
  intros Hn. unfold CLI.last_policy.
  destruct (to_string_digits n) as [Hne Hd]; [lia|].
  assert (Hback : match string_back (to_string n) with
                  | Some "s"%char => true | _ => false end = false).
  { destruct (string_back (to_string n)) as [c|] eqn:Hb; [|reflexivity].
    pose proof (string_back_digits _ _ Hd Hb) as Hc.
    destruct c as [[] [] [] [] [] [] [] []]; try reflexivity; discriminate Hc. }
  rewrite Hne, Hback. cbn [andb].
  rewrite stoi_pos_to_string by (unfold INT_MIN in *; lia).
  rewrite Nat.eqb_refl. cbn [negb].
  destruct (Z.leb_spec n 0); [lia | reflexivity].
Qed.

Lemma last_policy_seconds n :
  1 <= n <= INT_MAX ->
  CLI.last_policy (to_string n +:+ "s") = inl (RetentionPolicy_make LAST_T n).
Proof.
  intros Hn. unfold CLI.last_policy.
  destruct (to_string_digits n) as [Hne Hd]; [lia|].
  assert (Hback : string_back (to_string n +:+ "s") = Some "s"%char).
  { apply string_back_Some. exists (to_string n). reflexivity. }
  assert (Hne' : nonempty (to_string n +:+ "s") = true).
  { destruct (to_string n); reflexivity. }
  rewrite Hne', Hback. cbn [andb]. cbv zeta.
  rewrite (strip_last (to_string n) "s"), Hne. cbn [negb].
  rewrite stoi_pos_to_string by (unfold INT_MIN in *; lia).
  rewrite Nat.eqb_refl. cbn [negb].
  destruct (Z.leb_spec n 0); [lia | reflexivity].
Qed.

Lemma parse_tokens_plain t0 rest :
  Forall (fun t => is_token t = true) (t0 :: rest) ->
  CommandParser.is_GET (CommandParser.getCommandType t0) = false ->
  CommandParser.is_EXPLAIN (CommandParser.getCommandType t0) = false ->
  CommandParser.parse (String.concat " " (t0 :: rest))
  = CommandParser.mkCommand (CommandParser.getCommandType t0) rest.
Proof.
  intros Htok Hget Hex. unfold CommandParser.parse.
  rewrite (tokenize_concat_tokens _ Htok), Hget, Hex. cbn [andb].
  destruct rest as [|t1 [|t2 [|t3 [|t4 more]]]]; reflexivity.
Qed.

Lemma is_token_app s t :
  is_token s = true -> no_space t = true -> is_token (s +:+ t) = true.
Proof.
  unfold is_token. intros H Ht. apply andb_true_iff in H as [Hne Hs].
  rewrite no_space_app, Hs, Ht. destruct s; [discriminate | reflexivity].
Qed.

(** X26: [CONFIG RETENTION].  Whatever the arguments, the handler either
    leaves the state as it is or installs, through [setRetentionPolicy], a
    policy whose count or number of seconds is a positive [int]; and for
    such a number [n] the lines [CONFIG RETENTION LAST n] and
    [CONFIG RETENTION LAST ns] install [LastN(n)] and [LastT(n)]. *)
Theorem handleConfig_retention (w : World) (cmd : CommandParser.Command) :
  (run (CLI.handleConfig cmd) w = w
   \/ exists p, valid_retention p
                /\ run (CLI.handleConfig cmd) w = run (KVStore.setRetentionPolicy p) w)
  /\ (forall n, 1 <= n <= INT_MAX ->
        run (CLI.handleConfig
               (CommandParser.parse ("CONFIG RETENTION LAST " +:+ to_string n))) w
        = run (KVStore.setRetentionPolicy (RetentionPolicy_make LAST_N n)) w
        /\ run (CLI.handleConfig
                  (CommandParser.parse
                     ("config retention last " +:+ to_string n +:+ "s"))) w
           = run (KVStore.setRetentionPolicy (RetentionPolicy_make LAST_T n)) w).
Proof.
  split.
  - unfold CLI.handleConfig.
    destruct (CommandParser.args cmd) as [|arg0 [|arg1 rest]];
      [left; reflexivity | left; reflexivity |].
    cbv zeta. destruct (negb _); [left; reflexivity|].
    destruct (String.eqb (string_map toupper arg1) "FULL").
    { right. exists RetentionPolicy_default. split; [exact I | reflexivity]. }
    destruct (String.eqb (string_map toupper arg1) "LAST"); [|left; reflexivity].
    destruct rest as [|valueStr rest]; [left; reflexivity|].
    destruct (CLI.last_policy valueStr) as [p|message] eqn:Hp; [|left; reflexivity].
    right. exists p. split; [exact (last_policy_valid _ _ Hp) | reflexivity].
  - intros n Hn.
    assert (Htok : is_token (to_string n) = true) by apply to_string_token.
    assert (Htok' : is_token (to_string n +:+ "s") = true)
      by (apply is_token_app; [exact Htok | reflexivity]).
    split.
    + change ("CONFIG RETENTION LAST " +:+ to_string n)
        with (String.concat " " ["CONFIG"; "RETENTION"; "LAST"; to_string n]).
      rewrite parse_tokens_plain;
        [| repeat constructor; exact Htok | reflexivity | reflexivity].
      unfold CLI.handleConfig. cbn [CommandParser.args].
      change (string_map toupper "RETENTION") with "RETENTION".
      change (string_map toupper "LAST") with "LAST".
      cbv zeta. change (String.eqb "RETENTION" "RETENTION") with true.
      change (String.eqb "LAST" "FULL") with false.
      change (String.eqb "LAST" "LAST") with true. cbn [negb]. cbv iota.
      rewrite (last_policy_count n Hn). reflexivity.
    + change ("config retention last " +:+ to_string n +:+ "s")
        with (String.concat " " ["config"; "retention"; "last"; to_string n +:+ "s"]).
      rewrite parse_tokens_plain;
        [| repeat constructor; exact Htok' | reflexivity | reflexivity].
      unfold CLI.handleConfig. cbn [CommandParser.args].
      change (string_map toupper "retention") with "RETENTION".
      change (string_map toupper "last") with "LAST".
      cbv zeta. change (String.eqb "RETENTION" "RETENTION") with true.
      change (String.eqb "LAST" "FULL") with false.
      change (String.eqb "LAST" "LAST") with true. cbn [negb]. cbv iota.
      rewrite (last_policy_seconds n Hn). reflexivity.
Qed.

(** X26, witness: [LastN(2)] and [LastT(2)] on the crowded example. *)
Lemma handleConfig_retention_witness :
  run (CLI.handleConfig (CommandParser.parse "CONFIG RETENTION LAST 2")) crowded_world
  = run (KVStore.setRetentionPolicy (RetentionPolicy_make LAST_N 2)) crowded_world
  /\ run (CLI.handleConfig (CommandParser.parse "config retention last 2s"))
         crowded_world
     = run (KVStore.setRetentionPolicy (RetentionPolicy_make LAST_T 2)) crowded_world.
Proof.
  apply (proj2 (handleConfig_retention crowded_world
                  (CommandParser.mkCommand CommandParser.CONFIG [])) 2).
  unfold INT_MAX. lia.
Defined.

Lemma split_commas_cons c r :
  split_commas (String c r)
  = if Ascii.eqb c ","%char then EmptyString :: split_commas r
    else match split_commas r with
         | h :: t => String c h :: t
         | [] => [String c EmptyString]
         end.
Proof. reflexivity. Qed.

Lemma split_commas_piece v rest :
  no_comma v = true -> nonempty v = true ->
  split_commas (v +:+ "," +:+ rest) = v :: split_commas rest.
Proof.
  intros Hv Hne. destruct v as [|c v]; [discriminate|]. clear Hne.
  revert c Hv. induction v as [|d v IH]; intros c Hv.
  - cbn in Hv. rewrite andb_true_r in Hv. apply negb_true_iff in Hv.
    rewrite app_cons, app_nil_l.
    change ("," +:+ rest) with (String ","%char rest).
    cbn [split_commas]. rewrite Hv.
    change (Ascii.eqb "," ",") with true. reflexivity.
  - cbn [no_comma] in Hv. apply andb_true_iff in Hv as [Hc Hv].
    apply negb_true_iff in Hc.
    rewrite app_cons, split_commas_cons, Hc, (IH d Hv). reflexivity.
Qed.

Lemma split_commas_last v :
  no_comma v = true -> nonempty v = true -> split_commas v = [v].
Proof.
  intros Hv Hne. destruct v as [|c v]; [discriminate|]. clear Hne.
  revert c Hv. induction v as [|d v IH]; intros c Hv.
  - cbn in Hv. rewrite andb_true_r in Hv. apply negb_true_iff in Hv.
    cbn. rewrite Hv. reflexivity.
  - cbn [no_comma] in Hv. apply andb_true_iff in Hv as [Hc Hv].
    apply negb_true_iff in Hc.
    rewrite split_commas_cons, Hc, (IH d Hv). reflexivity.
Qed.

Lemma split_commas_concat vs :
  Forall (fun v => is_token v = true /\ no_comma v = true) vs ->
  split_commas (String.concat "," vs) = vs.
Proof.
  induction 1 as [|v vs [Htok Hv] _ IH]; [reflexivity|].
  assert (Hne : nonempty v = true).
  { unfold is_token in Htok. apply andb_true_iff in Htok as [Hne _]. exact Hne. }
  destruct vs as [|u vs]; [exact (split_commas_last v Hv Hne)|].
  rewrite concat_cons, (split_commas_piece v _ Hv Hne), IH. reflexivity.
Qed.

Lemma concat_commas_token vs :
  vs <> [] ->
  Forall (fun v => is_token v = true /\ no_comma v = true) vs ->
  is_token (String.concat "," vs) = true.
Proof.
  intros Hne Hall. induction Hall as [|v vs [Htok Hv] Hall IH]; [contradiction|].
  destruct vs as [|u vs]; [exact Htok|].
  rewrite concat_cons. apply is_token_app; [exact Htok|].
  rewrite no_space_app. cbn [andb no_space].
  apply is_token_no_space, IH. discriminate.
Qed.

(** X27: [GUARD ADD ENUM].  For a name and a key pattern that are words and
    a non-empty list of words without commas, the line
    [GUARD ADD ENUM name key v1,...,vn] registers, after the guards already
    present, an enabled Enum guard of that name for that pattern whose
    allowed values are exactly [v1, ..., vn], in this order; the store and
    the files are not touched. *)
Theorem handleGuard_add_enum (w : World) (name key : string) (vs : list string) :
  is_token name = true -> is_token key = true ->
  vs <> [] ->
  Forall (fun v => is_token v = true /\ no_comma v = true) vs ->
  let line := "GUARD ADD ENUM " +:+ name +:+ " " +:+ key +:+ " "
              +:+ String.concat "," vs in
  let w' := run (CLI.handleGuard (CommandParser.parse line)) w in
  w' = run (KVStore.addGuard (Guard.mk name key true (Guard.EnumGuard vs))) w
  /\ KVStore.getGuards w'
     = KVStore.getGuards w ++ [Guard.mk name key true (Guard.EnumGuard vs)]
  /\ store w' = store w /\ wal_file w' = wal_file w.
Proof.
  intros Hname Hkey Hne Hvs. cbn zeta.
  change ("GUARD ADD ENUM " +:+ name +:+ " " +:+ key +:+ " " +:+ String.concat "," vs)
    with (String.concat " " ["GUARD"; "ADD"; "ENUM"; name; key; String.concat "," vs]).
  rewrite parse_tokens_plain;
    [| repeat constructor; try assumption; apply concat_commas_token; assumption
     | reflexivity | reflexivity].
  unfold CLI.handleGuard. cbn [CommandParser.args].
  change (string_map toupper "ADD") with "ADD".
  change (string_map toupper "ENUM") with "ENUM".
  cbv zeta. change (String.eqb "ADD" "LIST") with false.
  change (String.eqb "ADD" "ADD") with true. cbv iota.
  unfold CLI.make_guard.
  change (String.eqb "ENUM" "RANGE_INT" || String.eqb "ENUM" "RANGE") with false.
  change (String.eqb "ENUM" "ENUM") with true. cbv iota. cbv zeta.
  rewrite (split_commas_concat vs Hvs).
  split_and!; reflexivity.
Qed.

(** X27, witness: the Enum guard of the examples, registered by its line. *)
Lemma handleGuard_add_enum_witness :
  KVStore.getGuards
    (run (CLI.handleGuard
            (CommandParser.parse "GUARD ADD ENUM en status active,inactive,pending"))
         example_world)
  = [enum_guard].
Proof.
  destruct (handleGuard_add_enum example_world "en" "status"
              ["active"; "inactive"; "pending"]) as (_ & H & _).
  - reflexivity.
  - reflexivity.
  - discriminate.
  - repeat constructor.
  - exact H.
Defined.

Lemma render_tokens r :
  valid_rec r ->
  exists t0 rest,
    render r = String.concat " " (t0 :: rest)
    /\ Forall (fun t => is_token t = true) (t0 :: rest)
    /\ CommandParser.getCommandType t0 = rec_type r
    /\ match r with
       | RSet key value _ => exists ts, rest = [key; value; ts]
       | RDel key => rest = [key]
       | RPolicy policy => rest = ["SET"; policy_name policy]
       end.
Proof.
  destruct r as [key value t|key|policy]; cbn [valid_rec render rec_type].
  - intros (Hk & Hv & _). exists "SET", [key; value; to_string (to_epoch_ms t)].
    split_and!; [reflexivity | | reflexivity | eexists; reflexivity].
    repeat constructor; try assumption. apply to_string_token.
  - intros Hk. exists "DEL", [key].
    split_and!; [reflexivity | | reflexivity | reflexivity].
    repeat constructor. exact Hk.
  - intros _. exists "POLICY", ["SET"; policy_name policy].
    split_and!; [reflexivity | | reflexivity | reflexivity].
    repeat constructor. destruct policy; reflexivity.
Qed.

(** X28: the records of the log are commands.  The line written to the WAL
    for a [set], a [del] or a change of policy, typed at the prompt, is
    parsed to the command type of that mutation, and its handler performs
    the same mutation again (a [set] with a new timestamp: the logged one is
    ignored). *)
Theorem log_records_are_commands (w : World) (r : Rec) :
  valid_rec r ->
  CommandParser.type (CommandParser.parse (render r)) = rec_type r
  /\ run (rec_handler r (CommandParser.parse (render r))) w
     = run (run_op (rec_op r)) w.
Proof.
  intros Hr. destruct (render_tokens r Hr) as (t0 & rest & Hline & Htok & Hty & Hrest).
  rewrite Hline, parse_tokens_plain;
    [| exact Htok | rewrite Hty; destruct r; reflexivity
     | rewrite Hty; destruct r; reflexivity].
  cbn [CommandParser.type]. split; [exact Hty|].
  destruct r as [key value t|key|policy]; cbn [rec_handler rec_op run_op].
  - destruct Hrest as (ts & ->). reflexivity.
  - subst rest. reflexivity.
  - subst rest. unfold CLI.handlePolicy. cbn [CommandParser.args].
    change (string_map toupper "SET") with "SET". cbv zeta.
    change (String.eqb "SET" "GET") with false.
    change (String.eqb "SET" "SET") with true. cbv iota.
    replace (parse_policy (string_map toupper (policy_name policy)))
      with (Some policy) by (destruct policy; reflexivity).
    reflexivity.
Qed.

(** X28, witness: the record of the second write of the example session. *)
Lemma log_records_are_commands_witness :
  CommandParser.type (CommandParser.parse "SET k b 1001") = CommandParser.SET
  /\ run (CLI.handleSet (CommandParser.parse "SET k b 1001")) booted_world
     = run (run_op (OpSet "k" "b")) booted_world.
Proof.
  apply (log_records_are_commands booted_world (RSet "k" "b" 1001500000)).
  split_and!; [reflexivity | reflexivity |].
  unfold in_range, LLONG_MIN, LLONG_MAX. lia.
Defined.
(** ** JSON helpers of the HTTP server *)

Lemma json_scan_app s rest st :
  json_scan (s +:+ rest) st = json_scan rest (json_scan s st).
Proof.
  revert st. induction s as [|c s IH]; intros st; [reflexivity|].
  rewrite app_cons. cbn [json_scan]. apply IH.
Qed.

Lemma json_scan_outside s st :
  no_quote s = true -> inQuotes st = false -> json_scan s st = st.
Proof.
  revert st. induction s as [|c s IH]; intros st Hs Hq; [reflexivity|].
  cbn [no_quote] in Hs. apply andb_true_iff in Hs as [Hc Hs].
  apply negb_true_iff in Hc. cbn [json_scan].
  assert (Hstep : json_step st c = st) by (unfold json_step; rewrite Hc, Hq; reflexivity).
  rewrite Hstep. apply IH; assumption.
Qed.

Lemma json_scan_key s key value m :
  no_quote s = true ->
  json_scan s (mkJsonScan true true false key value m)
  = mkJsonScan true true false (key +:+ s) value m.
Proof.
  revert key. induction s as [|c s IH]; intros key Hs;
    [rewrite app_nil_r; reflexivity|].
  cbn [no_quote] in Hs. apply andb_true_iff in Hs as [Hc Hs].
  apply negb_true_iff in Hc. cbn [json_scan]. unfold json_step at 1.
  rewrite Hc. cbn [inQuotes inKey inValue scan_key scan_value scan_result].
  rewrite (IH _ Hs), app_assoc. reflexivity.
Qed.

Lemma json_scan_value s key value m :
  no_quote s = true ->
  json_scan s (mkJsonScan true false true key value m)
  = mkJsonScan true false true key (value +:+ s) m.
Proof.
  revert value. induction s as [|c s IH]; intros value Hs;
    [rewrite app_nil_r; reflexivity|].
  cbn [no_quote] in Hs. apply andb_true_iff in Hs as [Hc Hs].
  apply negb_true_iff in Hc. cbn [json_scan]. unfold json_step at 1.
  rewrite Hc. cbn [inQuotes inKey inValue scan_key scan_value scan_result].
  rewrite (IH _ Hs), app_assoc. reflexivity.
Qed.

Lemma json_scan_dquote st :
  json_scan dquote st = json_step st (ascii_of_nat 34).
Proof. reflexivity. Qed.

(** One member, read between two members. *)
Lemma json_scan_member kv m :
  nonempty (fst kv) = true -> no_quote (fst kv) = true -> no_quote (snd kv) = true ->
  json_scan (json_member kv) (between_members m)
  = between_members (<[fst kv := snd kv]> m).
Proof.
  destruct kv as [k v]. cbn [fst snd]. intros Hne Hk Hv.
  unfold json_member, between_members. cbn [fst snd].
  rewrite json_scan_app, json_scan_dquote.
  change (json_step (mkJsonScan false false false EmptyString EmptyString m)
            (ascii_of_nat 34))
    with (mkJsonScan true true false EmptyString EmptyString m).
  rewrite json_scan_app, (json_scan_key k _ _ _ Hk), app_nil_l.
  rewrite json_scan_app, json_scan_dquote.
  change (json_step (mkJsonScan true true false k EmptyString m) (ascii_of_nat 34))
    with (mkJsonScan false false false k EmptyString m).
  rewrite json_scan_app,
    (json_scan_outside ":" (mkJsonScan false false false k EmptyString m) eq_refl eq_refl).
  rewrite json_scan_app, json_scan_dquote.
  assert (Hopen : json_step (mkJsonScan false false false k EmptyString m)
                    (ascii_of_nat 34)
                  = mkJsonScan true false true k EmptyString m).
  { unfold json_step. cbn. rewrite Hne. reflexivity. }
  rewrite Hopen, json_scan_app, (json_scan_value v _ _ _ Hv), app_nil_l.
  rewrite json_scan_dquote. reflexivity.
Qed.

Lemma json_scan_members members :
  Forall (fun kv => nonempty (fst kv) = true /\ no_quote (fst kv) = true
                    /\ no_quote (snd kv) = true) members ->
  forall m,
    json_scan (String.concat "," (map json_member members)) (between_members m)
    = between_members (foldl (fun acc kv => <[fst kv := snd kv]> acc) m members).
Proof.
  induction 1 as [|kv members (Hne & Hk & Hv) _ IH]; intros m; [reflexivity|].
  cbn [map foldl]. destruct members as [|kv' members].
  - cbn [map String.concat foldl]. apply json_scan_member; assumption.
  - cbn [map] in *. rewrite concat_cons, json_scan_app.
    rewrite (json_scan_member kv m Hne Hk Hv), json_scan_app.
    rewrite (json_scan_outside "," (between_members _) eq_refl eq_refl).
    apply IH.
Qed.

Lemma foldl_insert_reverse (members : list (string * string)) :
  forall m : gmap string string,
    foldl (fun acc kv => <[fst kv := snd kv]> acc) m members
    = foldr (fun kv acc => <[fst kv := snd kv]> acc) m (reverse members).
Proof.
  induction members as [|kv members IH]; intros m; [reflexivity|].
  cbn [foldl]. rewrite IH, reverse_cons, foldr_app. reflexivity.
Qed.

(** X29: [parseSimpleJSON] reads back an object of string members.  When
    the keys are non-empty and neither keys nor values contain a quotation
    mark, the object [{"k1":"v1",...,"kn":"vn"}] is parsed to the map that
    holds every member, a later member replacing an earlier one of the same
    key. *)
Theorem parseSimpleJSON_object (members : list (string * string)) :
  Forall (fun kv => nonempty (fst kv) = true /\ no_quote (fst kv) = true
                    /\ no_quote (snd kv) = true) members ->
  parseSimpleJSON (json_object members) = list_to_map (reverse members)
  /\ (NoDup members.*1 ->
      forall k v, (k, v) ∈ members ->
                  parseSimpleJSON (json_object members) !! k = Some v).
Proof.
  intros Hall.
  assert (Hparse : parseSimpleJSON (json_object members)
                   = list_to_map (reverse members)).
  { unfold parseSimpleJSON, json_object.
    fold (between_members ∅).
    rewrite json_scan_app,
      (json_scan_outside "{" (between_members ∅) eq_refl eq_refl).
    rewrite json_scan_app, (json_scan_members members Hall).
    rewrite (json_scan_outside "}" (between_members _) eq_refl eq_refl).
    cbn [between_members scan_result]. apply foldl_insert_reverse. }
  split; [exact Hparse|].
  intros Hnd k v Hin. rewrite Hparse.
  apply elem_of_list_to_map.
  - rewrite fmap_reverse, reverse_Permutation. exact Hnd.
  - apply elem_of_reverse, Hin.
Qed.

(** X29, witness: the body of a request that sets a key. *)
Lemma parseSimpleJSON_object_witness :
  parseSimpleJSON (json_object [("key", "color"); ("value", "blue")])
  = list_to_map (reverse [("key", "color"); ("value", "blue")]).
Proof.
  apply (parseSimpleJSON_object [("key", "color"); ("value", "blue")]).
  repeat constructor.
Defined.

Lemma unescape_escape_char c rest :
  unescape (escape_char c +:+ escapeJSON rest)
  = String c (unescape (escapeJSON rest)).
Proof.
  destruct (escapeJSON rest) as [|x r];
    destruct c as [[] [] [] [] [] [] [] []]; reflexivity.
Qed.

Lemma unescape_escapeJSON s : unescape (escapeJSON s) = s.
Proof.
  induction s as [|c s IH]; [reflexivity|].
  cbn [escapeJSON]. rewrite unescape_escape_char, IH. reflexivity.
Qed.

Lemma no_control_app s t : no_control (s +:+ t) = no_control s && no_control t.
Proof.
  induction s as [|c s IH]; [reflexivity|]. rewrite app_cons. cbn [no_control].
  rewrite IH, andb_assoc. reflexivity.
Qed.

Lemma no_control_escape_char c : no_control (escape_char c) = true.
Proof. destruct c as [[] [] [] [] [] [] [] []]; reflexivity. Qed.

(** X30: [escapeJSON] loses nothing and leaves no control character.  The
    text it returns contains no backspace, tab, line feed, form feed or
    carriage return; reading a backslash and the character after it as one
    character gives the original text back, so different texts are escaped
    differently. *)
Theorem escapeJSON_reversible (str : string) :
  unescape (escapeJSON str) = str
  /\ no_control (escapeJSON str) = true
  /\ (forall other, escapeJSON other = escapeJSON str -> other = str).
Proof.
  split_and!.
  - apply unescape_escapeJSON.
  - induction str as [|c s IH]; [reflexivity|].
    cbn [escapeJSON]. rewrite no_control_app, no_control_escape_char, IH. reflexivity.
  - intros other H. rewrite <- (unescape_escapeJSON other), H.
    apply unescape_escapeJSON.
Qed.
